(** * Le Grand Jeu de l'Ile de Re: assignment generation and seed verification

    A shallow embedding of [server/storage.ts] ([DatabaseStorage]) together
    with the tables of [shared/schema.ts] it works on, and the properties of
    [generateAssignments] and [verifySeed]; then the other queries and
    updates of [DatabaseStorage], the routes of [registerRoutes] that
    generate and verify seeds, and the figures of the player's dashboard
    and of the team page, with their properties.

    Conventions of the embedding.
    - A table is the list of its rows, in insertion order; a query returns
      rows in table order.  An update rewrites its rows in place, except
      in [updateAssignmentStatus], where the place of the rows afterwards
      is left to the database ([Placement]).  Timestamp columns (defaults
      of the database clock) are left out; no modelled function reads
      them.
    - A value of [seededRandom] is the exact rational [w / 0xffffffff] of
      its window [w] ([Q]); the double JavaScript computes is the nearest
      one, which is 0 at [w = 0], 1 at [w = 0xffffffff] and strictly between
      otherwise, on the same side of 0.5.  What is computed from it on
      doubles, [Math.floor(r * n)], belongs to the runtime.
    - An array that may hold [undefined] is a [list (option A)].
    - The functions over [Db] run their statements on a database that
      accepts them: the keys it draws are new, and the unique columns, the
      column types and the references of the schema hold.  A statement the
      database refuses makes the call throw the error of the database.
      For [generateAssignments] the refusals are modelled
      ([storage_generateAssignments], on the database with its proofs);
      elsewhere, where a property is about values the caller chooses, what
      the schema asks of them is a hypothesis.
    - What the Node runtime and the database provide (the SHA-256 digest,
      double arithmetic, the engine's [Array.prototype.sort],
      [gen_random_uuid()]) is the interface [Runtime]; the entropy read by
      [randomBytes] is an argument of the call. *)

From Stdlib Require Import QArith Qround.
From Stdlib.Strings Require Import Ascii String Byte.
From stdpp Require Import base list strings pretty.

Close Scope Q_scope.

(** ** JavaScript values and completions *)

Inductive JsError := TypeError.

(** How a call ends: with a value, or by throwing. *)
Inductive Completion (A : Type) :=
| Normal (a : A)
| Throw (e : JsError).
Arguments Normal {A} a.
Arguments Throw {A} e.

(** Stateful code that may throw.  The state reached is kept when the call
    throws: [storage.ts] opens no transaction, every awaited statement is
    committed on its own. *)
Definition M (S A : Type) : Type := S -> Completion A * S.

Definition ret {S A} (a : A) : M S A := fun s => (Normal a, s).

Definition bind {S A B} (m : M S A) (f : A -> M S B) : M S B :=
  fun s =>
    match m s with
    | (Normal a, s') => f a s'
    | (Throw e, s') => (Throw e, s')
    end.

Definition throw {S A} (e : JsError) : M S A := fun s => (Throw e, s).
Definition get {S} : M S S := fun s => (Normal s, s).
Definition modify {S} (f : S -> S) : M S unit := fun s => (Normal tt, f s).

Declare Scope js_scope.
Delimit Scope js_scope with js.
Notation "'let*' x ':=' m 'in' k" := (bind m (fun x => k))
  (at level 10, x pattern, m at level 100, k at level 200) : js_scope.
Notation "m1 '>>' m2" := (bind m1 (fun _ => m2))
  (at level 65, right associativity) : js_scope.
Open Scope js_scope.

(** [for (const x of l) body(x)] *)
Fixpoint forOf {S A} (l : list A) (body : A -> M S unit) : M S unit :=
  match l with
  | [] => ret tt
  | x :: l' => body x >> forOf l' body
  end.

(** Reading a property of a value that may be [undefined]: [v.id] throws a
    [TypeError] on [undefined]. *)
Definition prop {S A B} (v : option A) (field : A -> B) : M S B :=
  match v with
  | Some a => ret (field a)
  | None => throw TypeError
  end.

(** ** Arrays *)

(** [a[i]]: [undefined] beyond the end. *)
Definition array_get {A} (a : list A) (i : nat) : option A := a !! i.

(** [a[i]] in an array with holes. *)
Definition elem_get {A} (a : list (option A)) (i : nat) : option A :=
  mjoin (a !! i).

(** [a[i] = v]: in range the slot is overwritten, beyond the end the array
    grows, the slots in between being [undefined]. *)
Definition elem_set {A} (a : list (option A)) (i : nat) (v : option A)
  : list (option A) :=
  if decide (i < length a) then <[i:=v]> a
  else a ++ replicate (i - length a) None ++ [v].

(** [a.slice(i, j)] for [0 <= i <= j]. *)
Definition slice {A} (a : list A) (i j : nat) : list A :=
  take (j - i) (drop i a).

(** ** Hexadecimal strings *)

Definition hex_digit (n : N) : ascii :=
  match n with
  | 0 => "0" | 1 => "1" | 2 => "2" | 3 => "3" | 4 => "4" | 5 => "5"
  | 6 => "6" | 7 => "7" | 8 => "8" | 9 => "9" | 10 => "a" | 11 => "b"
  | 12 => "c" | 13 => "d" | 14 => "e" | _ => "f"
  end%N%char.

(** [buf.toString('hex')]: two lower-case digits per byte. *)
Fixpoint toString_hex (buf : list byte) : string :=
  match buf with
  | [] => ""
  | b :: buf' =>
      let n := Byte.to_N b in
      String (hex_digit (n / 16)) (String (hex_digit (n mod 16)) (toString_hex buf'))
  end.

Definition digit_value (c : ascii) : option Z :=
  let n := Z.of_N (N_of_ascii c) in
  if ((48 <=? n) && (n <=? 57))%Z then Some (n - 48)%Z
  else if ((97 <=? n) && (n <=? 102))%Z then Some (n - 87)%Z
  else if ((65 <=? n) && (n <=? 70))%Z then Some (n - 55)%Z
  else None.

Fixpoint parse_digits (acc : Z) (s : string) : Z :=
  match s with
  | EmptyString => acc
  | String c s' =>
      match digit_value c with
      | Some d => parse_digits (16 * acc + d)%Z s'
      | None => acc
      end
  end.

(** [parseInt(s, 16)] on a string that starts with a hexadecimal digit: the
    value of the longest prefix of digits.  (Sign, white space and the [0x]
    prefix do not occur in the windows of a hexadecimal seed.  On a string
    with no leading digit JavaScript yields [NaN], which has no counterpart
    here: the model gives 0.  [window_digits] and [parseInt16_window] show
    that [seededRandom] never reads such a window.) *)
Definition parseInt16 (s : string) : Z := parse_digits 0 s.

(** [randomBytes(n)]: the first [n] bytes of the entropy source. *)
Definition randomBytes (entropy : nat -> byte) (n : nat) : list byte :=
  map entropy (seq 0 n).

(** ** The seeded stream (storage.ts, 212-218) *)

(** One call of the closure [seededRandom]: the value drawn at [seedIndex]
    and the next [seedIndex]. *)
Definition seededRandom (seed : string) (seedIndex : nat) : Q * nat :=
  let value :=
    (parseInt16 (substring (seedIndex mod String.length seed) 8 seed)
       # 4294967295)%Q in
  (value, seedIndex + 8).

Definition seededRandom_value (seed : string) (seedIndex : nat) : Q :=
  (seededRandom seed seedIndex).1.

(** [seedIndex] after [k] calls on a fresh closure (it starts at 0), and the
    value the next call then returns: the [k]-th value of the stream. *)
Fixpoint seedIndex_after (seed : string) (k : nat) : nat :=
  match k with
  | 0 => 0
  | S k' => (seededRandom seed (seedIndex_after seed k')).2
  end.

Definition draw (seed : string) (k : nat) : Q :=
  seededRandom_value seed (seedIndex_after seed k).

(** ** The schema (shared/schema.ts) *)

Inductive Difficulty := easy | medium | hard | team.
Inductive ChallengeStatus := not_started | in_progress | completed | validated.
Inductive AuditAction :=
  generate_assignments | validate_team_mission | regenerate_assignments | verify_seed.

Global Instance Difficulty_eq_dec : EqDecision Difficulty.
Proof. solve_decision. Defined.
Global Instance ChallengeStatus_eq_dec : EqDecision ChallengeStatus.
Proof. solve_decision. Defined.

Module User.
Record t := mk
    { id : string; username : string; password : string;
      displayName : string; isAdmin : bool }.
End User.

Module Challenge.
Record t := mk
    { id : string; title : string; description : string;
      difficulty : Difficulty; points : Z; needsTarget : bool;
      isActive : bool }.
End Challenge.

Module Team.
Record t := mk
    { id : string; name : string;
      identificationMissionTitle : string;
      identificationMissionDescription : string;
      identificationMissionValidated : bool;
      teamChallengeId : option string }.
End Team.

Module TeamMember.
Record t := mk { id : string; teamId : string; userId : string }.
End TeamMember.

Module Assignment.
Record t := mk
    { id : string; userId : string; challengeId : string;
      targetUserId : option string; status : ChallengeStatus }.
End Assignment.

Module AssignmentSeed.
Record t := mk
    { id : string; seed : string; seedHash : string;
      participantCount : nat; generatedBy : string; isActive : bool }.
End AssignmentSeed.

Module AuditLogEntry.
Record t := mk
    { id : string; action : AuditAction; adminId : string;
      details : string; seedHash : option string }.
End AuditLogEntry.

(** The values given to an insert: the row without its generated key, and
    with the optional columns the caller may leave out. *)
Module InsertTeam.
Record t := mk
    { name : string;
      identificationMissionTitle : string;
      identificationMissionDescription : string;
      teamChallengeId : option string }.
End InsertTeam.

Module InsertAssignment.
Record t := mk
    { userId : string; challengeId : string;
      targetUserId : option string; status : ChallengeStatus }.
End InsertAssignment.

Module InsertAuditLogEntry.
Record t := mk
    { action : AuditAction; adminId : string; details : string;
      seedHash : option string }.
End InsertAuditLogEntry.

(** ** The database *)

(** The tables [generateAssignments] and [verifySeed] touch.  [uuids] counts
    the keys drawn from [gen_random_uuid()] so far. *)
Record Db := mkDb
  { users : list User.t;
    challenges : list Challenge.t;
    teams : list Team.t;
    teamMembers : list TeamMember.t;
    assignments : list Assignment.t;
    assignmentSeeds : list AssignmentSeed.t;
    auditLog : list AuditLogEntry.t;
    uuids : N }.

Definition set_teams (f : list Team.t -> list Team.t) (d : Db) : Db :=
  mkDb (users d) (challenges d) (f (teams d)) (teamMembers d) (assignments d)
       (assignmentSeeds d) (auditLog d) (uuids d).
Definition set_teamMembers (f : list TeamMember.t -> list TeamMember.t) (d : Db) : Db :=
  mkDb (users d) (challenges d) (teams d) (f (teamMembers d)) (assignments d)
       (assignmentSeeds d) (auditLog d) (uuids d).
Definition set_assignments (f : list Assignment.t -> list Assignment.t) (d : Db) : Db :=
  mkDb (users d) (challenges d) (teams d) (teamMembers d) (f (assignments d))
       (assignmentSeeds d) (auditLog d) (uuids d).
Definition set_assignmentSeeds
    (f : list AssignmentSeed.t -> list AssignmentSeed.t) (d : Db) : Db :=
  mkDb (users d) (challenges d) (teams d) (teamMembers d) (assignments d)
       (f (assignmentSeeds d)) (auditLog d) (uuids d).
Definition set_auditLog
    (f : list AuditLogEntry.t -> list AuditLogEntry.t) (d : Db) : Db :=
  mkDb (users d) (challenges d) (teams d) (teamMembers d) (assignments d)
       (assignmentSeeds d) (f (auditLog d)) (uuids d).
Definition set_uuids (f : N -> N) (d : Db) : Db :=
  mkDb (users d) (challenges d) (teams d) (teamMembers d) (assignments d)
       (assignmentSeeds d) (auditLog d) (f (uuids d)).

(** ** What the runtime provides *)

(** [sha256_hex s] stands for [createHash('sha256').update(s).digest('hex')].

    [gen_random_uuid n] is the [n]-th key the database generates; keys do
    not repeat.

    [floor_times r n] is [Math.floor(r * n)] for a value [r] of the seeded
    stream and an array length [n].  JavaScript computes it on doubles: on
    the value [w / 0xffffffff] of a window [w] below [0xffffffff] the
    result is an index below [n], and on the window [0xffffffff] the value
    is the double 1 and the result is [n].  (The floor of the exact product
    can be one more than the floor of the double product when the exact
    product is an integer, so the model does not fix the index further.)

    [array_sort cmp l s] is [[...l].sort(cmp)] run from the state [s] of the
    comparator; it returns the sorted copy and the state the comparator is
    left in.  ECMAScript leaves the order of the result and the calls made
    to an inconsistent comparator to the engine, but the result is a
    rearrangement of the array. *)
Class Runtime := {
  sha256_hex : string -> string;
  gen_random_uuid : N -> string;
  gen_random_uuid_inj : forall m n, gen_random_uuid m = gen_random_uuid n -> m = n;
  floor_times : Q -> nat -> nat;
  floor_times_lt : forall (w : Z) (n : nat),
      (0 <= w < 4294967295)%Z -> 0 < n ->
      floor_times (w # 4294967295) n < n;
  floor_times_max : forall n : nat, floor_times (4294967295 # 4294967295) n = n;
  array_sort : forall {S A : Type}, (A -> A -> S -> Q * S) -> list A -> S -> list A * S;
  array_sort_perm : forall {S A : Type} (cmp : A -> A -> S -> Q * S) l s,
      (array_sort cmp l s).1 ≡ₚ l
}.

(** The pool of identification missions (storage.ts, 238-251). *)
Module Mission.
Record t := mk { title : string; description : string }.
End Mission.

Definition identificationMissions : list Mission.t :=
  [ Mission.mk "Retrouvez-vous au marché de Saint-Martin"
      "Rendez-vous ensemble au marché de Saint-Martin-de-Ré entre 9h et 11h. Prenez une photo de groupe devant l'entrée principale.";
    Mission.mk "Rassemblement au Phare des Baleines"
      "Retrouvez-vous tous au pied du Phare des Baleines. Prenez une photo de groupe avec le phare en arrière-plan.";
    Mission.mk "Réunion à la Plage de la Conche"
      "Rendez-vous sur la plage de la Conche des Baleines. Prenez une photo de groupe sur le sable." ].

(** ** storage.ts: [DatabaseStorage] *)

Section Storage.
Context `{RT : Runtime}.

(** The key of a new row: the column default [gen_random_uuid()]. *)
Definition fresh_uuid : M Db string :=
  fun d => (Normal (gen_random_uuid (uuids d)), set_uuids N.succ d).

Definition getChallengesByDifficulty (difficulty : Difficulty)
  : M Db (list Challenge.t) :=
  let* d := get in
  ret (filter (fun c => Challenge.difficulty c = difficulty
                        /\ Challenge.isActive c = true) (challenges d)).

Definition createTeam (team : InsertTeam.t) : M Db Team.t :=
  let* id := fresh_uuid in
  let newTeam :=
    Team.mk id (InsertTeam.name team)
      (InsertTeam.identificationMissionTitle team)
      (InsertTeam.identificationMissionDescription team)
      false
      (InsertTeam.teamChallengeId team) in
  modify (set_teams (fun t => t ++ [newTeam])) >> ret newTeam.

Definition addTeamMember (teamId userId : string) : M Db TeamMember.t :=
  let* id := fresh_uuid in
  let member := TeamMember.mk id teamId userId in
  modify (set_teamMembers (fun t => t ++ [member])) >> ret member.

Definition createAssignment (assignment : InsertAssignment.t)
  : M Db Assignment.t :=
  let* id := fresh_uuid in
  let newAssignment :=
    Assignment.mk id (InsertAssignment.userId assignment)
      (InsertAssignment.challengeId assignment)
      (InsertAssignment.targetUserId assignment)
      (InsertAssignment.status assignment) in
  modify (set_assignments (fun t => t ++ [newAssignment])) >> ret newAssignment.

Definition createAuditLogEntry (entry : InsertAuditLogEntry.t)
  : M Db AuditLogEntry.t :=
  let* id := fresh_uuid in
  let logEntry :=
    AuditLogEntry.mk id (InsertAuditLogEntry.action entry)
      (InsertAuditLogEntry.adminId entry)
      (InsertAuditLogEntry.details entry)
      (InsertAuditLogEntry.seedHash entry) in
  modify (set_auditLog (fun t => t ++ [logEntry])) >> ret logEntry.

(** [db.update(assignmentSeeds).set({ isActive: false })] on one row. *)
Definition deactivate (r : AssignmentSeed.t) : AssignmentSeed.t :=
  AssignmentSeed.mk (AssignmentSeed.id r) (AssignmentSeed.seed r)
    (AssignmentSeed.seedHash r) (AssignmentSeed.participantCount r)
    (AssignmentSeed.generatedBy r) false.

Definition insertAssignmentSeed (seed seedHash : string)
    (participantCount : nat) (generatedBy : string) (isActive : bool)
  : M Db AssignmentSeed.t :=
  let* id := fresh_uuid in
  let seedRecord :=
    AssignmentSeed.mk id seed seedHash participantCount generatedBy isActive in
  modify (set_assignmentSeeds (fun t => t ++ [seedRecord])) >> ret seedRecord.

(** *** The body of [generateAssignments] after the seed record *)

(** The variables the closure [seededRandom] and the statements after it
    work on: the database and the local [seedIndex]. *)
Record Frame := mkFrame { store : Db; seedIndex : nat }.

Definition liftDb {A} (m : M Db A) : M Frame A :=
  fun fr =>
    let (r, d) := m (store fr) in (r, mkFrame d (seedIndex fr)).

Definition seededRandomM (seed : string) : M Frame Q :=
  fun fr =>
    let (value, i) := seededRandom seed (seedIndex fr) in
    (Normal value, mkFrame (store fr) i).

(** [[shuffledUsers[i], shuffledUsers[j]] = [shuffledUsers[j], shuffledUsers[i]]]:
    the right-hand side is read first, then slot [i] and slot [j] are
    written in that order. *)
Definition swap {A} (a : list (option A)) (i j : nat) : list (option A) :=
  let x := elem_get a j in
  let y := elem_get a i in
  elem_set (elem_set a i x) j y.

(** [for (let i = ...; i > 0; i--)] of the shuffle, entered with [i]. *)
Fixpoint shuffle_from (seed : string) (i : nat) (shuffledUsers : list (option User.t))
  : M Frame (list (option User.t)) :=
  match i with
  | 0 => ret shuffledUsers
  | S i' =>
      let* r := seededRandomM seed in
      let j := floor_times r (S i' + 1) in
      shuffle_from seed i' (swap shuffledUsers (S i') j)
  end.

Definition shuffle (seed : string) (allUsers : list User.t)
  : M Frame (list (option User.t)) :=
  let shuffledUsers := map Some allUsers in
  shuffle_from seed (length shuffledUsers - 1) shuffledUsers.

(** [a.map(f)] for an [f] that may throw. *)
Fixpoint mapM {S A B} (f : A -> M S B) (l : list A) : M S (list B) :=
  match l with
  | [] => ret []
  | x :: l' =>
      let* y := f x in
      let* ys := mapM f l' in
      ret (y :: ys)
  end.

(** [for (let i = 0; i < shuffledUsers.length; i += 3)], entered with [i];
    [fuel] bounds the iterations left. *)
Fixpoint formTeams_from {S} (fuel : nat) (shuffledUsers : list (option User.t)) (i : nat)
  : M S (list (list string)) :=
  match fuel with
  | 0 => ret []
  | S fuel' =>
      if decide (i < length shuffledUsers) then
        let teamSize := Nat.min 3 (length shuffledUsers - i) in
        let teamMembers := slice shuffledUsers i (i + teamSize) in
        let* ids := mapM (fun u => prop u User.id) teamMembers in
        let* rest := formTeams_from fuel' shuffledUsers (i + 3) in
        ret (ids :: rest)
      else ret []
  end.

Definition formTeams {S} (shuffledUsers : list (option User.t))
  : M S (list (list string)) :=
  formTeams_from (length shuffledUsers) shuffledUsers 0.

(** [for (let i = 0; i < teamAssignments.length; i++)], entered with [i] and
    the teams from [teamAssignments[i]] on.  The object given to [insert] is
    evaluated field by field: [mission.title] throws first when [mission]
    is [undefined].  (The row [team] of the source is [teamRow] here, [team]
    being a difficulty.) *)
Fixpoint createTeams (seed : string) (teamChallenges : list Challenge.t)
    (i : nat) (teamAssignments : list (list string)) : M Frame unit :=
  match teamAssignments with
  | [] => ret tt
  | members :: rest =>
      let* r := seededRandomM seed in
      let missionIndex := floor_times r (length identificationMissions) in
      let mission := array_get identificationMissions missionIndex in
      let* r' := seededRandomM seed in
      let teamChallengeIndex := floor_times r' (length teamChallenges) in
      let teamChallenge := array_get teamChallenges teamChallengeIndex in
      let* title := prop mission Mission.title in
      let* description := prop mission Mission.description in
      let* teamChallengeId := prop teamChallenge Challenge.id in
      let* teamRow :=
        liftDb (createTeam
          (InsertTeam.mk ("Équipe #" +:+ pretty (i + 1)) title description
             (Some teamChallengeId))) in
      forOf members (fun userId =>
        liftDb (addTeamMember (Team.id teamRow) userId) >> ret tt) >>
      createTeams seed teamChallenges (S i) rest
  end.

(** [[...pool].sort(() => seededRandom() - 0.5)] *)
Definition sortSeeded (seed : string) (pool : list Challenge.t)
  : M Frame (list Challenge.t) :=
  fun fr =>
    let (sorted, i) :=
      array_sort
        (fun _ _ idx =>
           let (value, idx') := seededRandom seed idx in
           ((value - (1 # 2))%Q, idx'))
        pool (seedIndex fr) in
    (Normal sorted, mkFrame (store fr) i).

(** The target of a challenge that needs one (287-291, 304-308). *)
Definition resolveTarget (seed : string) (allUsers : list User.t)
    (user : User.t) (challenge : Challenge.t) : M Frame (option string) :=
  if Challenge.needsTarget challenge then
    let possibleTargets :=
      filter (fun u => User.id u ≠ User.id user) allUsers in
    let* r := seededRandomM seed in
    let* targetUserId :=
      prop (array_get possibleTargets (floor_times r (length possibleTargets)))
           User.id in
    ret (Some targetUserId)
  else ret None.

Definition assignEasy (seed : string) (easyChallenges : list Challenge.t)
    (user : User.t) : M Frame unit :=
  let* sorted := sortSeeded seed easyChallenges in
  let userEasyChallenges := slice sorted 0 2 in
  forOf userEasyChallenges (fun challenge =>
    liftDb (createAssignment
      (InsertAssignment.mk (User.id user) (Challenge.id challenge) None
         not_started)) >> ret tt).

(** The medium and the hard block are the same statements. *)
Definition assignTargeted (seed : string) (allUsers : list User.t)
    (pool : list Challenge.t) (user : User.t) : M Frame unit :=
  let* sorted := sortSeeded seed pool in
  let userChallenges := slice sorted 0 2 in
  forOf userChallenges (fun challenge =>
    let* targetUserId := resolveTarget seed allUsers user challenge in
    liftDb (createAssignment
      (InsertAssignment.mk (User.id user) (Challenge.id challenge)
         targetUserId not_started)) >> ret tt).

Definition assignChallenges (seed : string) (allUsers : list User.t)
    (easyChallenges mediumChallenges hardChallenges : list Challenge.t)
  : M Frame unit :=
  forOf allUsers (fun user =>
    assignEasy seed easyChallenges user >>
    assignTargeted seed allUsers mediumChallenges user >>
    assignTargeted seed allUsers hardChallenges user).

(** Runs the statements that see [let seedIndex = 0]. *)
Definition withSeedIndex {A} (m : M Frame A) : M Db A :=
  fun d => let (r, fr) := m (mkFrame d 0) in (r, store fr).

(** The statements from [let seedIndex = 0] to the last assignment
    (storage.ts, 212-317). *)
Definition assignFromSeed (seed : string) (allUsers : list User.t)
    (easyChallenges mediumChallenges hardChallenges teamChallenges : list Challenge.t)
  : M Frame unit :=
  let* shuffledUsers := shuffle seed allUsers in
  let* teamAssignments := formTeams shuffledUsers in
  createTeams seed teamChallenges 0 teamAssignments >>
  assignChallenges seed allUsers easyChallenges mediumChallenges hardChallenges.

Definition generateAssignments (entropy : nat -> byte) (adminId : string)
  : M Db AssignmentSeed.t :=
  let seed := toString_hex (randomBytes entropy 128) in
  let seedHash := sha256_hex seed in
  let* d := get in
  let allUsers := filter (fun u => User.isAdmin u = false) (users d) in
  let* easyChallenges := getChallengesByDifficulty easy in
  let* mediumChallenges := getChallengesByDifficulty medium in
  let* hardChallenges := getChallengesByDifficulty hard in
  let* teamChallenges := getChallengesByDifficulty team in
  modify (set_assignments (fun _ => [])) >>
  modify (set_teamMembers (fun _ => [])) >>
  modify (set_teams (fun _ => [])) >>
  modify (set_assignmentSeeds (map deactivate)) >>
  let* seedRecord :=
    insertAssignmentSeed seed seedHash (length allUsers) adminId true in
  withSeedIndex
    (assignFromSeed seed allUsers easyChallenges mediumChallenges
       hardChallenges teamChallenges) >>
  createAuditLogEntry
    (InsertAuditLogEntry.mk generate_assignments adminId
       ("Assignations générées pour " +:+ pretty (length allUsers)
          +:+ " participants")
       (Some seedHash)) >>
  ret seedRecord.

(** [verifySeed]: the first row whose [seedHash] is the candidate, turned
    into a boolean by [!!]. *)
Definition verifySeed (seedHash : string) : M Db bool :=
  let* d := get in
  let rows :=
    filter (fun r => AssignmentSeed.seedHash r = seedHash) (assignmentSeeds d) in
  match rows with
  | seed :: _ => ret true
  | [] => ret false
  end.

End Storage.

(** ** Observations and specifications *)

(** [m] keeps the invariant [I] of the state, whether it returns or throws,
    and a value it returns satisfies [Q]. *)
Definition spec {S A} (I : S -> Prop) (m : M S A) (Q : A -> Prop) : Prop :=
  forall s, I s -> I (m s).2 /\ forall a, (m s).1 = Normal a -> Q a.

Definition stable {S A} (I : S -> Prop) (m : M S A) : Prop :=
  spec I m (fun _ => True).

(** The non-admin users and the active challenges of a category, as
    [generateAssignments] selects them. *)
Definition participants (d : Db) : list User.t :=
  filter (fun u => User.isAdmin u = false) (users d).

Definition pool (difficulty : Difficulty) (d : Db) : list Challenge.t :=
  filter (fun c => Challenge.difficulty c = difficulty
                   /\ Challenge.isActive c = true) (challenges d).

(** The seed string of a call, the record stored for it, and the database
    once that record is stored (storage.ts, 187-210). *)
Definition seed_of (entropy : nat -> byte) : string :=
  toString_hex (randomBytes entropy 128).

Definition new_seed_record `{Runtime} (entropy : nat -> byte) (adminId : string)
    (d : Db) : AssignmentSeed.t :=
  AssignmentSeed.mk (gen_random_uuid (uuids d)) (seed_of entropy)
    (sha256_hex (seed_of entropy)) (length (participants d)) adminId true.

Definition prepared `{Runtime} (entropy : nat -> byte) (adminId : string)
    (d : Db) : Db :=
  mkDb (users d) (challenges d) [] [] []
       (map deactivate (assignmentSeeds d) ++ [new_seed_record entropy adminId d])
       (auditLog d) (N.succ (uuids d)).

Definition audit_entry `{Runtime} (entropy : nat -> byte) (adminId : string)
    (d : Db) : InsertAuditLogEntry.t :=
  InsertAuditLogEntry.mk generate_assignments adminId
    ("Assignations générées pour " +:+ pretty (length (participants d))
       +:+ " participants")
    (Some (sha256_hex (seed_of entropy))).

(** A team row without its key, the participants of a team, and the teams
    of the database with their participants. *)
Definition team_values (t : Team.t) : InsertTeam.t :=
  InsertTeam.mk (Team.name t) (Team.identificationMissionTitle t)
    (Team.identificationMissionDescription t) (Team.teamChallengeId t).

Definition members_of (d : Db) (teamId : string) : list string :=
  map TeamMember.userId
      (filter (fun m => TeamMember.teamId m = teamId) (teamMembers d)).

Definition team_compositions (d : Db) : list (InsertTeam.t * list string) :=
  map (fun t => (team_values t, members_of d (Team.id t))) (teams d).

Definition team_sizes (d : Db) : list nat :=
  map (fun t => length (members_of d (Team.id t))) (teams d).

(** The database without its teams, team memberships and assignments. *)
Definition cleared (d : Db) : Db :=
  mkDb (users d) (challenges d) [] [] [] (assignmentSeeds d) (auditLog d)
       (uuids d).

(** An assignment row without its key: the values it was created from. *)
Definition values (a : Assignment.t) : InsertAssignment.t :=
  InsertAssignment.mk (Assignment.userId a) (Assignment.challengeId a)
    (Assignment.targetUserId a) (Assignment.status a).

(** The target a challenge of the medium or hard block is given: one of the
    other participants when the challenge needs one, none otherwise. *)
Definition target_for (allUsers : list User.t) (user : User.t)
    (challenge : Challenge.t) (target : option string) : Prop :=
  if Challenge.needsTarget challenge
  then exists u, u ∈ allUsers /\ User.id u ≠ User.id user
                 /\ target = Some (User.id u)
  else target = None.

(** What the three blocks of the assignment loop can pass to
    [createAssignment]. *)
Definition from_easy (allUsers : list User.t) (easyChallenges : list Challenge.t)
    (x : InsertAssignment.t) : Prop :=
  exists user c, user ∈ allUsers /\ c ∈ easyChallenges
    /\ x = InsertAssignment.mk (User.id user) (Challenge.id c) None not_started.

Definition from_targeted (allUsers : list User.t) (pool : list Challenge.t)
    (x : InsertAssignment.t) : Prop :=
  exists user c target, user ∈ allUsers /\ c ∈ pool
    /\ target_for allUsers user c target
    /\ x = InsertAssignment.mk (User.id user) (Challenge.id c) target not_started.

Definition generated (allUsers : list User.t)
    (easyChallenges mediumChallenges hardChallenges : list Challenge.t)
    (x : InsertAssignment.t) : Prop :=
  from_easy allUsers easyChallenges x
  \/ from_targeted allUsers mediumChallenges x
  \/ from_targeted allUsers hardChallenges x.

(** ** A runtime to run the model on *)

(** An insertion sort calling the comparator as the engine does: [cmp x y]
    at most 0 keeps [x] before [y]. *)
Fixpoint insert_by {S A} (cmp : A -> A -> S -> Q * S) (x : A) (l : list A) (s : S)
  : list A * S :=
  match l with
  | [] => ([x], s)
  | y :: l' =>
      let (c, s') := cmp x y s in
      if Qle_bool c 0 then (x :: y :: l', s')
      else let (r, s'') := insert_by cmp x l' s' in (y :: r, s'')
  end.

Fixpoint insertion_sort {S A} (cmp : A -> A -> S -> Q * S) (l : list A) (s : S)
  : list A * S :=
  match l with
  | [] => ([], s)
  | x :: l' =>
      let (sorted, s') := insertion_sort cmp l' s in
      insert_by cmp x sorted s'
  end.

(** [Math.floor(r * n)] on exact rationals. *)
Definition floor_exact (r : Q) (n : nat) : nat :=
  Z.to_nat (Qfloor (r * inject_Z (Z.of_nat n))).

(** The digest is the one entry that is not computed: the model only stores
    and compares it, so a tagged copy of the input stands for it. *)
#[refine] Global Instance reference_runtime : Runtime :=
  {| sha256_hex := fun s => "sha256:" +:+ s;
     gen_random_uuid := pretty;
     floor_times := floor_exact;
     array_sort := @insertion_sort |}.
Proof.
  - intros m n E. exact (inj pretty m n E).
  - intros w n Hw Hn. unfold floor_exact.
    assert (H : ((w # 4294967295) * inject_Z (Z.of_nat n)
                 < inject_Z (Z.of_nat n))%Q).
    { rewrite <- (Qmult_1_l (inject_Z (Z.of_nat n))) at 2.
      apply Qmult_lt_compat_r.
      - change 0%Q with (inject_Z 0). rewrite <- Zlt_Qlt. lia.
      - unfold Qlt; simpl. lia. }
    pose proof (Qfloor_le ((w # 4294967295) * inject_Z (Z.of_nat n))) as Hf.
    pose proof (Qle_lt_trans _ _ _ Hf H) as Hlt.
    rewrite <- Zlt_Qlt in Hlt.
    assert (H0 : (0 <= (w # 4294967295) * inject_Z (Z.of_nat n))%Q).
    { apply Qmult_le_0_compat; unfold Qle; simpl; lia. }
    apply Qfloor_resp_le in H0. change (Qfloor 0) with 0%Z in H0. lia.
  - intros n. unfold floor_exact.
    assert (E : ((4294967295 # 4294967295) * inject_Z (Z.of_nat n)
                 == inject_Z (Z.of_nat n))%Q)
      by (unfold Qeq; simpl; lia).
    rewrite (Qfloor_comp _ _ E), Qfloor_Z. lia.
  - intros S A cmp.
    assert (Hins : forall x l s, (insert_by cmp x l s).1 ≡ₚ x :: l).
    { intros x l. induction l as [|y l IH]; intros s; simpl; [done|].
      destruct (cmp x y s) as [c s']. destruct (Qle_bool c 0); [done|].
      specialize (IH s'). destruct (insert_by cmp x l s') as [r s'']; simpl in *.
      rewrite IH. apply Permutation_swap. }
    intros l. induction l as [|x l IH]; intros s; simpl; [done|].
    specialize (IH s). destruct (insertion_sort cmp l s) as [t s']; simpl in *.
    rewrite Hins. by rewrite IH.
Defined.

(** No window of the seed reads [ffffffff]: every value of the stream is
    below 1. *)
Definition stream_below_one (seed : string) : Prop :=
  forall seedIndex, (seededRandom_value seed seedIndex < 1)%Q.

Definition windows_below_one (seed : string) : bool :=
  forallb (fun i => negb (parseInt16 (substring i 8 seed) =? 4294967295)%Z)
          (seq 0 (String.length seed)).

(** A value of the stream read from a window below [0xffffffff]. *)
Definition stream_value_below_one (r : Q) : Prop :=
  exists w, r = (w # 4294967295)%Q /\ (0 <= w < 4294967295)%Z.

(** [m] returns from every state, with a value [a], and the assignments it
    has created are, in the order of creation, the rows [rows], where
    [P a rows]. *)
Definition creates {A} (m : M Frame A)
    (P : A -> list InsertAssignment.t -> Prop) : Prop :=
  forall fr, exists a fr' rows,
    m fr = (Normal a, fr')
    /\ map values (assignments (store fr'))
       = map values (assignments (store fr)) ++ rows
    /\ P a rows.

(** Steps that create no assignment. *)
Definition returns_pure {A} (m : M Frame A) (P : A -> Prop) : Prop :=
  creates m (fun a rows => rows = [] /\ P a).

(** The two challenges a block of the assignment loop takes from a pool:
    the first two of some rearrangement of the pool. *)
Definition drawn_from (pool cs : list Challenge.t) : Prop :=
  exists sorted, sorted ≡ₚ pool /\ cs = slice sorted 0 2.

Definition easy_row (user : User.t) (c : Challenge.t) : InsertAssignment.t :=
  InsertAssignment.mk (User.id user) (Challenge.id c) None not_started.

Definition targeted_row (allUsers : list User.t) (user : User.t)
    (c : Challenge.t) (x : InsertAssignment.t) : Prop :=
  exists target, target_for allUsers user c target
    /\ x = InsertAssignment.mk (User.id user) (Challenge.id c) target not_started.

(** The rows created for one participant: the easy block, the medium block
    and the hard block. *)
Definition user_block (allUsers : list User.t)
    (easyChallenges mediumChallenges hardChallenges : list Challenge.t)
    (user : User.t) (rows : list InsertAssignment.t) : Prop :=
  exists ce cm ch rm rh,
    drawn_from easyChallenges ce /\ drawn_from mediumChallenges cm
    /\ drawn_from hardChallenges ch
    /\ Forall2 (targeted_row allUsers user) cm rm
    /\ Forall2 (targeted_row allUsers user) ch rh
    /\ rows = map (easy_row user) ce ++ rm ++ rh.

(** The assignments of a participant whose challenge is in a given pool. *)
Definition assigned (d : Db) (user : User.t) (pool : list Challenge.t)
  : list Assignment.t :=
  filter (fun a => Assignment.userId a = User.id user
                   /\ Assignment.challengeId a ∈ map Challenge.id pool)
         (assignments d).

(** No challenge of the first pool has the key of one of the second. *)
Definition disjoint_ids (p q : list Challenge.t) : Prop :=
  forall c c', c ∈ p -> c' ∈ q -> Challenge.id c ≠ Challenge.id c'.

(** Consecutive groups of three, the last one with what is left: the
    teams [formTeams] makes of an array without holes. *)
Fixpoint chunks3 {A} (l : list A) : list (list A) :=
  match l with
  | [] => []
  | [a] => [[a]]
  | [a; b] => [[a; b]]
  | a :: b :: c :: rest => [a; b; c] :: chunks3 rest
  end.

(** *** Two runs side by side *)

(** From states related by [Pre], the two computations end the same way:
    both return, with [Post] on the values and states, or both throw the
    same error, with [Thrown] on the states. *)
Definition in_step {S A} (Pre : S -> S -> Prop) (m1 m2 : M S A)
    (Thrown : S -> S -> Prop) (Post : A -> A -> S -> S -> Prop) : Prop :=
  forall s1 s2, Pre s1 s2 ->
    match m1 s1, m2 s2 with
    | (Normal a1, s1'), (Normal a2, s2') => Post a1 a2 s1' s2'
    | (Throw e1, s1'), (Throw e2, s2') => e1 = e2 /\ Thrown s1' s2'
    | _, _ => False
    end.

(** A computation that reads and writes [seedIndex] and nothing else. *)
Definition seed_only {A} (m : M Frame A) : Prop :=
  forall i, exists r i', forall d, m (mkFrame d i) = (r, mkFrame d i').

(** The keys of the teams are distinct keys drawn so far, and every team
    membership refers to a team of the table. *)
Definition well_keyed `{Runtime} (d : Db) : Prop :=
  NoDup (map Team.id (teams d))
  /\ Forall (fun t => exists c, (c < uuids d)%N /\ Team.id t = gen_random_uuid c)
            (teams d)
  /\ Forall (fun m => TeamMember.teamId m ∈ map Team.id (teams d))
            (teamMembers d).

(** Two databases hold the same teams with the same participants and the
    same assignments, up to the keys of the rows. *)
Definition same_generation `{Runtime} (d1 d2 : Db) : Prop :=
  well_keyed d1 /\ well_keyed d2
  /\ team_compositions d1 = team_compositions d2
  /\ map values (assignments d1) = map values (assignments d2).

(** ... and the rows [t1] and [t2] are the last team of each. *)
Definition same_generation_at `{Runtime} (t1 t2 : Team.t) (d1 d2 : Db) : Prop :=
  same_generation d1 d2
  /\ last (teams d1) = Some t1 /\ last (teams d2) = Some t2.

Definition frames_in_step (J : Db -> Db -> Prop) (f1 f2 : Frame) : Prop :=
  seedIndex f1 = seedIndex f2 /\ J (store f1) (store f2).

(** One more participant in the last team. *)
Definition add_member (userId : string)
    (compositions : list (InsertTeam.t * list string))
  : list (InsertTeam.t * list string) :=
  match reverse compositions with
  | [] => []
  | (x, members) :: rest => reverse rest ++ [(x, members ++ [userId])]
  end.

(** How two calls end: both with a record of the same seed and hash, or
    both with the same error. *)
Definition same_completion (r1 r2 : Completion AssignmentSeed.t) : Prop :=
  match r1, r2 with
  | Normal s1, Normal s2 =>
      AssignmentSeed.seed s1 = AssignmentSeed.seed s2
      /\ AssignmentSeed.seedHash s1 = AssignmentSeed.seedHash s2
  | Throw e1, Throw e2 => e1 = e2
  | _, _ => False
  end.

(** ** Runs and inputs used in the examples *)

Definition seed_summary (r : AssignmentSeed.t) : string * string * bool :=
  (AssignmentSeed.seed r, AssignmentSeed.generatedBy r, AssignmentSeed.isActive r).

Definition sample_user (name : string) : User.t :=
  User.mk name name "" name false.

Definition sample_challenge (name : string) (difficulty : Difficulty)
    (needsTarget : bool) : Challenge.t :=
  Challenge.mk name name "" difficulty 1 needsTarget true.

Definition sample_bank : list Challenge.t :=
  [ sample_challenge "e1" easy true; sample_challenge "e2" easy false;
    sample_challenge "m1" medium true; sample_challenge "m2" medium false;
    sample_challenge "h1" hard true; sample_challenge "h2" hard false;
    sample_challenge "t1" team false ].

(** A database with [n] participants [u0], [u1], ... and the bank above. *)
Definition sample_db (n : nat) : Db :=
  mkDb (map (fun i => sample_user ("u" +:+ pretty i)) (seq 0 n))
       sample_bank [] [] [] [] [] 0.

(** Entropy sources: all bytes [00], all bytes [ff]. *)
Definition zeros : nat -> byte := fun _ => x00.
Definition ones : nat -> byte := fun _ => xff.

(** The third assignment of [u0] in the run of [sample_db 2] on [zeros]: the
    medium challenge [m1], which needs a target. *)
Definition sample_assignment : Assignment.t :=
  Assignment.mk "6" "u0" "m1" (Some "u1") not_started.

Definition sample_run : Completion AssignmentSeed.t * Db :=
  @generateAssignments reference_runtime zeros "admin" (sample_db 2).

(** The first assignment of that run: the easy challenge [e1], which needs
    a target as well. *)
Definition sample_easy_assignment : Assignment.t :=
  Assignment.mk "4" "u0" "e1" None not_started.

(** A bank with a single easy challenge. *)
Definition single_easy_bank : list Challenge.t :=
  [ sample_challenge "e1" easy false;
    sample_challenge "m1" medium false; sample_challenge "m2" medium false;
    sample_challenge "h1" hard false; sample_challenge "h2" hard false;
    sample_challenge "t1" team false ].

(** The participants and the bank of [sample_db 2], after an earlier
    generation: other rows, other keys drawn, and an admin user. *)
Definition sample_db_later : Db :=
  mkDb (User.mk "root" "root" "" "root" true :: users (sample_db 2))
       sample_bank
       [ Team.mk "31" "Équipe #1" "Rassemblement au Phare des Baleines" "" true
           (Some "t1") ]
       [ TeamMember.mk "32" "31" "u1"; TeamMember.mk "33" "31" "u0" ]
       [ Assignment.mk "34" "u1" "h2" None validated ]
       [ AssignmentSeed.mk "30" "00" "sha256:00" 2 "admin" true ]
       [] 40.

(** ** storage.ts: the other queries and updates *)

(** The values given to an insert of a user or a challenge: a column with a
    default may be left out ([isAdmin] defaults to [false], [needsTarget]
    to [false], [isActive] to [true]). *)
Module InsertUser.
Record t := mk
    { username : string; password : string; displayName : string;
      isAdmin : option bool }.
End InsertUser.

Module InsertChallenge.
Record t := mk
    { title : string; description : string; difficulty : Difficulty;
      points : Z; needsTarget : option bool; isActive : option bool }.
End InsertChallenge.

Definition set_users (f : list User.t -> list User.t) (d : Db) : Db :=
  mkDb (f (users d)) (challenges d) (teams d) (teamMembers d) (assignments d)
       (assignmentSeeds d) (auditLog d) (uuids d).
Definition set_challenges (f : list Challenge.t -> list Challenge.t) (d : Db) : Db :=
  mkDb (users d) (f (challenges d)) (teams d) (teamMembers d) (assignments d)
       (assignmentSeeds d) (auditLog d) (uuids d).

(** [from(l).innerJoin(r, on)]: the pairs of a row of [l] and a row of [r]
    that satisfy [on], by the rows of [l], then by those of [r]; a
    condition [eq(x, y)] is [bool_decide (x = y)]. *)
Definition innerJoin {A B} (l : list A) (r : list B) (on : A -> B -> bool)
  : list (A * B) :=
  a ← l; (fun b => (a, b)) <$> filter (fun b => on a b) r.

(** [from(l).leftJoin(r, on)]: a row of [l] that no row of [r] matches is
    kept, with [null] on the right. *)
Definition leftJoin {A B} (l : list A) (r : list B) (on : A -> B -> bool)
  : list (A * option B) :=
  a ← l;
  match filter (fun b => on a b) r with
  | [] => [(a, None)]
  | bs => (fun b => (a, Some b)) <$> bs
  end.

(** What [getTeamByUserId] returns: [{ ...team, members }], each member
    being [{ ...member, user }]. *)
Module TeamWithMembers.
Record t := mk { team : Team.t; members : list (TeamMember.t * User.t) }.
End TeamWithMembers.

(** What [getAssignmentsByUserId] returns for an assignment:
    [{ ...assignment, challenge, targetUser }]. *)
Module AssignmentView.
Record t := mk
    { assignment : Assignment.t; challenge : Challenge.t;
      targetUser : option User.t }.
End AssignmentView.

(** [orderBy(desc(assignmentSeeds.generatedAt))] and
    [orderBy(desc(auditLog.timestamp))]: the rows, arranged by a column
    that is left out of the model. *)
Class Ordering := {
  by_generatedAt_desc : list AssignmentSeed.t -> list AssignmentSeed.t;
  by_generatedAt_desc_perm : forall l, by_generatedAt_desc l ≡ₚ l;
  by_timestamp_desc : list AuditLogEntry.t -> list AuditLogEntry.t;
  by_timestamp_desc_perm : forall l, by_timestamp_desc l ≡ₚ l
}.

(** Where the database keeps a row that an [UPDATE] has rewritten is its
    own affair: the rows of the table may then come in another order. *)
Class Placement := {
  placed : list Assignment.t -> list Assignment.t;
  placed_perm : forall rows, placed rows ≡ₚ rows
}.

Section Queries.
Context `{RT : Runtime} `{OB : Ordering} `{PL : Placement}.

Definition getUser (id : string) : M Db (option User.t) :=
  let* d := get in
  ret (head (filter (fun u => User.id u = id) (users d))).


(** The insert of a row the database accepts: [username] is a unique
    column. *)
Definition createUser (insertUser : InsertUser.t) : M Db User.t :=
  let* id := fresh_uuid in
  let user :=
    User.mk id (InsertUser.username insertUser)
      (InsertUser.password insertUser)
      (InsertUser.displayName insertUser)
      (default false (InsertUser.isAdmin insertUser)) in
  modify (set_users (fun t => t ++ [user])) >> ret user.


Definition getAllChallenges : M Db (list Challenge.t) :=
  let* d := get in
  ret (filter (fun c => Challenge.isActive c = true) (challenges d)).

Definition createChallenge (challenge : InsertChallenge.t) : M Db Challenge.t :=
  let* id := fresh_uuid in
  let newChallenge :=
    Challenge.mk id (InsertChallenge.title challenge)
      (InsertChallenge.description challenge)
      (InsertChallenge.difficulty challenge)
      (InsertChallenge.points challenge)
      (default false (InsertChallenge.needsTarget challenge))
      (default true (InsertChallenge.isActive challenge)) in
  modify (set_challenges (fun t => t ++ [newChallenge])) >> ret newChallenge.

(** The rows of the first query are triples [(member, team, user)], those
    of the second pairs [(member, user)]; [teamMember[0].team] is the team
    of the first row.  (The row [team] of the source is [teamRow] here.) *)
Definition getTeamByUserId (userId : string) : M Db (option TeamWithMembers.t) :=
  let* d := get in
  let teamMember :=
    filter (fun r => TeamMember.userId r.1.1 = userId)
      (innerJoin
         (innerJoin (teamMembers d) (teams d)
            (fun m t => bool_decide (TeamMember.teamId m = Team.id t)))
         (users d)
         (fun r u => bool_decide (TeamMember.userId r.1 = User.id u))) in
  match teamMember with
  | [] => ret None
  | r :: _ =>
      let teamRow := r.1.2 in
      let allMembers :=
        filter (fun r => TeamMember.teamId r.1 = Team.id teamRow)
          (innerJoin (teamMembers d) (users d)
             (fun m u => bool_decide (TeamMember.userId m = User.id u))) in
      ret (Some (TeamWithMembers.mk teamRow allMembers))
  end.

(** [db.update(teams).set({ identificationMissionValidated: true })] on one
    row. *)
Definition validated_mission (t : Team.t) : Team.t :=
  Team.mk (Team.id t) (Team.name t) (Team.identificationMissionTitle t)
    (Team.identificationMissionDescription t) true (Team.teamChallengeId t).

Definition validateTeamMission (teamId : string) : M Db unit :=
  modify (set_teams
    (map (fun t => if decide (Team.id t = teamId) then validated_mission t else t))).

(** The rows of the query are triples [(assignment, challenge, targetUser)];
    a [targetUserId] that is [null] matches no user. *)
Definition getAssignmentsByUserId (userId : string)
  : M Db (list AssignmentView.t) :=
  let* d := get in
  let result :=
    filter (fun r => Assignment.userId r.1.1 = userId)
      (leftJoin
         (innerJoin (assignments d) (challenges d)
            (fun a c => bool_decide (Assignment.challengeId a = Challenge.id c)))
         (users d)
         (fun r u => bool_decide (Assignment.targetUserId r.1 = Some (User.id u)))) in
  ret (map (fun r => AssignmentView.mk r.1.1 r.1.2 r.2) result).

(** [db.update(assignments).set({ status })] on one row; [status] is one of
    the values of the column's enumeration. *)
Definition with_status (status : ChallengeStatus) (a : Assignment.t)
  : Assignment.t :=
  Assignment.mk (Assignment.id a) (Assignment.userId a)
    (Assignment.challengeId a) (Assignment.targetUserId a) status.

(** The table after the update holds the rows with the row of the key
    rewritten, where the database places them; an update that matches no
    row changes nothing. *)
Definition updateAssignmentStatus (assignmentId : string)
    (status : ChallengeStatus) : M Db unit :=
  modify (set_assignments (fun rows =>
    if decide (assignmentId ∈ map Assignment.id rows)
    then placed (map (fun a => if decide (Assignment.id a = assignmentId)
                               then with_status status a else a) rows)
    else rows)).

(** [.limit(1)] and [const [seed] = ...]: the first row. *)
Definition getCurrentSeed : M Db (option AssignmentSeed.t) :=
  let* d := get in
  ret (head (take 1 (by_generatedAt_desc
         (filter (fun r => AssignmentSeed.isActive r = true)
                 (assignmentSeeds d))))).

Definition getAuditLog : M Db (list AuditLogEntry.t) :=
  let* d := get in
  ret (by_timestamp_desc (auditLog d)).

End Queries.

(** *** The proofs *)

Inductive ProofType := photo | video | audio | text | geolocation.

(** [metadata] is the text of the JSON value. *)
Module Proof.
Record t := mk
    { id : string; userId : string; assignmentId : option string;
      teamId : option string; type : ProofType; fileName : option string;
      filePath : option string; description : option string;
      metadata : option string; isValidated : bool;
      validatedBy : option string }.
End Proof.

Module InsertProof.
Record t := mk
    { userId : string; assignmentId : option string;
      teamId : option string; type : ProofType; fileName : option string;
      filePath : option string; description : option string;
      metadata : option string; isValidated : option bool;
      validatedBy : option string }.
End InsertProof.

(** The database with the table of proofs. *)
Record Store := mkStore { db : Db; proofs : list Proof.t }.

Definition set_proofs (f : list Proof.t -> list Proof.t) (s : Store) : Store :=
  mkStore (db s) (f (proofs s)).

Definition onDb {A} (m : M Db A) : M Store A :=
  fun s => let (r, d) := m (db s) in (r, mkStore d (proofs s)).

Section Proofs.
Context `{RT : Runtime}.

Definition createProof (proof : InsertProof.t) : M Store Proof.t :=
  let* id := onDb fresh_uuid in
  let newProof :=
    Proof.mk id (InsertProof.userId proof) (InsertProof.assignmentId proof)
      (InsertProof.teamId proof) (InsertProof.type proof)
      (InsertProof.fileName proof) (InsertProof.filePath proof)
      (InsertProof.description proof) (InsertProof.metadata proof)
      (default false (InsertProof.isValidated proof))
      (InsertProof.validatedBy proof) in
  modify (set_proofs (fun t => t ++ [newProof])) >> ret newProof.

Definition getProofsByAssignmentId (assignmentId : string)
  : M Store (list Proof.t) :=
  let* s := get in
  ret (filter (fun p => Proof.assignmentId p = Some assignmentId) (proofs s)).

Definition getProofsByTeamId (teamId : string) : M Store (list Proof.t) :=
  let* s := get in
  ret (filter (fun p => Proof.teamId p = Some teamId) (proofs s)).

(** [db.update(proofs).set({ isValidated: true, validatedBy })] on one
    row. *)
Definition validated_by (validatorId : string) (p : Proof.t) : Proof.t :=
  Proof.mk (Proof.id p) (Proof.userId p) (Proof.assignmentId p)
    (Proof.teamId p) (Proof.type p) (Proof.fileName p) (Proof.filePath p)
    (Proof.description p) (Proof.metadata p) true (Some validatorId).

Definition validateProof (proofId validatorId : string) : M Store unit :=
  modify (set_proofs
    (map (fun p => if decide (Proof.id p = proofId)
                   then validated_by validatorId p else p))).

End Proofs.

(** ** The statements the database refuses

    [generateAssignments] above runs its statements on a database that
    accepts them all.  With what its callers send, the database of
    [schema.ts] refuses three of them:
    - [db.delete(assignments)] (198) while a proof refers to an assignment,
      and [db.delete(teams)] (200) while a proof refers to a team:
      [proofs.assignment_id] and [proofs.team_id] are references with no
      [ON DELETE] action;
    - the insert of the seed record (204-210) when [adminId] is the key of
      no user ([assignment_seeds.generated_by] is a reference to [users]),
      or when the number of participants is no [integer].
    The refused statement throws the error of the database; the statements
    before it are committed, [storage.ts] opening no transaction.  The
    other statements are accepted: the rows inserted refer to users and
    challenges that were selected from the database, and to the team just
    inserted, and the audit entry refers to [adminId] again. *)

Inductive DatabaseError := foreign_key_violation | numeric_value_out_of_range.

Inductive Failure :=
| Js (e : JsError)
| Database (e : DatabaseError).

(** How a call of the storage ends: with a value, or with what it threw. *)
Inductive Outcome (A : Type) :=
| Returned (a : A)
| Failed (e : Failure).
Arguments Returned {A} a.
Arguments Failed {A} e.

(** The values of an [integer] column. *)
Definition int4 (n : Z) : Prop := (-2147483648 <= n <= 2147483647)%Z.

Global Instance int4_dec n : Decision (int4 n).
Proof. unfold int4. apply _. Defined.

(** One of the [keys] is the value of a reference. *)
Definition referred (keys references : list string) : Prop :=
  Exists (fun k => k ∈ keys) references.

Global Instance referred_dec keys references : Decision (referred keys references).
Proof. unfold referred. apply _. Defined.

Section StorageOfTheDatabase.
Context `{RT : Runtime}.

(** [storage.generateAssignments(adminId)] on the database with its
    proofs. *)
Definition storage_generateAssignments (entropy : nat -> byte) (adminId : string)
  : Store -> Outcome AssignmentSeed.t * Store :=
  fun s =>
    let d := db s in
    let allUsers := filter (fun u => User.isAdmin u = false) (users d) in
    if decide (referred (map Assignment.id (assignments d))
                        (omap Proof.assignmentId (proofs s)))
    then (Failed (Database foreign_key_violation), s)
    else
      let d1 := set_teamMembers (fun _ => []) (set_assignments (fun _ => []) d) in
      if decide (referred (map Team.id (teams d)) (omap Proof.teamId (proofs s)))
      then (Failed (Database foreign_key_violation), mkStore d1 (proofs s))
      else
        let d2 :=
          set_assignmentSeeds (map deactivate) (set_teams (fun _ => []) d1) in
        if decide (int4 (Z.of_nat (length allUsers))) then
          if decide (adminId ∈ map User.id (users d)) then
            match generateAssignments entropy adminId d with
            | (Normal seedRecord, d') => (Returned seedRecord, mkStore d' (proofs s))
            | (Throw e, d') => (Failed (Js e), mkStore d' (proofs s))
            end
          else (Failed (Database foreign_key_violation), mkStore d2 (proofs s))
        else (Failed (Database numeric_value_out_of_range), mkStore d2 (proofs s)).

End StorageOfTheDatabase.

(** The call ended on an error of the database. *)
Definition refused {A} (o : Outcome A) : bool :=
  match o with
  | Failed (Database _) => true
  | _ => false
  end.

(** What the database asks of a call of [generateAssignments]. *)
Definition accepted (adminId : string) (s : Store) : Prop :=
  ¬ referred (map Assignment.id (assignments (db s)))
             (omap Proof.assignmentId (proofs s))
  /\ ¬ referred (map Team.id (teams (db s))) (omap Proof.teamId (proofs s))
  /\ int4 (Z.of_nat (length (participants (db s))))
  /\ adminId ∈ map User.id (users (db s)).

Global Instance accepted_dec adminId s : Decision (accepted adminId s).
Proof. unfold accepted. apply _. Defined.

(** ** [registerRoutes]: the routes of the generation and of the seed *)

(** What a handler answers: [res.json(body)], or
    [res.status(code).json({ message })]. *)
Inductive Response (A : Type) :=
| Json (body : A)
| Status (code : nat) (message : string).
Arguments Json {A} body.
Arguments Status {A} code message.

(** [try { ... } catch (error) { res.status(500).json({ message }) }] *)
Definition handle {S A} (m : M S (Response A)) (message : string)
  : S -> Response A * S :=
  fun s =>
    match m s with
    | (Normal r, s') => (r, s')
    | (Throw _, s') => (Status 500 message, s')
    end.

(** [!v] for a field of the request body that holds a string or is
    missing. *)
Definition falsy (v : option string) : bool :=
  match v with
  | None => true
  | Some s => bool_decide (s = "")
  end.

Module GenerateAnswer.
Record t := mk
    { message : string; seedHash : string; participantCount : nat }.
End GenerateAnswer.

(** The answer of [GET /api/seed/current], without [generatedAt]. *)
Module CurrentSeedAnswer.
Record t := mk { seedHash : string; participantCount : nat }.
End CurrentSeedAnswer.

Section Routes.
Context `{RT : Runtime} `{OB : Ordering}.

(** [app.post("/api/assignments/generate", ...)]: whatever the call of the
    storage throws is caught and answered with the same message. *)
Definition post_assignments_generate (entropy : nat -> byte)
    (adminId : option string) : Store -> Response GenerateAnswer.t * Store :=
  fun s =>
    if falsy adminId then (Status 400 "ID administrateur requis", s)
    else
      match storage_generateAssignments entropy (default "" adminId) s with
      | (Returned seedRecord, s') =>
          (Json (GenerateAnswer.mk "Assignations générées avec succès"
                   (AssignmentSeed.seedHash seedRecord)
                   (AssignmentSeed.participantCount seedRecord)), s')
      | (Failed _, s') =>
          (Status 500 "Erreur lors de la génération des assignations", s')
      end.

(** [app.get("/api/seed/current", ...)] *)
Definition get_seed_current : Db -> Response CurrentSeedAnswer.t * Db :=
  handle
    (let* seed := getCurrentSeed in
     match seed with
     | None => ret (Status 404 "Aucun seed actif")
     | Some seed =>
         ret (Json (CurrentSeedAnswer.mk (AssignmentSeed.seedHash seed)
                      (AssignmentSeed.participantCount seed)))
     end)
    "Erreur serveur".

(** [app.post("/api/seed/verify", ...)], for a body whose [seedHash] is a
    string; the answer is [{ isValid }]. *)
Definition post_seed_verify (seedHash : string) : Db -> Response bool * Db :=
  handle
    (let* isValid := verifySeed seedHash in
     ret (Json isValid))
    "Erreur lors de la vérification".

End Routes.

(** ** The player's dashboard and the team page *)

Module Stats.
Record t := mk
    { completed : nat; total : nat; points : Z; potentialPoints : Z }.
End Stats.

(** [PlayerDashboard]: the assignments that are not team challenges, and
    the figures shown above them.  (The points are integers of the
    database; their sums are exact.) *)
Definition individualAssignments (assignments : list AssignmentView.t)
  : list AssignmentView.t :=
  filter (fun a => Challenge.difficulty (AssignmentView.challenge a) ≠ team)
         assignments.

Definition stats (assignments : list AssignmentView.t) : Stats.t :=
  let individual := individualAssignments assignments in
  Stats.mk
    (length (filter (fun a => Assignment.status (AssignmentView.assignment a)
                                = validated) individual))
    (length individual)
    (fold_left (fun sum a => (sum + Challenge.points (AssignmentView.challenge a))%Z)
       (filter (fun a => Assignment.status (AssignmentView.assignment a)
                           = validated) individual) 0%Z)
    (fold_left (fun sum a => (sum + Challenge.points (AssignmentView.challenge a))%Z)
       individual 0%Z).

(** [TeamPage]: [teamProofs.filter(p => !p.isValidated).length]. *)
Definition teamProofCount (teamProofs : list Proof.t) : nat :=
  length (filter (fun p => Proof.isValidated p = false) teamProofs).

(** ** Inputs used in the examples of the queries *)

(** The table order, latest first: rows are inserted as time goes. *)
Global Instance reference_ordering : Ordering :=
  {| by_generatedAt_desc := reverse;
     by_generatedAt_desc_perm := reverse_Permutation;
     by_timestamp_desc := reverse;
     by_timestamp_desc_perm := reverse_Permutation |}.

(** The database a returning run on [sample_db 4] leaves. *)
Definition sample_generated : Db :=
  (@generateAssignments reference_runtime zeros "admin" (sample_db 4)).2.

(** The rows of the two queries of [getTeamByUserId]: the memberships of a
    user with their team and the user, and the memberships of a team with
    their user. *)
Definition memberships (userId : string) (d : Db)
  : list (TeamMember.t * Team.t * User.t) :=
  filter (fun r => TeamMember.userId r.1.1 = userId)
    (innerJoin
       (innerJoin (teamMembers d) (teams d)
          (fun m t => bool_decide (TeamMember.teamId m = Team.id t)))
       (users d)
       (fun r u => bool_decide (TeamMember.userId r.1 = User.id u))).

Definition members_with_users (teamId : string) (d : Db)
  : list (TeamMember.t * User.t) :=
  filter (fun r => TeamMember.teamId r.1 = teamId)
    (innerJoin (teamMembers d) (users d)
       (fun m u => bool_decide (TeamMember.userId m = User.id u))).

(** The rows of the query of [getAssignmentsByUserId]. *)
Definition assignment_rows (userId : string) (d : Db)
  : list (Assignment.t * Challenge.t * option User.t) :=
  filter (fun r => Assignment.userId r.1.1 = userId)
    (leftJoin
       (innerJoin (assignments d) (challenges d)
          (fun a c => bool_decide (Assignment.challengeId a = Challenge.id c)))
       (users d)
       (fun r u => bool_decide (Assignment.targetUserId r.1 = Some (User.id u)))).

(** A store with the database of [sample_generated] and two proofs of the
    team of [u3], and a proof to add. *)
Definition sample_store : Store :=
  mkStore sample_generated
    [ Proof.mk "40" "u3" None (Some "1") photo (Some "a.jpg")
        (Some "uploads/a") None None false None;
      Proof.mk "41" "u1" None (Some "1") text None None (Some "fait") None
        false None ].

Definition sample_proof : InsertProof.t :=
  InsertProof.mk "u2" None (Some "1") photo (Some "b.jpg") (Some "uploads/b")
    None None None None.

(** [m] throws a [TypeError] from every state. *)
Definition throws {S A} (m : M S A) : Prop :=
  forall s, exists s', m s = (Throw TypeError, s').

(** A database with one participant, and a bank whose medium challenge
    needs a target. *)
Definition lone_db : Db :=
  mkDb [User.mk "root" "root" "" "root" true; sample_user "u0"]
       [ sample_challenge "e1" easy false; sample_challenge "m1" medium true;
         sample_challenge "h1" hard false; sample_challenge "t1" team false ]
       [] [] [] [] [] 0.

(** ** The calls the database accepts or refuses: observations and inputs *)

(** A sequence of calls of [generateAssignments], each with its entropy
    and its admin, with how each of them ended; the store a call leaves,
    also by throwing, is the one the next call finds. *)
Definition storage_generate_all `{Runtime}
    (calls : list ((nat -> byte) * string)) (s : Store)
  : list (Outcome AssignmentSeed.t) * Store :=
  fold_left
    (fun acc call =>
       let run := storage_generateAssignments call.1 call.2 acc.2 in
       (acc.1 ++ [run.1], run.2))
    calls ([], s).

(** When [m] returns, the assignments it has created are [rows], in this
    order, and [P] holds of the value returned and of them. *)
Definition yields {A} (m : M Frame A)
    (P : A -> list InsertAssignment.t -> Prop) : Prop :=
  forall fr a fr', m fr = (Normal a, fr') ->
    exists rows,
      map values (assignments (store fr'))
      = map values (assignments (store fr)) ++ rows
      /\ P a rows.

(** From no state does [m] return. *)
Definition never_returns {S A} (m : M S A) : Prop :=
  forall s a s', m s ≠ (Normal a, s').

(** An admin, and the store with this admin, [n] participants, the bank of
    [sample_db] and nothing else. *)
Definition admin_row : User.t := User.mk "root" "root" "" "root" true.

Definition admin_store (n : nat) : Store :=
  mkStore (set_users (fun us => admin_row :: us) (sample_db n)) [].

(** The store of [lone_db], without proofs. *)
Definition lone_store : Store := mkStore lone_db [].

(** The store a returning call of the admin leaves with four participants,
    then with a proof of the first team. *)
Definition played_store : Store :=
  mkStore
    (db (@storage_generateAssignments reference_runtime zeros "root"
           (admin_store 4)).2)
    [ Proof.mk "40" "u3" None (Some "1") photo (Some "a.jpg")
        (Some "uploads/a") None None false None ].

(** Two participants and an admin, on the bank with a single easy
    challenge. *)
Definition single_easy_store : Store :=
  mkStore
    (mkDb [admin_row; sample_user "u0"; sample_user "u1"] single_easy_bank
          [] [] [] [] [] 0)
    [].

(** A store after an earlier generation by the admin, whose bank has lost
    its easy challenges. *)
Definition no_easy_store : Store :=
  mkStore
    (mkDb [admin_row; sample_user "u0"; sample_user "u1"]
       [ sample_challenge "m1" medium false; sample_challenge "m2" medium false;
         sample_challenge "h1" hard false; sample_challenge "h2" hard false;
         sample_challenge "t1" team false ]
       [ Team.mk "1" "Équipe #1" "Rassemblement au Phare des Baleines" "" true
           (Some "t1") ]
       [ TeamMember.mk "2" "1" "u0"; TeamMember.mk "3" "1" "u1" ]
       [ Assignment.mk "4" "u0" "m1" None completed ]
       [ AssignmentSeed.mk "0" "00" "sha256:00" 2 "root" true ]
       [] 5)
    [].

(** * Properties *)

(** A decidable fact about given values, by evaluation. *)
Ltac by_evaluation :=
  match goal with
  | |- ?P => apply (bool_decide_unpack P); vm_compute; exact I
  end.

(** Membership in a list given by its elements. *)
Ltac elem_of_concrete :=
  vm_compute; repeat first [apply list_elem_of_here | apply list_elem_of_further].

(** ** The seeded stream *)

Lemma digit_value_range c d : digit_value c = Some d -> (0 <= d < 16)%Z.
Proof.
  unfold digit_value. intros H.
  repeat case_match; simplify_eq; lia.
Qed.

Lemma parse_digits_range s acc :
  (0 <= acc)%Z ->
  (acc <= parse_digits acc s < 16 ^ Z.of_nat (String.length s) * (acc + 1))%Z.
Proof.
  revert acc; induction s as [|c s IH]; intros acc Hacc.
  - simpl. lia.
  - cbn [parse_digits String.length].
    assert (Hpow : (16 ^ Z.of_nat (S (String.length s))
                    = 16 * 16 ^ Z.of_nat (String.length s))%Z).
    { rewrite Nat2Z.inj_succ, Z.pow_succ_r by lia. done. }
    assert (Hpos : (0 < 16 ^ Z.of_nat (String.length s))%Z)
      by (apply Z.pow_pos_nonneg; lia).
    destruct (digit_value c) as [d|] eqn:Hd.
    + apply digit_value_range in Hd.
      specialize (IH (16 * acc + d)%Z ltac:(lia)). nia.
    + nia.
Qed.

Lemma length_substring n m s : String.length (substring n m s) <= m.
Proof.
  revert n m; induction s as [|c s IH]; intros [|n] [|m]; simpl; try lia.
  - specialize (IH 0 m). lia.
  - apply (IH n 0).
  - apply (IH n (S m)).
Qed.

(** Whatever the window, [parseInt] reads at most 8 digits. *)
Lemma parseInt16_window seed i :
  (0 <= parseInt16 (substring i 8 seed) <= 4294967295)%Z.
Proof.
  unfold parseInt16.
  pose proof (parse_digits_range (substring i 8 seed) 0 ltac:(lia)) as [H1 H2].
  pose proof (length_substring i 8 seed) as Hlen.
  assert ((16 ^ Z.of_nat (String.length (substring i 8 seed)) <= 16 ^ 8)%Z)
    by (apply Z.pow_le_mono_r; lia).
  change (16 ^ 8)%Z with 4294967296%Z in *. lia.
Qed.

Lemma seededRandom_index seed i : (seededRandom seed i).2 = i + 8.
Proof. done. Qed.

Lemma seedIndex_after_eq seed k : seedIndex_after seed k = 8 * k.
Proof. induction k as [|k IH]; simpl; [done|]. rewrite IH. lia. Qed.

(** Every value of the stream lies in the closed interval from 0 to 1. *)
Lemma seededRandom_value_range seed i :
  (0 <= seededRandom_value seed i <= 1)%Q.
Proof.
  unfold seededRandom_value, seededRandom; cbn [fst].
  pose proof (parseInt16_window seed (i mod String.length seed)) as [H0 H1].
  split; unfold Qle; simpl; lia.
Qed.

(** A value is below 1 exactly when its window is not [ffffffff]. *)
Lemma seededRandom_value_lt_1 seed i :
  (seededRandom_value seed i < 1)%Q <->
  parseInt16 (substring (i mod String.length seed) 8 seed) ≠ 4294967295%Z.
Proof.
  unfold seededRandom_value, seededRandom; cbn [fst].
  pose proof (parseInt16_window seed (i mod String.length seed)) as [H0 H1].
  unfold Qlt; simpl. lia.
Qed.

(** *** The windows of a hexadecimal seed *)

Lemma digit_value_hex_digit n : is_Some (digit_value (hex_digit n)).
Proof.
  destruct n as [|p]; [by eexists|].
  do 4 (try destruct p as [p|p|]); by eexists.
Qed.

Lemma length_toString_hex buf : String.length (toString_hex buf) = 2 * length buf.
Proof. induction buf as [|b buf IH]; simpl; [done|]. rewrite IH. lia. Qed.

Lemma length_seed_of entropy : String.length (seed_of entropy) = 256.
Proof.
  unfold seed_of, randomBytes.
  by rewrite length_toString_hex, length_map, length_seq.
Qed.

(** In a string of digits, a window that starts inside the string starts
    with a digit. *)
Lemma substring_starts_with_digit s n m :
  (forall k c, String.get k s = Some c -> is_Some (digit_value c)) ->
  n < String.length s ->
  exists c rest, substring n (S m) s = String c rest /\ is_Some (digit_value c).
Proof.
  revert n; induction s as [|c s IH]; intros n Hs Hn; simpl in Hn; [lia|].
  destruct n as [|n]; simpl.
  - exists c, (substring 0 m s). split; [done|]. by apply (Hs 0).
  - apply IH; [|lia]. intros k c' Hk. by apply (Hs (S k)).
Qed.

Lemma toString_hex_digits buf k c :
  String.get k (toString_hex buf) = Some c -> is_Some (digit_value c).
Proof.
  revert k; induction buf as [|b buf IH]; intros k; simpl; [done|].
  destruct k as [|[|k]]; [intros [= <-]; apply digit_value_hex_digit..|].
  apply IH.
Qed.

(** [parseInt] is never given a window without a leading digit: a window
    of the seed of a call starts with a hexadecimal digit. *)
Lemma window_digits entropy seedIndex :
  exists c rest,
    substring (seedIndex mod String.length (seed_of entropy)) 8 (seed_of entropy)
    = String c rest
    /\ is_Some (digit_value c).
Proof.
  apply substring_starts_with_digit.
  - intros k c. apply toString_hex_digits.
  - rewrite length_seed_of. apply Nat.mod_upper_bound. lia.
Qed.

(** The [k]-th value of the stream is read at [seedIndex = 8 k]; it depends
    on the seed and on [k] alone. *)
Lemma draw_eq seed k : draw seed k = seededRandom_value seed (8 * k).
Proof. unfold draw. by rewrite seedIndex_after_eq. Qed.

Lemma draw_range seed k : (0 <= draw seed k <= 1)%Q.
Proof. apply seededRandom_value_range. Qed.

(** ** Rules for [spec] *)

Section SpecRules.
Context {S : Type}.
Implicit Types I : S -> Prop.

Lemma spec_ret {A} I (a : A) (Q : A -> Prop) : Q a -> spec I (ret a) Q.
Proof. intros HQ s Hs; simpl. split; [done|]. by intros ? [= <-]. Qed.

Lemma spec_throw {A} I e (Q : A -> Prop) : spec I (throw e) Q.
Proof. intros s Hs; simpl. by split. Qed.

Lemma spec_bind {A B} I (m : M S A) (f : A -> M S B) (Q : A -> Prop) (Q' : B -> Prop) :
  spec I m Q -> (forall a, Q a -> spec I (f a) Q') -> spec I (bind m f) Q'.
Proof.
  intros Hm Hf s Hs. unfold bind.
  destruct (Hm s Hs) as [HI HQ]. destruct (m s) as [[a|e] s']; simpl in *.
  - apply (Hf a); auto.
  - by split.
Qed.

Lemma spec_weaken {A} I (m : M S A) (Q Q' : A -> Prop) :
  spec I m Q -> (forall a, Q a -> Q' a) -> spec I m Q'.
Proof. intros Hm HQ s Hs. destruct (Hm s Hs); split; auto. Qed.

Lemma spec_get I : spec I get I.
Proof. intros s Hs; simpl. split; [done|]. by intros ? [= <-]. Qed.

Lemma spec_modify I (f : S -> S) :
  (forall s, I s -> I (f s)) -> stable I (modify f).
Proof. intros Hf s Hs; simpl. split; auto. Qed.

Lemma spec_prop {A B} I (v : option A) (field : A -> B) (Q : B -> Prop) :
  (forall a, v = Some a -> Q (field a)) -> spec I (prop v field) Q.
Proof. intros H. destruct v; [apply spec_ret; auto | apply spec_throw]. Qed.

Lemma spec_forOf {A} I (l : list A) (body : A -> M S unit) :
  (forall x, x ∈ l -> stable I (body x)) -> stable I (forOf l body).
Proof.
  induction l as [|x l IH]; intros H; simpl.
  - by apply spec_ret.
  - eapply spec_bind; [apply H; left|].
    intros _ _. apply IH. intros y Hy. apply H. by right.
Qed.

Lemma spec_mapM {A B} I (f : A -> M S B) (l : list A) (Q : B -> Prop) :
  (forall x, x ∈ l -> spec I (f x) Q) -> spec I (mapM f l) (Forall Q).
Proof.
  induction l as [|x l IH]; intros H; simpl.
  - by apply spec_ret.
  - eapply spec_bind; [apply H; left|]. intros y Hy.
    eapply spec_bind; [apply IH; intros; apply H; by right|].
    intros ys Hys. apply spec_ret. by constructor.
Qed.

End SpecRules.

(** ** Invariants of the database across the generation *)

Section Invariants.
Context `{RT : Runtime}.
Variable I : Db -> Prop.

Let IF : Frame -> Prop := fun fr => I (store fr).

Lemma spec_liftDb {A} (m : M Db A) (Q : A -> Prop) :
  spec I m Q -> spec IF (liftDb m) Q.
Proof.
  intros Hm fr Hfr. unfold liftDb. destruct (Hm (store fr) Hfr) as [H1 H2].
  destruct (m (store fr)) as [r d]; simpl in *. by split.
Qed.

Lemma spec_seededRandomM seed :
  spec IF (seededRandomM seed) (fun r => (0 <= r <= 1)%Q).
Proof.
  intros fr Hfr. unfold seededRandomM.
  pose proof (seededRandom_value_range seed (seedIndex fr)) as Hr.
  unfold seededRandom_value in Hr.
  destruct (seededRandom seed (seedIndex fr)) as [v i]; simpl in *.
  split; [done|]. by intros ? [= <-].
Qed.

Lemma spec_sortSeeded seed pool :
  spec IF (sortSeeded seed pool) (fun sorted => sorted ≡ₚ pool).
Proof.
  intros fr Hfr. unfold sortSeeded.
  match goal with |- context [array_sort ?cmp pool ?s] =>
    pose proof (array_sort_perm cmp pool s) as Hp;
    destruct (array_sort cmp pool s) as [sorted i] end.
  simpl in *. split; [done|]. by intros ? [= <-].
Qed.

Lemma stable_shuffle_from seed i a : stable IF (shuffle_from seed i a).
Proof.
  revert a; induction i as [|i IH]; intros a; simpl.
  - by apply spec_ret.
  - eapply spec_bind; [apply spec_seededRandomM|]. intros r _. apply IH.
Qed.

Lemma stable_formTeams_from {S} (J : S -> Prop) fuel a i :
  stable J (formTeams_from fuel a i).
Proof.
  revert i; induction fuel as [|fuel IH]; intros i; simpl.
  - by apply spec_ret.
  - case_decide; [|by apply spec_ret].
    eapply spec_bind.
    { apply spec_mapM with (Q := fun _ => True). intros u _. by apply spec_prop. }
    intros ids _. eapply spec_bind; [apply IH|]. intros rest _. by apply spec_ret.
Qed.

Hypothesis createTeam_stable : forall x, stable I (createTeam x).
Hypothesis addTeamMember_stable : forall t u, stable I (addTeamMember t u).

Lemma stable_createTeams seed teamChallenges i teamAssignments :
  stable IF (createTeams seed teamChallenges i teamAssignments).
Proof.
  revert i; induction teamAssignments as [|members rest IH]; intros i; simpl.
  - by apply spec_ret.
  - eapply spec_bind; [apply spec_seededRandomM|]. intros r _.
    eapply spec_bind; [apply spec_seededRandomM|]. intros r' _.
    eapply spec_bind; [by apply spec_prop with (Q := fun _ => True)|]. intros title _.
    eapply spec_bind; [by apply spec_prop with (Q := fun _ => True)|]. intros descr _.
    eapply spec_bind; [by apply spec_prop with (Q := fun _ => True)|]. intros tc _.
    eapply spec_bind; [apply spec_liftDb, createTeam_stable|]. intros teamRow _.
    eapply spec_bind; [|intros _ _; apply IH].
    apply spec_forOf. intros userId _.
    eapply spec_bind; [apply spec_liftDb, addTeamMember_stable|].
    intros _ _. by apply spec_ret.
Qed.

Variables (allUsers : list User.t).
Variables (easyChallenges mediumChallenges hardChallenges : list Challenge.t).

Hypothesis createAssignment_stable :
  forall x, generated allUsers easyChallenges mediumChallenges hardChallenges x ->
            stable I (createAssignment x).

Lemma spec_resolveTarget seed user challenge :
  spec IF (resolveTarget seed allUsers user challenge)
       (target_for allUsers user challenge).
Proof.
  unfold resolveTarget, target_for.
  destruct (Challenge.needsTarget challenge); [|by apply spec_ret].
  eapply spec_bind; [apply spec_seededRandomM|]. intros r _.
  eapply spec_bind with
    (Q := fun t => exists u, u ∈ allUsers /\ User.id u ≠ User.id user /\ t = User.id u).
  - apply spec_prop. intros u Hu. unfold array_get in Hu.
    apply list_elem_of_lookup_2, list_elem_of_filter in Hu as [Hne Hin]. eauto.
  - intros t (u & Hin & Hne & ->). apply spec_ret. eauto.
Qed.

Lemma slice_subseteq {A} (l : list A) n x : x ∈ slice l 0 n -> x ∈ l.
Proof.
  unfold slice. rewrite drop_0, Nat.sub_0_r. apply (subseteq_take n l).
Qed.

Lemma stable_assignEasy seed user :
  user ∈ allUsers -> stable IF (assignEasy seed easyChallenges user).
Proof.
  intros Hu. unfold assignEasy.
  eapply spec_bind; [apply spec_sortSeeded|]. intros sorted Hperm.
  apply spec_forOf. intros c Hc.
  eapply spec_bind; [|intros _ _; by apply spec_ret].
  apply spec_liftDb, createAssignment_stable. left.
  exists user, c. split_and!; [done| |done].
  rewrite <- Hperm. by eapply slice_subseteq.
Qed.

Lemma stable_assignTargeted seed pool user :
  user ∈ allUsers ->
  (forall x, from_targeted allUsers pool x ->
             generated allUsers easyChallenges mediumChallenges hardChallenges x) ->
  stable IF (assignTargeted seed allUsers pool user).
Proof.
  intros Hu Hgen. unfold assignTargeted.
  eapply spec_bind; [apply spec_sortSeeded|]. intros sorted Hperm.
  apply spec_forOf. intros c Hc.
  eapply spec_bind; [apply spec_resolveTarget|]. intros target Htarget.
  eapply spec_bind; [|intros _ _; by apply spec_ret].
  apply spec_liftDb, createAssignment_stable, Hgen.
  exists user, c, target. split_and!; [done| |done|done].
  rewrite <- Hperm. by eapply slice_subseteq.
Qed.

Lemma stable_assignChallenges seed :
  stable IF (assignChallenges seed allUsers easyChallenges mediumChallenges
               hardChallenges).
Proof.
  unfold assignChallenges. apply spec_forOf. intros user Hu.
  eapply spec_bind; [by apply stable_assignEasy|]. intros _ _.
  eapply spec_bind; [apply stable_assignTargeted; [done|]|].
  { intros x Hx. right; by left. }
  intros _ _. apply stable_assignTargeted; [done|].
  intros x Hx. right; by right.
Qed.

Lemma stable_assignFromSeed seed teamChallenges :
  stable IF (assignFromSeed seed allUsers easyChallenges mediumChallenges
               hardChallenges teamChallenges).
Proof.
  unfold assignFromSeed, shuffle, formTeams.
  eapply spec_bind; [apply stable_shuffle_from|]. intros shuffled _.
  eapply spec_bind; [apply stable_formTeams_from|]. intros tas _.
  eapply spec_bind; [apply stable_createTeams|]. intros _ _.
  apply stable_assignChallenges.
Qed.

Lemma stable_withSeedIndex {A} (m : M Frame A) :
  stable IF m -> stable I (withSeedIndex m).
Proof.
  intros Hm d Hd. unfold withSeedIndex.
  destruct (Hm (mkFrame d 0) Hd) as [H _].
  destruct (m (mkFrame d 0)) as [r fr]; simpl in *. by split.
Qed.

End Invariants.

(** ** The anatomy of [generateAssignments] *)

Section Generate.
Context `{RT : Runtime}.

(** The call stores the seed record, runs the seeded statements on the
    database so prepared, and writes the audit entry if they returned. *)
Lemma generateAssignments_unfold entropy adminId d :
  generateAssignments entropy adminId d =
  match withSeedIndex
          (assignFromSeed (seed_of entropy) (participants d) (pool easy d)
             (pool medium d) (pool hard d) (pool team d))
          (prepared entropy adminId d) with
  | (Normal _, d') =>
      (Normal (new_seed_record entropy adminId d),
       (createAuditLogEntry (audit_entry entropy adminId d) d').2)
  | (Throw e, d') => (Throw e, d')
  end.
Proof.
  reflexivity.
Qed.

Lemma generateAssignments_inv (I : Db -> Prop) entropy adminId d :
  (forall x, stable I (createTeam x)) ->
  (forall t u, stable I (addTeamMember t u)) ->
  (forall x, generated (participants d) (pool easy d) (pool medium d)
                       (pool hard d) x ->
             stable I (createAssignment x)) ->
  (forall x, stable I (createAuditLogEntry x)) ->
  I (prepared entropy adminId d) ->
  I (generateAssignments entropy adminId d).2.
Proof.
  intros HT HM HA HL Hprep. rewrite generateAssignments_unfold.
  pose proof (stable_withSeedIndex I _
    (stable_assignFromSeed I HT HM _ _ _ _ HA (seed_of entropy) (pool team d))
    _ Hprep) as [Hbody _].
  destruct (withSeedIndex _ _) as [[[]|e] d']; simpl in *; [|done].
  by apply (HL (audit_entry entropy adminId d) d').
Qed.

End Generate.

(** ** Runs that return: what they create *)

Lemma seededRandom_value_mod seed i :
  seededRandom_value seed i = seededRandom_value seed (i mod String.length seed).
Proof.
  unfold seededRandom_value, seededRandom; cbn [fst].
  destruct (decide (String.length seed = 0)) as [->|Hn]; [done|].
  by rewrite Nat.Div0.mod_mod.
Qed.

Lemma windows_below_one_sound seed :
  windows_below_one seed = true -> stream_below_one seed.
Proof.
  unfold windows_below_one. rewrite forallb_forall. intros H i.
  apply seededRandom_value_lt_1.
  destruct (decide (String.length seed = 0)) as [Hn|Hn].
  - destruct seed; [|done]. by destruct (i mod _).
  - specialize (H (i mod String.length seed)).
    rewrite negb_true_iff, Z.eqb_neq in H. apply H.
    apply in_seq. pose proof (Nat.mod_upper_bound i _ Hn). lia.
Qed.

Section Creates.
Context `{RT : Runtime}.

Lemma creates_ret {A} (a : A) (P : A -> list InsertAssignment.t -> Prop) :
  P a [] -> creates (ret a) P.
Proof. intros HP fr. exists a, fr, []. by rewrite app_nil_r. Qed.

Lemma creates_weaken {A} (m : M Frame A) (P Q : A -> list InsertAssignment.t -> Prop) :
  creates m P -> (forall a rows, P a rows -> Q a rows) -> creates m Q.
Proof.
  intros Hm HPQ fr. destruct (Hm fr) as (a & fr' & rows & ? & ? & ?).
  exists a, fr', rows. auto.
Qed.

Lemma creates_bind {A B} (m : M Frame A) (f : A -> M Frame B)
    (P : A -> list InsertAssignment.t -> Prop)
    (Q : B -> list InsertAssignment.t -> Prop) :
  creates m P ->
  (forall a r1, P a r1 -> creates (f a) (fun b r2 => Q b (r1 ++ r2))) ->
  creates (bind m f) Q.
Proof.
  intros Hm Hf fr. destruct (Hm fr) as (a & fr1 & r1 & Em & E1 & HP).
  destruct (Hf a r1 HP fr1) as (b & fr2 & r2 & Ef & E2 & HQ).
  exists b, fr2, (r1 ++ r2). unfold bind. rewrite Em, Ef.
  split_and!; [done| |done]. by rewrite E2, E1, app_assoc.
Qed.

(** A step that creates no assignment, followed by the rest. *)
Lemma creates_bind_pure {A B} (m : M Frame A) (f : A -> M Frame B)
    (P : A -> Prop) (Q : B -> list InsertAssignment.t -> Prop) :
  creates m (fun a rows => rows = [] /\ P a) ->
  (forall a, P a -> creates (f a) Q) ->
  creates (bind m f) Q.
Proof.
  intros Hm Hf. eapply creates_bind; [exact Hm|].
  intros a r1 [E HP]. subst r1. simpl. by apply Hf.
Qed.

Lemma creates_forOf {A} (l : list A) (body : A -> M Frame unit)
    (P : A -> list InsertAssignment.t -> Prop) :
  (forall x, x ∈ l -> creates (body x) (fun _ rows => P x rows)) ->
  creates (forOf l body)
          (fun _ rows => exists blocks, rows = concat blocks /\ Forall2 P l blocks).
Proof.
  induction l as [|x l IH]; intros H; simpl.
  - apply creates_ret. exists []. by split; [|constructor].
  - eapply creates_bind; [apply H; left|]. intros [] r1 HP.
    eapply creates_weaken; [apply IH; intros; apply H; by right|].
    intros [] r2 (blocks & -> & Hall). exists (r1 :: blocks).
    split; [done|by constructor].
Qed.

Lemma creates_liftDb_createAssignment x :
  creates (liftDb (createAssignment x)) (fun _ rows => rows = [x]).
Proof.
  intros fr. eexists _, _, [x]. split; [reflexivity|]. split; [|done].
  destruct x. simpl. by rewrite map_app.
Qed.

Lemma creates_liftDb_createTeam x :
  creates (liftDb (createTeam x)) (fun _ rows => rows = [] /\ True).
Proof.
  intros fr. eexists _, _, []. split; [reflexivity|]. by rewrite app_nil_r.
Qed.

Lemma creates_liftDb_addTeamMember t u :
  creates (liftDb (addTeamMember t u)) (fun _ rows => rows = [] /\ True).
Proof.
  intros fr. eexists _, _, []. split; [reflexivity|]. by rewrite app_nil_r.
Qed.

Lemma creates_prop {A B} (v : option A) (field : A -> B) a :
  v = Some a ->
  creates (prop v field) (fun b rows => rows = [] /\ b = field a).
Proof. intros ->. by apply creates_ret. Qed.

Lemma creates_sortSeeded seed pool :
  creates (sortSeeded seed pool) (fun sorted rows => rows = [] /\ sorted ≡ₚ pool).
Proof.
  intros fr. unfold sortSeeded.
  match goal with |- context [array_sort ?cmp pool ?s] =>
    pose proof (array_sort_perm cmp pool s) as Hp;
    destruct (array_sort cmp pool s) as [sorted i] end.
  exists sorted, (mkFrame (store fr) i), []. simpl. by rewrite app_nil_r.
Qed.

Variable seed : string.
Hypothesis seed_below_one : stream_below_one seed.

Lemma creates_seededRandomM :
  creates (seededRandomM seed)
          (fun r rows => rows = [] /\ stream_value_below_one r).
Proof.
  intros fr. unfold seededRandomM.
  pose proof (parseInt16_window seed (seedIndex fr mod String.length seed))
    as [H0 H1].
  pose proof (proj1 (seededRandom_value_lt_1 seed (seedIndex fr))
                    (seed_below_one (seedIndex fr))) as Hne.
  exists (seededRandom seed (seedIndex fr)).1,
         (mkFrame (store fr) (seededRandom seed (seedIndex fr)).2), [].
  split; [done|]. rewrite app_nil_r. split; [done|]. split; [done|].
  eexists. split; [reflexivity|]. lia.
Qed.

Lemma floor_times_below r n :
  stream_value_below_one r -> 0 < n -> floor_times r n < n.
Proof. intros (w & -> & Hw) Hn. by apply floor_times_lt. Qed.

Lemma returns_forOf {A} (l : list A) (body : A -> M Frame unit) :
  (forall x, x ∈ l -> returns_pure (body x) (fun _ => True)) ->
  returns_pure (forOf l body) (fun _ => True).
Proof.
  induction l as [|x l IH]; intros H; simpl.
  - by apply creates_ret.
  - eapply creates_bind_pure; [apply H; left|]. intros _ _.
    apply IH. intros; apply H; by right.
Qed.

Lemma returns_mapM_prop {A B} (field : A -> B) (l : list (option A)) :
  Forall is_Some l ->
  returns_pure (mapM (fun v => prop v field) l) (fun _ => True).
Proof.
  induction 1 as [|v l [a ->] _ IH]; cbn [mapM].
  - by apply creates_ret.
  - eapply creates_bind_pure; [by eapply creates_prop|]. intros b _.
    eapply creates_bind_pure; [apply IH|]. intros bs _. by apply creates_ret.
Qed.

Lemma swap_in_range {A} (a : list (option A)) i j :
  i < length a -> j < length a -> swap a i j ≡ₚ a.
Proof.
  intros Hi Hj. unfold swap, elem_set, elem_get.
  destruct (lookup_lt_is_Some_2 a i Hi) as [ai Hai].
  destruct (lookup_lt_is_Some_2 a j Hj) as [aj Haj].
  rewrite (decide_True (P := i < length a)) by done.
  rewrite (decide_True (P := j < length (<[i:=mjoin (a !! j)]> a)))
    by (by rewrite length_insert).
  rewrite Hai, Haj. by apply Permutation_insert_swap.
Qed.

Lemma returns_shuffle_from i a :
  i < length a \/ i = 0 ->
  returns_pure (shuffle_from seed i a) (fun a' => a' ≡ₚ a).
Proof.
  revert a; induction i as [|i IH]; intros a Hi; simpl.
  - by apply creates_ret.
  - destruct Hi as [Hi|?]; [|done].
    eapply creates_bind_pure; [apply creates_seededRandomM|].
    intros r Hr.
    pose proof (floor_times_below r (S i + 1) Hr ltac:(lia)) as Hj.
    assert (Hswap : swap a (S i) (floor_times r (S i + 1)) ≡ₚ a)
      by (apply swap_in_range; lia).
    eapply creates_weaken.
    + apply IH. left. rewrite Hswap. lia.
    + intros a' rows [-> Ha']. split; [done|]. by rewrite Ha'.
Qed.

Lemma returns_shuffle allUsers :
  returns_pure (shuffle seed allUsers)
               (fun a' => exists us, a' = map Some us /\ us ≡ₚ allUsers).
Proof.
  unfold shuffle.
  eapply creates_weaken; [apply returns_shuffle_from; rewrite length_map; lia|].
  intros a' rows [-> Ha']. split; [done|].
  apply Permutation_map_inv in Ha' as (us & -> & Hus). by exists us.
Qed.

Lemma returns_formTeams_from fuel (us : list User.t) i :
  returns_pure (formTeams_from fuel (map Some us) i) (fun _ => True).
Proof.
  revert i; induction fuel as [|fuel IH]; intros i; simpl.
  - by apply creates_ret.
  - case_decide; [|by apply creates_ret].
    eapply creates_bind_pure.
    { apply returns_mapM_prop. unfold slice.
      apply Forall_take, Forall_drop, Forall_fmap, Forall_true. by eexists. }
    intros ids _. eapply creates_bind_pure; [apply IH|].
    intros rest _. by apply creates_ret.
Qed.

Lemma returns_createTeams teamChallenges i teamAssignments :
  teamChallenges ≠ [] ->
  returns_pure (createTeams seed teamChallenges i teamAssignments) (fun _ => True).
Proof.
  intros Hne. revert i.
  induction teamAssignments as [|members rest IH]; intros i; simpl.
  - by apply creates_ret.
  - eapply creates_bind_pure; [apply creates_seededRandomM|]. intros r Hr.
    eapply creates_bind_pure; [apply creates_seededRandomM|]. intros r' Hr'.
    destruct (lookup_lt_is_Some_2 identificationMissions (floor_times r 3))
      as [mission Hmission]; [apply floor_times_below; [done|simpl; lia]|].
    destruct (lookup_lt_is_Some_2 teamChallenges
                (floor_times r' (length teamChallenges)))
      as [tc Htc].
    { apply floor_times_below; [done|]. destruct teamChallenges; simpl; [done|lia]. }
    eapply creates_bind_pure; [by eapply creates_prop|]. intros title _.
    eapply creates_bind_pure; [by eapply creates_prop|]. intros descr _.
    eapply creates_bind_pure; [by eapply creates_prop|]. intros tcid _.
    eapply creates_bind_pure; [apply creates_liftDb_createTeam|]. intros teamRow _.
    eapply creates_bind_pure; [|intros _ _; apply IH].
    apply returns_forOf. intros userId _.
    eapply creates_bind_pure; [apply creates_liftDb_addTeamMember|].
    intros _ _. by apply creates_ret.
Qed.

Variable allUsers : list User.t.

Lemma returns_resolveTarget user challenge :
  (exists u, u ∈ allUsers /\ User.id u ≠ User.id user) ->
  returns_pure (resolveTarget seed allUsers user challenge)
               (target_for allUsers user challenge).
Proof.
  intros (u & Hu & Hne). unfold resolveTarget, target_for.
  destruct (Challenge.needsTarget challenge); [|by apply creates_ret].
  eapply creates_bind_pure; [apply creates_seededRandomM|]. intros r Hr.
  set (possibleTargets := filter (fun u => User.id u ≠ User.id user) allUsers).
  assert (Hlen : 0 < length possibleTargets).
  { assert (u ∈ possibleTargets) as Hin by (by apply list_elem_of_filter).
    destruct possibleTargets; [by apply not_elem_of_nil in Hin|simpl; lia]. }
  destruct (lookup_lt_is_Some_2 possibleTargets
              (floor_times r (length possibleTargets))) as [t Ht];
    [by apply floor_times_below|].
  eapply creates_bind_pure; [by eapply creates_prop|]. intros tid ->.
  apply creates_ret. split; [done|].
  apply list_elem_of_lookup_2, list_elem_of_filter in Ht as [? ?]. eauto.
Qed.

Lemma concat_singletons {A B} (f : A -> B) l blocks :
  Forall2 (fun x b => b = [f x]) l blocks -> concat blocks = map f l.
Proof. induction 1 as [|x b l blocks -> _ IH]; simpl; [done|]. by rewrite IH. Qed.

Lemma Forall2_concat_singletons {A B} (R : A -> B -> Prop) l blocks :
  Forall2 (fun x b => exists y, b = [y] /\ R x y) l blocks ->
  Forall2 R l (concat blocks).
Proof.
  induction 1 as [|x b l blocks (y & -> & HR) _ IH]; simpl; [done|].
  by constructor.
Qed.

Lemma creates_assignEasy easyChallenges user :
  creates (assignEasy seed easyChallenges user)
    (fun _ rows => exists ce, drawn_from easyChallenges ce
                              /\ rows = map (easy_row user) ce).
Proof.
  unfold assignEasy.
  eapply creates_bind_pure; [apply creates_sortSeeded|]. intros sorted Hperm.
  eapply creates_weaken.
  - apply creates_forOf with
      (P := fun c rows => rows = [easy_row user c]).
    intros c _. eapply creates_bind; [apply creates_liftDb_createAssignment|].
    intros _ r1 ->. apply creates_ret. by rewrite app_nil_r.
  - intros _ rows (blocks & -> & Hblocks). exists (slice sorted 0 2).
    split; [by exists sorted|]. by apply concat_singletons.
Qed.

Lemma creates_assignTargeted pool user :
  (exists u, u ∈ allUsers /\ User.id u ≠ User.id user) ->
  creates (assignTargeted seed allUsers pool user)
    (fun _ rows => exists cs, drawn_from pool cs
                              /\ Forall2 (targeted_row allUsers user) cs rows).
Proof.
  intros Hother. unfold assignTargeted.
  eapply creates_bind_pure; [apply creates_sortSeeded|]. intros sorted Hperm.
  eapply creates_weaken.
  - apply creates_forOf with
      (P := fun c rows => exists x, rows = [x] /\ targeted_row allUsers user c x).
    intros c _.
    eapply creates_bind_pure; [by apply returns_resolveTarget|].
    intros target Htarget.
    eapply creates_bind; [apply creates_liftDb_createAssignment|].
    intros _ r1 ->. apply creates_ret. rewrite app_nil_r.
    eexists. split; [done|]. by exists target.
  - intros _ rows (blocks & -> & Hblocks). exists (slice sorted 0 2).
    split; [by exists sorted|]. by apply Forall2_concat_singletons.
Qed.

Hypothesis others : forall user, user ∈ allUsers ->
  exists u, u ∈ allUsers /\ User.id u ≠ User.id user.

Lemma creates_assignChallenges easyChallenges mediumChallenges hardChallenges :
  creates (assignChallenges seed allUsers easyChallenges mediumChallenges
             hardChallenges)
    (fun _ rows => exists blocks, rows = concat blocks
       /\ Forall2 (user_block allUsers easyChallenges mediumChallenges
                     hardChallenges) allUsers blocks).
Proof.
  unfold assignChallenges. apply creates_forOf. intros user Hu.
  eapply creates_bind; [apply creates_assignEasy|].
  intros _ r1 (ce & Hce & ->).
  eapply creates_bind; [apply creates_assignTargeted; auto|].
  intros _ r2 (cm & Hcm & Hrm).
  eapply creates_weaken; [apply creates_assignTargeted; auto|].
  intros _ r3 (ch & Hch & Hrh). exists ce, cm, ch, r2, r3.
  by rewrite app_assoc.
Qed.

Lemma creates_assignFromSeed easyChallenges mediumChallenges hardChallenges
    teamChallenges :
  teamChallenges ≠ [] ->
  creates (assignFromSeed seed allUsers easyChallenges mediumChallenges
             hardChallenges teamChallenges)
    (fun _ rows => exists blocks, rows = concat blocks
       /\ Forall2 (user_block allUsers easyChallenges mediumChallenges
                     hardChallenges) allUsers blocks).
Proof.
  intros Hteam. unfold assignFromSeed.
  eapply creates_bind_pure; [apply returns_shuffle|]. intros a (us & -> & Hus).
  eapply creates_bind_pure; [apply returns_formTeams_from|]. intros tas _.
  eapply creates_bind_pure; [by apply returns_createTeams|]. intros _ _.
  apply creates_assignChallenges.
Qed.

End Creates.

(** ** Counting the rows of a participant *)

Section ListFacts.
Context {A B : Type}.

Lemma filter_all (P : A -> Prop) `{!forall x, Decision (P x)} (l : list A) :
  Forall P l -> filter P l = l.
Proof.
  induction 1 as [|x l Hx _ IH]; [done|].
  by rewrite filter_cons_True, IH.
Qed.

Lemma filter_none (P : A -> Prop) `{!forall x, Decision (P x)} (l : list A) :
  Forall (fun x => ~ P x) l -> filter P l = [].
Proof.
  induction 1 as [|x l Hx _ IH]; [done|].
  by rewrite filter_cons_False.
Qed.

Lemma NoDup_fmap_eq (f : A -> B) (l : list A) x y :
  NoDup (map f l) -> x ∈ l -> y ∈ l -> f x = f y -> x = y.
Proof.
  induction l as [|z l IH]; intros Hnd Hx Hy E.
  - by apply not_elem_of_nil in Hx.
  - simpl in Hnd. apply NoDup_cons in Hnd as [Hz Hnd].
    apply elem_of_cons in Hx as [->|Hx]; apply elem_of_cons in Hy as [->|Hy];
      [done| | |by apply IH].
    + exfalso. apply Hz. rewrite E. by apply list_elem_of_fmap_2.
    + exfalso. apply Hz. rewrite <- E. by apply list_elem_of_fmap_2.
Qed.

Lemma fmap_filter_comm (f : A -> B) (P : B -> Prop) `{!forall y, Decision (P y)}
    (l : list A) :
  map f (filter (fun x => P (f x)) l) = filter P (map f l).
Proof.
  induction l as [|x l IH]; [done|]. simpl.
  rewrite !filter_cons. destruct (decide (P (f x))); simpl; by rewrite IH.
Qed.

End ListFacts.

Section Pools.

Lemma pool_NoDup difficulty d :
  NoDup (map Challenge.id (challenges d)) ->
  NoDup (map Challenge.id (pool difficulty d)).
Proof.
  intros Hnd. eapply sublist_NoDup; [exact Hnd|].
  apply fmap_sublist, sublist_filter.
Qed.

Lemma pools_disjoint d x y :
  NoDup (map Challenge.id (challenges d)) -> x ≠ y ->
  disjoint_ids (pool x d) (pool y d).
Proof.
  intros Hnd Hxy c c' Hc Hc' E.
  apply list_elem_of_filter in Hc as [[Hx _] Hin].
  apply list_elem_of_filter in Hc' as [[Hy _] Hin'].
  pose proof (NoDup_fmap_eq Challenge.id _ c c' Hnd Hin Hin' E). congruence.
Qed.

Lemma disjoint_ids_sym p q : disjoint_ids p q -> disjoint_ids q p.
Proof. intros H c c' Hc Hc' E. by apply (H c' c). Qed.

Lemma drawn_from_length_min p cs :
  drawn_from p cs -> length cs = Nat.min 2 (length p).
Proof.
  intros (sorted & Hp & ->). unfold slice.
  rewrite drop_0, length_take, Hp. lia.
Qed.

Lemma drawn_from_elem p cs : drawn_from p cs -> forall c, c ∈ cs -> c ∈ p.
Proof.
  intros (sorted & Hp & ->) c Hc. rewrite <- Hp. by eapply slice_subseteq.
Qed.

Lemma drawn_from_NoDup p cs :
  drawn_from p cs -> NoDup (map Challenge.id p) ->
  NoDup (map Challenge.id cs).
Proof.
  intros (sorted & Hp & ->) Hnd. unfold slice. rewrite drop_0.
  eapply sublist_NoDup; [|apply fmap_sublist, sublist_take].
  by rewrite Hp.
Qed.

(** A run of rows whose challenges are [cs], taken from the pool [p]: the
    rows pass the filter of [p], and none passes the filter of a pool with
    other keys. *)
Lemma segment_selected p cs (seg : list InsertAssignment.t) :
  (forall c, c ∈ cs -> c ∈ p) ->
  map InsertAssignment.challengeId seg = map Challenge.id cs ->
  filter (fun x => InsertAssignment.challengeId x ∈ map Challenge.id p) seg = seg.
Proof.
  intros Hsub Hids. apply filter_all, Forall_forall. intros x Hx.
  assert (InsertAssignment.challengeId x ∈ map Challenge.id cs) as Hin
    by (rewrite <- Hids; by apply list_elem_of_fmap_2).
  apply list_elem_of_fmap in Hin as (c & -> & Hc).
  by apply list_elem_of_fmap_2, Hsub.
Qed.

Lemma segment_rejected p q cs (seg : list InsertAssignment.t) :
  (forall c, c ∈ cs -> c ∈ p) -> disjoint_ids p q ->
  map InsertAssignment.challengeId seg = map Challenge.id cs ->
  filter (fun x => InsertAssignment.challengeId x ∈ map Challenge.id q) seg = [].
Proof.
  intros Hsub Hdisj Hids. apply filter_none, Forall_forall. intros x Hx Hq.
  assert (InsertAssignment.challengeId x ∈ map Challenge.id cs) as Hin
    by (rewrite <- Hids; by apply list_elem_of_fmap_2).
  apply list_elem_of_fmap in Hin as (c & E & Hc).
  apply list_elem_of_fmap in Hq as (c' & E' & Hc').
  apply (Hdisj c c'); [by apply Hsub|done|congruence].
Qed.

Lemma targeted_rows_challenges allUsers user cs rows :
  Forall2 (targeted_row allUsers user) cs rows ->
  map InsertAssignment.challengeId rows = map Challenge.id cs.
Proof.
  induction 1 as [|c x cs rows (t & _ & ->) _ IH]; [done|]. simpl. by rewrite IH.
Qed.

Lemma targeted_rows_userId allUsers user cs rows :
  Forall2 (targeted_row allUsers user) cs rows ->
  Forall (fun x => InsertAssignment.userId x = User.id user) rows.
Proof.
  induction 1 as [|c x cs rows (t & _ & ->) _ IH]; by constructor.
Qed.

Lemma user_block_userId allUsers e m h user rows :
  user_block allUsers e m h user rows ->
  Forall (fun x => InsertAssignment.userId x = User.id user) rows.
Proof.
  intros (ce & cm & ch & rm & rh & _ & _ & _ & Hm & Hh & ->).
  rewrite !Forall_app. split_and!; eauto using targeted_rows_userId.
  apply Forall_fmap, Forall_true. done.
Qed.

(** In the block of a participant, the rows whose challenge is in one of
    the three pools are two, or as many as the pool holds if it holds
    fewer, with different challenges. *)
Lemma user_block_quota allUsers e m h user rows p :
  user_block allUsers e m h user rows ->
  disjoint_ids e m -> disjoint_ids e h -> disjoint_ids m h ->
  NoDup (map Challenge.id e) -> NoDup (map Challenge.id m) ->
  NoDup (map Challenge.id h) ->
  p ∈ [e; m; h] ->
  let selected :=
    filter (fun x => InsertAssignment.challengeId x ∈ map Challenge.id p) rows in
  length selected = Nat.min 2 (length p)
  /\ NoDup (map InsertAssignment.challengeId selected).
Proof.
  intros (ce & cm & ch & rm & rh & Hce & Hcm & Hch & Hrm & Hrh & ->)
         Dem Deh Dmh Ne Nm Nh Hp selected. subst selected.
  assert (Hse : map InsertAssignment.challengeId (map (easy_row user) ce)
                = map Challenge.id ce)
    by (rewrite <- list_fmap_compose; by apply list_fmap_ext).
  pose proof (targeted_rows_challenges _ _ _ _ Hrm) as Hsm.
  pose proof (targeted_rows_challenges _ _ _ _ Hrh) as Hsh.
  pose proof (drawn_from_elem _ _ Hce) as Ece.
  pose proof (drawn_from_elem _ _ Hcm) as Ecm.
  pose proof (drawn_from_elem _ _ Hch) as Ech.
  rewrite !filter_app.
  apply elem_of_cons in Hp as [->|Hp]; [|apply elem_of_cons in Hp as [->|Hp]];
    [| |apply list_elem_of_singleton in Hp as ->].
  - rewrite (segment_selected e ce), (segment_rejected m e cm),
      (segment_rejected h e ch), !app_nil_r, Hse, length_map
      by eauto using disjoint_ids_sym.
    eauto using drawn_from_length_min, drawn_from_NoDup.
  - rewrite (segment_rejected e m ce), (segment_selected m cm),
      (segment_rejected h m ch), app_nil_l, app_nil_r, Hsm
      by eauto using disjoint_ids_sym.
    rewrite <- (length_map InsertAssignment.challengeId), Hsm, length_map.
    eauto using drawn_from_length_min, drawn_from_NoDup.
  - rewrite (segment_rejected e h ce), (segment_rejected m h cm),
      (segment_selected h ch), !app_nil_l, Hsh
      by eauto using disjoint_ids_sym.
    rewrite <- (length_map InsertAssignment.challengeId), Hsh, length_map.
    eauto using drawn_from_length_min, drawn_from_NoDup.
Qed.

(** Among blocks made for participants with different keys, the rows of
    one participant are those of its block. *)
Lemma blocks_of_user (R : User.t -> list InsertAssignment.t -> Prop)
    (users : list User.t) blocks user :
  (forall u rows, R u rows ->
     Forall (fun x => InsertAssignment.userId x = User.id u) rows) ->
  NoDup (map User.id users) ->
  Forall2 R users blocks ->
  user ∈ users ->
  exists u rows, User.id u = User.id user /\ R u rows
    /\ filter (fun x => InsertAssignment.userId x = User.id user) (concat blocks)
       = rows.
Proof.
  intros Hid Hnd Hall. revert Hnd.
  induction Hall as [|u rows users blocks HR Hall IH]; intros Hnd Hin.
  - by apply not_elem_of_nil in Hin.
  - simpl in Hnd. apply NoDup_cons in Hnd as [Hu Hnd].
    simpl. rewrite filter_app.
    destruct (decide (User.id u = User.id user)) as [E|Hne].
    + exists u, rows. split_and!; [done..|].
      rewrite filter_all by (rewrite <- E; by apply Hid).
      rewrite filter_none; [by rewrite app_nil_r|].
      apply Forall_concat. clear -Hall Hid Hu E.
      induction Hall as [|u' rows' users blocks HR' _ IH']; constructor.
      * eapply Forall_impl; [by apply Hid|]. simpl. intros x -> E'.
        apply Hu. rewrite E, <- E'. left.
      * apply IH'. intros ?. apply Hu. by right.
    + apply elem_of_cons in Hin as [->|Hin]; [done|].
      destruct (IH Hnd Hin) as (u' & rows' & E' & HR' & Hf).
      exists u', rows'. split_and!; [done..|].
      rewrite filter_none; [done|].
      eapply Forall_impl; [by apply Hid|]. simpl. intros x ->. done.
Qed.

End Pools.

(** ** Two runs on the same seed *)

Section InStep.
Context {S : Type}.

Lemma in_step_bind {A B} (Pre : S -> S -> Prop) (m1 m2 : M S A)
    (f1 f2 : A -> M S B) Thrown (Mid : A -> A -> S -> S -> Prop) Post :
  in_step Pre m1 m2 Thrown Mid ->
  (forall a1 a2, in_step (Mid a1 a2) (f1 a1) (f2 a2) Thrown Post) ->
  in_step Pre (bind m1 f1) (bind m2 f2) Thrown Post.
Proof.
  intros Hm Hf s1 s2 Hpre. specialize (Hm s1 s2 Hpre). unfold bind.
  destruct (m1 s1) as [[a1|e1] s1'], (m2 s2) as [[a2|e2] s2']; try done.
  by apply Hf.
Qed.

Lemma in_step_weaken {A} (Pre Pre' : S -> S -> Prop) (m1 m2 : M S A)
    (Thrown Thrown' : S -> S -> Prop) (Post Post' : A -> A -> S -> S -> Prop) :
  in_step Pre m1 m2 Thrown Post ->
  (forall s1 s2, Pre' s1 s2 -> Pre s1 s2) ->
  (forall s1 s2, Thrown s1 s2 -> Thrown' s1 s2) ->
  (forall a1 a2 s1 s2, Post a1 a2 s1 s2 -> Post' a1 a2 s1 s2) ->
  in_step Pre' m1 m2 Thrown' Post'.
Proof.
  intros Hm Hpre Hthrown Hpost s1 s2 H. specialize (Hm s1 s2 (Hpre _ _ H)).
  destruct (m1 s1) as [[a1|e1] s1'], (m2 s2) as [[a2|e2] s2']; auto.
  destruct Hm. auto.
Qed.

Lemma in_step_ret {A} (Pre : S -> S -> Prop) (a1 a2 : A) Thrown
    (Post : A -> A -> S -> S -> Prop) :
  (forall s1 s2, Pre s1 s2 -> Post a1 a2 s1 s2) ->
  in_step Pre (ret a1) (ret a2) Thrown Post.
Proof. intros H s1 s2 Hpre. simpl. auto. Qed.

(** A loop over the same list. *)
Lemma in_step_forOf {A} (Inv Thrown : S -> S -> Prop) (l : list A)
    (body1 body2 : A -> M S unit) :
  (forall x, x ∈ l ->
     in_step Inv (body1 x) (body2 x) Thrown (fun _ _ => Inv)) ->
  in_step Inv (forOf l body1) (forOf l body2) Thrown (fun _ _ => Inv).
Proof.
  induction l as [|x l IH]; intros H; simpl.
  - by apply in_step_ret.
  - eapply in_step_bind; [apply H; left|]. intros [] [].
    apply IH. intros; apply H; by right.
Qed.

End InStep.

Section SeedOnly.
Context `{RT : Runtime}.

Lemma seed_only_ret {A} (a : A) : seed_only (ret a).
Proof. intros i. by exists (Normal a), i. Qed.

Lemma seed_only_throw {A} e : seed_only (@throw Frame A e).
Proof. intros i. by exists (Throw e), i. Qed.

Lemma seed_only_bind {A B} (m : M Frame A) (f : A -> M Frame B) :
  seed_only m -> (forall a, seed_only (f a)) -> seed_only (bind m f).
Proof.
  intros Hm Hf i. destruct (Hm i) as ([a|e] & i' & Em).
  - destruct (Hf a i') as (r & i'' & Ef). exists r, i''.
    intros d. unfold bind. by rewrite Em, Ef.
  - exists (Throw e), i'. intros d. unfold bind. by rewrite Em.
Qed.

Lemma seed_only_prop {A B} (v : option A) (field : A -> B) :
  seed_only (prop v field).
Proof. destruct v; [apply seed_only_ret|apply seed_only_throw]. Qed.

Lemma seed_only_seededRandomM seed : seed_only (seededRandomM seed).
Proof.
  intros i. exists (Normal (seededRandom seed i).1), (seededRandom seed i).2.
  intros d. unfold seededRandomM; simpl. done.
Qed.

Lemma seed_only_sortSeeded seed pool : seed_only (sortSeeded seed pool).
Proof.
  intros i. unfold sortSeeded; simpl.
  match goal with |- context [array_sort ?cmp pool i] =>
    destruct (array_sort cmp pool i) as [sorted i'] end.
  by exists (Normal sorted), i'.
Qed.

Lemma seed_only_mapM {A B} (f : A -> M Frame B) l :
  (forall x, seed_only (f x)) -> seed_only (mapM f l).
Proof.
  intros Hf. induction l as [|x l IH]; simpl; [apply seed_only_ret|].
  apply seed_only_bind; [done|]. intros y.
  apply seed_only_bind; [done|]. intros ys. apply seed_only_ret.
Qed.

Lemma seed_only_shuffle_from seed i a : seed_only (shuffle_from seed i a).
Proof.
  revert a; induction i as [|i IH]; intros a; simpl; [apply seed_only_ret|].
  apply seed_only_bind; [apply seed_only_seededRandomM|]. intros r. apply IH.
Qed.

Lemma seed_only_formTeams_from fuel a i :
  seed_only (formTeams_from fuel a i).
Proof.
  revert i; induction fuel as [|fuel IH]; intros i; simpl; [apply seed_only_ret|].
  case_decide; [|apply seed_only_ret].
  apply seed_only_bind; [apply seed_only_mapM; intros; apply seed_only_prop|].
  intros ids. apply seed_only_bind; [apply IH|]. intros rest. apply seed_only_ret.
Qed.

Lemma seed_only_resolveTarget seed allUsers user challenge :
  seed_only (resolveTarget seed allUsers user challenge).
Proof.
  unfold resolveTarget. destruct (Challenge.needsTarget challenge);
    [|apply seed_only_ret].
  apply seed_only_bind; [apply seed_only_seededRandomM|]. intros r.
  apply seed_only_bind; [apply seed_only_prop|]. intros t. apply seed_only_ret.
Qed.

(** Run from the same [seedIndex], such a computation ends the same way in
    both runs, and leaves the databases as they are. *)
Lemma in_step_seed_only {A} (J : Db -> Db -> Prop) (m : M Frame A) :
  seed_only m ->
  in_step (frames_in_step J) m m (frames_in_step J)
          (fun a1 a2 f1 f2 => a1 = a2 /\ frames_in_step J f1 f2).
Proof.
  intros Hm [d1 i1] [d2 i2] [Hi HJ]; simpl in *. subst i2.
  destruct (Hm i1) as (r & i' & E). rewrite (E d1), (E d2).
  destruct r; by repeat split.
Qed.

End SeedOnly.

Section Keys.
Context `{RT : Runtime}.

Lemma values_createAssignment x d :
  map values (assignments (createAssignment x d).2)
  = map values (assignments d) ++ [x].
Proof. destruct x. simpl. by rewrite map_app. Qed.

Lemma well_keyed_later d d' :
  well_keyed d -> teams d' = teams d -> teamMembers d' = teamMembers d ->
  (uuids d <= uuids d')%N -> well_keyed d'.
Proof.
  intros (Hnd & Hfresh & Hmem) Et Em Hle. unfold well_keyed.
  rewrite Et, Em. split_and!; [done| |done].
  eapply Forall_impl; [exact Hfresh|]. intros t (c & Hc & E).
  exists c. split; [lia|done].
Qed.

Lemma well_keyed_fresh d t :
  well_keyed d -> t ∈ teams d -> Team.id t ≠ gen_random_uuid (uuids d).
Proof.
  intros (_ & Hfresh & _) Ht E. rewrite Forall_forall in Hfresh.
  destruct (Hfresh t Ht) as (c & Hc & E'). rewrite E' in E.
  apply gen_random_uuid_inj in E. lia.
Qed.

(** A new team: the table of teams with their participants gets one more
    entry, with no participant yet. *)
Lemma createTeam_well_keyed x d :
  well_keyed d ->
  let run := createTeam x d in
  exists row, run.1 = Normal row
    /\ well_keyed run.2
    /\ team_compositions run.2 = team_compositions d ++ [(x, [])]
    /\ last (teams run.2) = Some row
    /\ assignments run.2 = assignments d.
Proof.
  intros Hd. pose proof Hd as (Hnd & Hfresh & Hmem). simpl.
  eexists. split; [reflexivity|]. split_and!.
  - unfold well_keyed; simpl. split_and!.
    + rewrite map_app. apply NoDup_app. split_and!; [done| |apply NoDup_singleton].
      intros tid Htid Hnew. apply list_elem_of_singleton in Hnew. simpl in Hnew.
      apply list_elem_of_fmap in Htid as (t & -> & Ht).
      by apply (well_keyed_fresh d t).
    + apply Forall_app. split.
      * eapply Forall_impl; [exact Hfresh|]. intros t (c & Hc & E).
        exists c. split; [lia|done].
      * apply Forall_singleton. exists (uuids d). split; [lia|done].
    + eapply Forall_impl; [exact Hmem|]. intros m Hm. simpl.
      rewrite map_app. apply elem_of_app. by left.
  - unfold team_compositions; simpl. rewrite map_app. f_equal. simpl.
    f_equal. f_equal; [by destruct x|].
    unfold members_of; simpl. rewrite filter_none; [done|].
    eapply Forall_impl; [exact Hmem|]. intros m Hm E. simpl in E.
    apply list_elem_of_fmap in Hm as (t & Et & Ht).
    apply (well_keyed_fresh d t); [done..|congruence].
  - simpl. by rewrite last_snoc.
  - done.
Qed.

Lemma add_member_snoc userId compositions x members :
  add_member userId (compositions ++ [(x, members)])
  = compositions ++ [(x, members ++ [userId])].
Proof. unfold add_member. by rewrite reverse_snoc, reverse_involutive. Qed.

(** A new member of the last team. *)
Lemma addTeamMember_well_keyed t userId d :
  well_keyed d -> last (teams d) = Some t ->
  let run := addTeamMember (Team.id t) userId d in
  well_keyed run.2
  /\ team_compositions run.2 = add_member userId (team_compositions d)
  /\ last (teams run.2) = Some t
  /\ assignments run.2 = assignments d
  /\ exists row, run.1 = Normal row.
Proof.
  intros (Hnd & Hfresh & Hmem) Hlast. simpl.
  apply last_Some in Hlast as (ts & Ets). split_and!.
  - unfold well_keyed; simpl. split_and!; [done| |].
    + eapply Forall_impl; [exact Hfresh|]. intros t' (c & Hc & E).
      exists c. split; [lia|done].
    + apply Forall_app. split; [done|]. apply Forall_singleton. simpl.
      apply list_elem_of_fmap_2. rewrite Ets. apply elem_of_app. right. left.
  - unfold team_compositions; simpl. rewrite Ets, !map_app. simpl.
    rewrite add_member_snoc. f_equal.
    + apply map_ext_in. intros t' Ht'. f_equal.
      unfold members_of; simpl. rewrite filter_app, map_app.
      rewrite (filter_none _ [_]), app_nil_r; [done|].
      apply Forall_singleton. simpl. intros E.
      rewrite Ets, map_app in Hnd. apply NoDup_app in Hnd as (_ & Hdisj & _).
      apply (Hdisj (Team.id t')).
      * apply list_elem_of_fmap_2. by apply list_elem_of_In.
      * rewrite <- E. left.
    + f_equal. f_equal. unfold members_of; simpl.
      rewrite filter_app, map_app. f_equal.
      by rewrite filter_cons_True.
  - simpl. rewrite Ets. by rewrite last_snoc.
  - done.
  - by eexists.
Qed.

Lemma createAssignment_well_keyed x d :
  well_keyed d ->
  let run := createAssignment x d in
  well_keyed run.2
  /\ team_compositions run.2 = team_compositions d
  /\ teams run.2 = teams d
  /\ map values (assignments run.2) = map values (assignments d) ++ [x]
  /\ exists row, run.1 = Normal row.
Proof.
  intros Hd. split_and!.
  - eapply well_keyed_later; [exact Hd|done..|simpl; lia].
  - done.
  - done.
  - apply values_createAssignment.
  - by eexists.
Qed.

End Keys.

Section TwoRuns.
Context `{RT : Runtime}.

Lemma in_step_bind_seed_only {A B} (J : Db -> Db -> Prop) (m : M Frame A)
    (f1 f2 : A -> M Frame B) Thrown Post :
  seed_only m ->
  (forall s1 s2, frames_in_step J s1 s2 -> Thrown s1 s2) ->
  (forall a, in_step (frames_in_step J) (f1 a) (f2 a) Thrown Post) ->
  in_step (frames_in_step J) (bind m f1) (bind m f2) Thrown Post.
Proof.
  intros Hm HT Hf. eapply in_step_bind.
  - eapply in_step_weaken; [by apply in_step_seed_only|done|exact HT|].
    intros a1 a2 s1 s2 H. exact H.
  - intros a1 a2 s1 s2 [-> H]. by apply Hf.
Qed.

Lemma in_step_createTeam x :
  in_step (frames_in_step same_generation) (liftDb (createTeam x)) (liftDb (createTeam x))
          (frames_in_step same_generation)
          (fun t1 t2 => frames_in_step (same_generation_at t1 t2)).
Proof.
  intros [d1 i1] [d2 i2] [Hi (W1 & W2 & Ec & Ea)]. cbn [store seedIndex] in *.
  pose proof (createTeam_well_keyed x d1 W1) as (t1 & E1 & W1' & C1 & L1 & A1).
  pose proof (createTeam_well_keyed x d2 W2) as (t2 & E2 & W2' & C2 & L2 & A2).
  unfold liftDb; cbn [store seedIndex].
  destruct (createTeam x d1) as [r1 d1'], (createTeam x d2) as [r2 d2'].
  cbn [fst snd] in *. subst r1 r2.
  split; [done|]. cbn [store].
  unfold same_generation_at, same_generation. split_and!; [done..| | |done|done].
  - by rewrite C1, C2, Ec.
  - by rewrite A1, A2.
Qed.

Lemma in_step_addTeamMember t1 t2 userId :
  in_step (frames_in_step (same_generation_at t1 t2))
          (liftDb (addTeamMember (Team.id t1) userId) >> ret tt)
          (liftDb (addTeamMember (Team.id t2) userId) >> ret tt)
          (frames_in_step same_generation)
          (fun _ _ => frames_in_step (same_generation_at t1 t2)).
Proof.
  intros [d1 i1] [d2 i2] [Hi ((W1 & W2 & Ec & Ea) & L1 & L2)].
  cbn [store seedIndex] in *.
  pose proof (addTeamMember_well_keyed t1 userId d1 W1 L1)
    as (W1' & C1 & L1' & A1 & row1 & E1).
  pose proof (addTeamMember_well_keyed t2 userId d2 W2 L2)
    as (W2' & C2 & L2' & A2 & row2 & E2).
  unfold bind, liftDb; cbn [store seedIndex].
  destruct (addTeamMember (Team.id t1) userId d1) as [r1 d1'],
           (addTeamMember (Team.id t2) userId d2) as [r2 d2'].
  cbn [fst snd] in *. subst r1 r2. cbn [ret].
  split; [done|]. cbn [store].
  unfold same_generation_at, same_generation. split_and!; [done..| | |done|done].
  - by rewrite C1, C2, Ec.
  - by rewrite A1, A2.
Qed.

Lemma in_step_createAssignment x :
  in_step (frames_in_step same_generation)
          (liftDb (createAssignment x) >> ret tt)
          (liftDb (createAssignment x) >> ret tt)
          (frames_in_step same_generation) (fun _ _ => frames_in_step same_generation).
Proof.
  intros [d1 i1] [d2 i2] [Hi (W1 & W2 & Ec & Ea)]. cbn [store seedIndex] in *.
  pose proof (createAssignment_well_keyed x d1 W1) as (W1' & C1 & _ & A1 & row1 & E1).
  pose proof (createAssignment_well_keyed x d2 W2) as (W2' & C2 & _ & A2 & row2 & E2).
  unfold bind, liftDb; cbn [store seedIndex].
  destruct (createAssignment x d1) as [r1 d1'],
           (createAssignment x d2) as [r2 d2'].
  cbn [fst snd] in *. subst r1 r2. cbn [ret].
  split; [done|]. cbn [store].
  unfold same_generation. split_and!; [done..| |].
  - by rewrite C1, C2, Ec.
  - by rewrite A1, A2, Ea.
Qed.

Lemma in_step_createTeams seed teamChallenges i teamAssignments :
  in_step (frames_in_step same_generation)
          (createTeams seed teamChallenges i teamAssignments)
          (createTeams seed teamChallenges i teamAssignments)
          (frames_in_step same_generation) (fun _ _ => frames_in_step same_generation).
Proof.
  revert i; induction teamAssignments as [|members rest IH]; intros i;
    cbn [createTeams].
  - by apply in_step_ret.
  - apply in_step_bind_seed_only; [apply seed_only_seededRandomM|done|]. intros r.
    apply in_step_bind_seed_only; [apply seed_only_seededRandomM|done|]. intros r'.
    apply in_step_bind_seed_only; [apply seed_only_prop|done|]. intros title.
    apply in_step_bind_seed_only; [apply seed_only_prop|done|]. intros descr.
    apply in_step_bind_seed_only; [apply seed_only_prop|done|]. intros tcid.
    eapply in_step_bind; [apply in_step_createTeam|]. intros t1 t2.
    eapply in_step_bind.
    + apply in_step_forOf. intros userId _. apply in_step_addTeamMember.
    + intros [] []. eapply in_step_weaken; [apply IH| |done|done].
      intros s1 s2 [Hi [H _]]. by split.
Qed.

Lemma in_step_assignEasy seed easyChallenges user :
  in_step (frames_in_step same_generation)
          (assignEasy seed easyChallenges user)
          (assignEasy seed easyChallenges user)
          (frames_in_step same_generation) (fun _ _ => frames_in_step same_generation).
Proof.
  unfold assignEasy.
  apply in_step_bind_seed_only; [apply seed_only_sortSeeded|done|]. intros sorted.
  apply in_step_forOf. intros c _. apply in_step_createAssignment.
Qed.

Lemma in_step_assignTargeted seed allUsers pool user :
  in_step (frames_in_step same_generation)
          (assignTargeted seed allUsers pool user)
          (assignTargeted seed allUsers pool user)
          (frames_in_step same_generation) (fun _ _ => frames_in_step same_generation).
Proof.
  unfold assignTargeted.
  apply in_step_bind_seed_only; [apply seed_only_sortSeeded|done|]. intros sorted.
  apply in_step_forOf. intros c _.
  apply in_step_bind_seed_only; [apply seed_only_resolveTarget|done|].
  intros target. apply in_step_createAssignment.
Qed.

Lemma in_step_assignFromSeed seed allUsers easyChallenges mediumChallenges
    hardChallenges teamChallenges :
  in_step (frames_in_step same_generation)
    (assignFromSeed seed allUsers easyChallenges mediumChallenges
       hardChallenges teamChallenges)
    (assignFromSeed seed allUsers easyChallenges mediumChallenges
       hardChallenges teamChallenges)
    (frames_in_step same_generation) (fun _ _ => frames_in_step same_generation).
Proof.
  unfold assignFromSeed, shuffle, formTeams.
  apply in_step_bind_seed_only; [apply seed_only_shuffle_from|done|]. intros a.
  apply in_step_bind_seed_only; [apply seed_only_formTeams_from|done|]. intros tas.
  eapply in_step_bind; [apply in_step_createTeams|]. intros [] [].
  unfold assignChallenges. apply in_step_forOf. intros user _.
  eapply in_step_bind; [apply in_step_assignEasy|]. intros [] [].
  eapply in_step_bind; [apply in_step_assignTargeted|]. intros [] [].
  apply in_step_assignTargeted.
Qed.

Lemma same_generation_prepared entropy adminId1 adminId2 d1 d2 :
  same_generation (prepared entropy adminId1 d1) (prepared entropy adminId2 d2).
Proof.
  assert (forall adminId d, well_keyed (prepared entropy adminId d)) as H.
  { intros. unfold well_keyed; simpl. split_and!; constructor. }
  by split_and!.
Qed.

End TwoRuns.

(** ** The teams formed of an array without holes *)

Section FormTeams.
Context {S : Type}.

Lemma mapM_prop_Some {A B} (field : A -> B) (l : list A) (s : S) :
  mapM (fun v => prop v field) (map Some l) s = (Normal (map field l), s).
Proof.
  induction l as [|x l IH]; [done|]. cbn [map mapM prop].
  unfold bind at 1; cbn [ret]. unfold bind at 1. by rewrite IH.
Qed.

Lemma chunks3_unfold {A} (l : list A) :
  l ≠ [] -> chunks3 l = take 3 l :: chunks3 (drop 3 l).
Proof. by destruct l as [|a [|b [|c rest]]]. Qed.

(** With fuel for the iterations left, the loop returns the groups of three
    of the participants from index [i] on; more fuel changes nothing. *)
Lemma formTeams_from_chunks fuel (us : list User.t) i (s : S) :
  length us <= i + fuel ->
  formTeams_from fuel (map Some us) i s
  = (Normal (chunks3 (map User.id (drop i us))), s).
Proof.
  revert i; induction fuel as [|fuel IH]; intros i Hfuel; cbn [formTeams_from].
  - by rewrite drop_ge by lia.
  - rewrite length_map. case_decide as Hi; [|by rewrite drop_ge by lia].
    unfold slice. rewrite (Nat.add_comm i), Nat.add_sub.
    rewrite <- fmap_drop, <- fmap_take.
    unfold bind at 1. rewrite mapM_prop_Some.
    unfold bind at 1. rewrite IH by lia. cbn [ret].
    rewrite (chunks3_unfold (map User.id (drop i us))).
    + rewrite <- fmap_take, <- fmap_drop, drop_drop. do 3 f_equal.
      destruct (decide (3 <= length us - i)); [by rewrite Nat.min_l by lia|].
      rewrite Nat.min_r by lia.
      rewrite !take_ge; [done|rewrite length_drop; lia..].
    + intros E. apply (f_equal length) in E.
      rewrite length_map, length_drop in E. simpl in E. lia.
Qed.

Lemma formTeams_chunks (us : list User.t) (s : S) :
  formTeams (map Some us) s = (Normal (chunks3 (map User.id us)), s).
Proof.
  unfold formTeams. rewrite formTeams_from_chunks by (rewrite length_map; lia).
  by rewrite drop_0.
Qed.

End FormTeams.

Section Chunks.
Context {A : Type}.
Implicit Types l : list A.

(** Induction three elements at a time. *)
Lemma chunks3_ind (P : list A -> Prop) :
  P [] -> (forall a, P [a]) -> (forall a b, P [a; b]) ->
  (forall a b c l, P l -> P (a :: b :: c :: l)) ->
  forall l, P l.
Proof.
  intros H0 H1 H2 H3.
  assert (forall n l, length l <= n -> P l) as H.
  { induction n as [|n IH]; intros [|a [|b [|c l]]] Hl; simpl in *;
      auto; try lia.
    apply H3, IH. lia. }
  intros l. by apply (H (length l)).
Qed.

Lemma chunks3_concat l : concat (chunks3 l) = l.
Proof.
  induction l as [| | |a b c l IH] using chunks3_ind; simpl; [done..|].
  by rewrite IH.
Qed.

(** The number of teams is the number of participants over 3, rounded up. *)
Lemma chunks3_length l : length (chunks3 l) = (length l + 2) / 3.
Proof.
  induction l as [| | |a b c l IH] using chunks3_ind; [done..|].
  cbn [chunks3 length]. rewrite IH.
  replace (S (S (S (length l))) + 2) with (1 * 3 + (length l + 2)) by lia.
  rewrite Nat.div_add_l by lia. lia.
Qed.

Lemma chunks3_sizes l : Forall (fun team => 1 <= length team <= 3) (chunks3 l).
Proof.
  induction l as [| | |a b c l IH] using chunks3_ind; simpl;
    repeat constructor; simpl; try lia. done.
Qed.

(** A number of participants that is 1 more than a multiple of 3 leaves a
    last team of one. *)
Lemma chunks3_last_of_one l :
  length l mod 3 = 1 -> exists teams x, chunks3 l = teams ++ [[x]].
Proof.
  induction l as [|a|a b|a b c l IH] using chunks3_ind; intros Hl.
  - done.
  - by exists [], a.
  - done.
  - cbn [length] in Hl.
    replace (S (S (S (length l)))) with (length l + 1 * 3) in Hl by lia.
    rewrite Nat.Div0.mod_add in Hl.
    destruct (IH Hl) as (teams & x & E).
    exists ([a; b; c] :: teams), x. simpl. by rewrite E.
Qed.

End Chunks.

(** ** A first value of 1 *)

Section Hole.
Context `{RT : Runtime}.

Lemma mapM_prop_hole {S A B} (field : A -> B) (l : list (option A)) (s : S) :
  None ∈ l -> mapM (fun v => prop v field) l s = (Throw TypeError, s).
Proof.
  induction l as [|[a|] l IH]; intros Hin.
  - by apply not_elem_of_nil in Hin.
  - apply elem_of_cons in Hin as [|Hin]; [done|].
    cbn [mapM prop]. unfold bind at 1; cbn [ret]. unfold bind at 1.
    by rewrite IH.
  - done.
Qed.

Lemma mapM_prop_cases {S A B} (field : A -> B) (l : list (option A)) (s : S) :
  (exists ys, mapM (fun v => prop v field) l s = (Normal ys, s))
  \/ mapM (fun v => prop v field) l s = (Throw TypeError, s).
Proof.
  induction l as [|[a|] l IH].
  - left. by eexists.
  - cbn [mapM prop]. unfold bind; cbn [ret].
    destruct IH as [(ys & E)|E]; rewrite E; [left; by eexists|by right].
  - right. reflexivity.
Qed.

(** An array with a hole at or after index [i] makes the loop throw. *)
Lemma formTeams_from_hole {S} fuel (a : list (option User.t)) i k (s : S) :
  i <= k -> a !! k = Some None -> length a <= i + fuel ->
  formTeams_from fuel a i s = (Throw TypeError, s).
Proof.
  revert i; induction fuel as [|fuel IH]; intros i Hik Hk Hfuel;
    pose proof (lookup_lt_Some _ _ _ Hk) as Hlen; [lia|].
  cbn [formTeams_from]. rewrite decide_True by lia.
  unfold slice. rewrite (Nat.add_comm i), Nat.add_sub.
  destruct (decide (k < i + Nat.min 3 (length a - i))) as [Hin|Hout].
  - unfold bind at 1. rewrite mapM_prop_hole; [done|].
    apply list_elem_of_lookup. exists (k - i).
    rewrite lookup_take_lt by lia. rewrite lookup_drop.
    by replace (i + (k - i)) with k by lia.
  - unfold bind at 1.
    destruct (mapM_prop_cases User.id
                (take (Nat.min 3 (length a - i)) (drop i a)) s)
      as [(ids & E)|E]; rewrite E; [|done].
    unfold bind at 1. by rewrite (IH (i + 3) ltac:(lia) Hk ltac:(lia)).
Qed.

(** Every value of the stream gives an index of at most [n]. *)
Lemma floor_times_le seed seedIndex n :
  0 < n -> floor_times (seededRandom_value seed seedIndex) n <= n.
Proof.
  intros Hn. unfold seededRandom_value, seededRandom; cbn [fst].
  pose proof (parseInt16_window seed (seedIndex mod String.length seed))
    as [H0 H1].
  set (w := parseInt16 _) in *.
  destruct (decide (w = 4294967295%Z)) as [->|Hne].
  - by rewrite floor_times_max.
  - apply Nat.lt_le_incl, floor_times_lt; [lia|done].
Qed.

(** Once the array has grown, the later swaps stay inside it: the hole
    stays. *)
Lemma shuffle_from_hole seed i (a : list (option User.t)) fr :
  S i < length a -> None ∈ a ->
  exists a' fr', shuffle_from seed i a fr = (Normal a', fr')
    /\ None ∈ a' /\ store fr' = store fr.
Proof.
  revert a fr; induction i as [|i IH]; intros a fr Hi Hin; cbn [shuffle_from].
  - by exists a, fr.
  - unfold bind, seededRandomM.
    pose proof (floor_times_le seed (seedIndex fr) (S i + 1) ltac:(lia)) as Hj.
    unfold seededRandom_value in Hj.
    destruct (seededRandom seed (seedIndex fr)) as [r idx]; cbn [fst] in Hj.
    assert (Hswap : swap a (S i) (floor_times r (S i + 1)) ≡ₚ a)
      by (apply swap_in_range; lia).
    destruct (IH (swap a (S i) (floor_times r (S i + 1)))
                 (mkFrame (store fr) idx)) as (a' & fr' & E & Ha' & Hst).
    + rewrite Hswap. lia.
    + by rewrite Hswap.
    + exists a', fr'. by rewrite E.
Qed.

(** With the first window [ffffffff] and at least two participants, the
    first swap of the shuffle writes past the end of the array, which gets
    a hole; the loop that forms the teams throws on it. *)
Lemma assignFromSeed_first_value_one seed (allUsers : list User.t)
    easyChallenges mediumChallenges hardChallenges teamChallenges d :
  parseInt16 (substring 0 8 seed) = 4294967295%Z ->
  2 <= length allUsers ->
  exists fr',
    assignFromSeed seed allUsers easyChallenges mediumChallenges hardChallenges
      teamChallenges (mkFrame d 0) = (Throw TypeError, fr')
    /\ store fr' = d.
Proof.
  intros Hw Hlen. unfold assignFromSeed, shuffle.
  rewrite length_map.
  destruct (length allUsers) as [|[|n]] eqn:El; [lia..|].
  replace (S (S n) - 1) with (S n) by lia. cbn [shuffle_from].
  unfold bind at 1 2, seededRandomM; cbn [store seedIndex].
  unfold seededRandom. rewrite Nat.Div0.mod_0_l, Hw, floor_times_max.
  set (a := swap (map Some allUsers) (S n) (S n + 1)).
  assert (Ha : None ∈ a /\ length a = S (S (S n))).
  { subst a. unfold swap, elem_set, elem_get.
    rewrite (lookup_ge_None_2 (map Some allUsers) (S n + 1))
      by (rewrite length_map; lia).
    cbn [mjoin option_join].
    rewrite (decide_True (P := S n < length (map Some allUsers)))
      by (rewrite length_map; lia).
    rewrite (decide_False
               (P := S n + 1 < length (<[S n:=None]> (map Some allUsers))))
      by (rewrite length_insert, length_map; lia).
    split.
    - apply elem_of_app. left. apply list_elem_of_lookup. exists (S n).
      apply list_lookup_insert_eq. rewrite length_map. lia.
    - rewrite !length_app, length_insert, length_replicate, length_map. simpl. lia. }
  destruct Ha as [Hhole Hla].
  destruct (shuffle_from_hole seed n a (mkFrame d (0 + 8)) ltac:(lia) Hhole)
    as (a' & fr1 & -> & Hhole' & Hst).
  apply list_elem_of_lookup in Hhole' as (k & Hk).
  cbv beta iota. unfold bind at 1, formTeams.
  rewrite (formTeams_from_hole (length a') a' 0 k fr1) by (done || lia).
  by exists fr1.
Qed.

End Hole.

(** ** The teams a returning call creates *)

Section Teams.
Context `{RT : Runtime}.

Lemma fold_add_member compositions x members more :
  fold_left (fun c u => add_member u c) more (compositions ++ [(x, members)])
  = compositions ++ [(x, members ++ more)].
Proof.
  revert members; induction more as [|u more IH]; intros members; simpl.
  - by rewrite app_nil_r.
  - by rewrite add_member_snoc, IH, <- app_assoc.
Qed.

(** The loop over the members of the team just created. *)
Lemma forOf_addTeamMember t members fr :
  well_keyed (store fr) -> last (teams (store fr)) = Some t ->
  exists fr',
    forOf members
      (fun userId => liftDb (addTeamMember (Team.id t) userId) >> ret tt) fr
    = (Normal tt, fr')
    /\ well_keyed (store fr')
    /\ last (teams (store fr')) = Some t
    /\ team_compositions (store fr')
       = fold_left (fun c u => add_member u c) members
                   (team_compositions (store fr))
    /\ seedIndex fr' = seedIndex fr.
Proof.
  revert fr; induction members as [|u members IH]; intros fr W L.
  - by exists fr.
  - pose proof (addTeamMember_well_keyed t u (store fr) W L)
      as (W' & C' & L' & _ & row & E).
    cbn [forOf]. unfold bind at 1 2, liftDb at 1.
    destruct (addTeamMember (Team.id t) u (store fr)) as [r d'].
    cbn [fst snd] in *. subst r. cbn [ret].
    destruct (IH (mkFrame d' (seedIndex fr)) W' L')
      as (fr' & -> & W'' & L'' & C'' & Hi).
    exists fr'. split_and!; [done..| |done].
    cbn [store] in C''. by rewrite C'', C'.
Qed.

Variable seed : string.
Hypothesis seed_below_one : stream_below_one seed.

Lemma seededRandomM_below_one fr :
  exists r, seededRandomM seed fr
            = (Normal r, mkFrame (store fr) (seedIndex fr + 8))
            /\ stream_value_below_one r.
Proof.
  destruct (creates_seededRandomM seed seed_below_one fr)
    as (r & fr' & rows & E & _ & _ & Hr).
  exists r. split; [|done]. unfold seededRandomM in *. simpl in *.
  by injection E as -> <-.
Qed.

(** Each group of [teamAssignments] becomes a team with the members of the
    group, in their order, and a challenge of the team pool. *)
Lemma createTeams_builds teamChallenges i teamAssignments fr :
  teamChallenges ≠ [] -> well_keyed (store fr) ->
  exists fr' news,
    createTeams seed teamChallenges i teamAssignments fr = (Normal tt, fr')
    /\ well_keyed (store fr')
    /\ team_compositions (store fr') = team_compositions (store fr) ++ news
    /\ map snd news = teamAssignments
    /\ Forall (fun n => exists c, c ∈ teamChallenges
                 /\ InsertTeam.teamChallengeId n.1 = Some (Challenge.id c)) news.
Proof.
  intros Hne. revert i fr.
  induction teamAssignments as [|members rest IH]; intros i fr W.
  - exists fr, []. by rewrite app_nil_r.
  - cbn [createTeams].
    destruct (seededRandomM_below_one fr) as (r & Er & Hr).
    unfold bind at 1. rewrite Er.
    destruct (seededRandomM_below_one (mkFrame (store fr) (seedIndex fr + 8)))
      as (r' & Er' & Hr').
    unfold bind at 1. rewrite Er'. cbn [store seedIndex].
    destruct (lookup_lt_is_Some_2 identificationMissions
                (floor_times r (length identificationMissions)))
      as [mission Hmission]; [apply floor_times_below; [done|simpl; lia]|].
    destruct (lookup_lt_is_Some_2 teamChallenges
                (floor_times r' (length teamChallenges))) as [tc Htc].
    { apply floor_times_below; [done|].
      destruct teamChallenges; simpl; [done|lia]. }
    unfold array_get. rewrite Hmission, Htc. cbn [prop].
    unfold bind at 1; cbn [ret]. unfold bind at 1; cbn [ret].
    unfold bind at 1; cbn [ret].
    set (x := InsertTeam.mk _ _ _ _).
    pose proof (createTeam_well_keyed x (store (mkFrame (store fr) (seedIndex fr + 8 + 8))) W)
      as (t & Et & Wt & Ct & Lt & _).
    unfold bind at 1, liftDb at 1. cbn [store seedIndex] in *.
    destruct (createTeam x (store fr)) as [rt dt]. cbn [fst snd] in *. subst rt.
    destruct (forOf_addTeamMember t members (mkFrame dt (seedIndex fr + 8 + 8))
                Wt Lt) as (fr1 & E1 & W1 & L1 & C1 & _).
    unfold bind at 1. rewrite E1.
    destruct (IH (S i) fr1 W1) as (fr' & news & E' & W' & C' & Hsnd & Htc').
    rewrite E'. exists fr', ((x, members) :: news).
    split_and!; [done..| | |].
    + rewrite C', C1. cbn [store]. rewrite Ct, fold_add_member.
      by rewrite <- app_assoc.
    + simpl. by rewrite Hsnd.
    + constructor; [|done]. exists tc. split; [|done].
      by eapply list_elem_of_lookup_2.
Qed.

Lemma shuffle_permutes allUsers fr :
  exists us fr',
    shuffle seed allUsers fr = (Normal (map Some us), fr')
    /\ us ≡ₚ allUsers /\ store fr' = store fr.
Proof.
  destruct (returns_shuffle seed seed_below_one allUsers fr)
    as (a & fr' & rows & E & _ & _ & us & -> & Hus).
  exists us, fr'. split_and!; [done..|].
  pose proof (stable_shuffle_from (fun d => d = store fr) seed
                (length (map Some allUsers) - 1) (map Some allUsers) fr eq_refl)
    as [Hst _].
  unfold shuffle in E. by rewrite E in Hst.
Qed.

(** The teams of a returning run: the groups of three of the shuffled
    participants. *)
Lemma assignFromSeed_teams allUsers easyChallenges mediumChallenges
    hardChallenges teamChallenges fr :
  teamChallenges ≠ [] ->
  (forall user, user ∈ allUsers ->
     exists u, u ∈ allUsers /\ User.id u ≠ User.id user) ->
  well_keyed (store fr) ->
  exists us fr' news,
    assignFromSeed seed allUsers easyChallenges mediumChallenges hardChallenges
      teamChallenges fr = (Normal tt, fr')
    /\ us ≡ₚ allUsers
    /\ team_compositions (store fr') = team_compositions (store fr) ++ news
    /\ map snd news = chunks3 (map User.id us)
    /\ Forall (fun n => exists c, c ∈ teamChallenges
                  /\ InsertTeam.teamChallengeId n.1 = Some (Challenge.id c)) news.
Proof.
  intros Hteam Hothers W. unfold assignFromSeed.
  destruct (shuffle_permutes allUsers fr) as (us & fr1 & E1 & Hus & Hst1).
  unfold bind at 1. rewrite E1.
  unfold bind at 1. rewrite formTeams_chunks.
  destruct (createTeams_builds teamChallenges 0 (chunks3 (map User.id us)) fr1
              Hteam ltac:(by rewrite Hst1))
    as (fr2 & news & E2 & W2 & C2 & Hsnd & Htc).
  unfold bind at 1. rewrite E2.
  destruct (creates_assignChallenges seed seed_below_one allUsers Hothers
              easyChallenges mediumChallenges hardChallenges fr2)
    as ([] & fr3 & rows & E3 & _).
  pose proof (stable_assignChallenges
                (fun d => team_compositions d = team_compositions (store fr2))
                allUsers easyChallenges mediumChallenges hardChallenges
                ltac:(by intros x _ d Hd) seed fr2 eq_refl) as [C3 _].
  rewrite E3 in C3 |- *. cbn [fst snd] in C3.
  exists us, fr3, news. split_and!; [done..| |done|done].
  by rewrite C3, C2, Hst1.
Qed.

End Teams.

(** ** What a returning run has created *)

Section Returning.
Context {S : Type}.

Lemma bind_returns {A B} (m : M S A) (f : A -> M S B) s b s' :
  bind m f s = (Normal b, s') ->
  exists a s1, m s = (Normal a, s1) /\ f a s1 = (Normal b, s').
Proof. unfold bind. destruct (m s) as [[a|e] s1]; [eauto|done]. Qed.

Lemma never_returns_bind {A B} (m : M S A) (f : A -> M S B) (Q : A -> Prop) :
  spec (fun _ => True) m Q ->
  (forall a, Q a -> never_returns (f a)) ->
  never_returns (bind m f).
Proof.
  intros Hm Hf s b s' E. apply bind_returns in E as (a & s1 & Em & Ef).
  destruct (Hm s I) as [_ HQ]. eapply Hf; [|exact Ef].
  apply HQ. by rewrite Em.
Qed.

End Returning.

Section Yields.
Context `{RT : Runtime}.

Lemma yields_creates {A} (m : M Frame A) P : creates m P -> yields m P.
Proof.
  intros Hm fr a fr' E. destruct (Hm fr) as (a0 & fr0 & rows & E0 & Hrows & HP).
  rewrite E0 in E. injection E as <- <-. by exists rows.
Qed.

Lemma yields_ret {A} (a : A) (P : A -> list InsertAssignment.t -> Prop) :
  P a [] -> yields (ret a) P.
Proof. intros. by apply yields_creates, creates_ret. Qed.

Lemma yields_weaken {A} (m : M Frame A) (P Q : A -> list InsertAssignment.t -> Prop) :
  yields m P -> (forall a rows, P a rows -> Q a rows) -> yields m Q.
Proof.
  intros Hm HPQ fr a fr' E. destruct (Hm fr a fr' E) as (rows & ? & ?).
  exists rows. auto.
Qed.

Lemma yields_bind {A B} (m : M Frame A) (f : A -> M Frame B)
    (P : A -> list InsertAssignment.t -> Prop)
    (Q : B -> list InsertAssignment.t -> Prop) :
  yields m P ->
  (forall a r1, P a r1 -> yields (f a) (fun b r2 => Q b (r1 ++ r2))) ->
  yields (bind m f) Q.
Proof.
  intros Hm Hf fr b fr2 E. apply bind_returns in E as (a & fr1 & Em & Ef).
  destruct (Hm fr a fr1 Em) as (r1 & E1 & HP).
  destruct (Hf a r1 HP fr1 b fr2 Ef) as (r2 & E2 & HQ).
  exists (r1 ++ r2). split; [|done]. by rewrite E2, E1, app_assoc.
Qed.

(** A step that creates no assignment, followed by the rest. *)
Lemma yields_bind_pure {A B} (m : M Frame A) (f : A -> M Frame B)
    (P : A -> Prop) (Q : B -> list InsertAssignment.t -> Prop) :
  yields m (fun a rows => rows = [] /\ P a) ->
  (forall a, P a -> yields (f a) Q) ->
  yields (bind m f) Q.
Proof.
  intros Hm Hf. eapply yields_bind; [exact Hm|].
  intros a r1 [E HP]. subst r1. simpl. by apply Hf.
Qed.

Lemma yields_forOf {A} (l : list A) (body : A -> M Frame unit)
    (P : A -> list InsertAssignment.t -> Prop) :
  (forall x, x ∈ l -> yields (body x) (fun _ rows => P x rows)) ->
  yields (forOf l body)
         (fun _ rows => exists blocks, rows = concat blocks /\ Forall2 P l blocks).
Proof.
  induction l as [|x l IH]; intros H; simpl.
  - apply yields_ret. exists []. by split; [|constructor].
  - eapply yields_bind; [apply H; left|]. intros [] r1 HP.
    eapply yields_weaken; [apply IH; intros; apply H; by right|].
    intros [] r2 (blocks & -> & Hall). exists (r1 :: blocks).
    split; [done|by constructor].
Qed.

(** A step that keeps the table of assignments, whatever it holds, creates
    none. *)
Lemma yields_spec {A} (m : M Frame A) (Q : A -> Prop) :
  (forall rows0,
     spec (fun fr => map values (assignments (store fr)) = rows0) m Q) ->
  yields m (fun a rows => rows = [] /\ Q a).
Proof.
  intros Hm fr a fr' E.
  destruct (Hm (map values (assignments (store fr))) fr eq_refl) as [Hst HQ].
  rewrite E in Hst, HQ. simpl in *. exists []. rewrite app_nil_r. auto.
Qed.

Lemma createTeam_keeps_assignments rows0 x :
  stable (fun d => map values (assignments d) = rows0) (createTeam x).
Proof. intros d Hd. by split. Qed.

Lemma addTeamMember_keeps_assignments rows0 t u :
  stable (fun d => map values (assignments d) = rows0) (addTeamMember t u).
Proof. intros d Hd. by split. Qed.

Variable seed : string.
Variable allUsers : list User.t.

Lemma yields_resolveTarget user challenge :
  yields (resolveTarget seed allUsers user challenge)
         (fun target rows => rows = [] /\ target_for allUsers user challenge target).
Proof. apply yields_spec. intros rows0. apply (spec_resolveTarget (fun d => map values (assignments d) = rows0)). Qed.

Lemma yields_assignTargeted pool user :
  yields (assignTargeted seed allUsers pool user)
    (fun _ rows => exists cs, drawn_from pool cs
                              /\ Forall2 (targeted_row allUsers user) cs rows).
Proof.
  unfold assignTargeted.
  eapply yields_bind_pure; [apply yields_creates, creates_sortSeeded|].
  intros sorted Hperm.
  eapply yields_weaken.
  - apply yields_forOf with
      (P := fun c rows => exists x, rows = [x] /\ targeted_row allUsers user c x).
    intros c _.
    eapply yields_bind_pure; [apply yields_resolveTarget|].
    intros target Htarget.
    eapply yields_bind; [apply yields_creates, creates_liftDb_createAssignment|].
    intros _ r1 ->. apply yields_ret. rewrite app_nil_r.
    eexists. split; [done|]. by exists target.
  - intros _ rows (blocks & -> & Hblocks). exists (slice sorted 0 2).
    split; [by exists sorted|]. by apply Forall2_concat_singletons.
Qed.

Lemma yields_assignChallenges easyChallenges mediumChallenges hardChallenges :
  yields (assignChallenges seed allUsers easyChallenges mediumChallenges
            hardChallenges)
    (fun _ rows => exists blocks, rows = concat blocks
       /\ Forall2 (user_block allUsers easyChallenges mediumChallenges
                     hardChallenges) allUsers blocks).
Proof.
  unfold assignChallenges. apply yields_forOf. intros user Hu.
  eapply yields_bind; [apply yields_creates, creates_assignEasy|].
  intros _ r1 (ce & Hce & ->).
  eapply yields_bind; [apply yields_assignTargeted|].
  intros _ r2 (cm & Hcm & Hrm).
  eapply yields_weaken; [apply yields_assignTargeted|].
  intros _ r3 (ch & Hch & Hrh). exists ce, cm, ch, r2, r3.
  by rewrite app_assoc.
Qed.

Lemma yields_assignFromSeed easyChallenges mediumChallenges hardChallenges
    teamChallenges :
  yields (assignFromSeed seed allUsers easyChallenges mediumChallenges
            hardChallenges teamChallenges)
    (fun _ rows => exists blocks, rows = concat blocks
       /\ Forall2 (user_block allUsers easyChallenges mediumChallenges
                     hardChallenges) allUsers blocks).
Proof.
  unfold assignFromSeed.
  eapply yields_bind_pure with (P := fun _ => True).
  { apply yields_spec. intros rows0. apply (stable_shuffle_from (fun d => map values (assignments d) = rows0)). }
  intros a _.
  eapply yields_bind_pure with (P := fun _ => True).
  { apply yields_spec. intros rows0.
    apply (stable_formTeams_from (fun fr => map values (assignments (store fr)) = rows0)). }
  intros tas _.
  eapply yields_bind_pure with (P := fun _ => True).
  { apply yields_spec. intros rows0.
    apply (stable_createTeams (fun d => map values (assignments d) = rows0)).
    - apply createTeam_keeps_assignments.
    - apply addTeamMember_keeps_assignments. }
  intros _ _. apply yields_assignChallenges.
Qed.

End Yields.

Section ReturningRun.
Context `{RT : Runtime}.

(** The table of assignments after a returning call is made of one block
    per participant, in the order of the participants. *)
Lemma generateAssignments_blocks entropy adminId d r :
  (generateAssignments entropy adminId d).1 = Normal r ->
  r = new_seed_record entropy adminId d
  /\ exists blocks,
      map values (assignments (generateAssignments entropy adminId d).2)
        = concat blocks
      /\ Forall2 (user_block (participants d) (pool easy d) (pool medium d)
                    (pool hard d)) (participants d) blocks.
Proof.
  rewrite generateAssignments_unfold. unfold withSeedIndex.
  destruct (assignFromSeed _ _ _ _ _ _ _) as [[[]|e] fr'] eqn:E; simpl; [|done].
  intros [= <-]. split; [done|].
  destruct (yields_assignFromSeed _ _ _ _ _ _ _ _ _ E)
    as (rows & Erows & blocks & -> & Hblocks).
  exists blocks. by split.
Qed.

End ReturningRun.

(** ** The call on the database with its proofs *)

Section Refusals.
Context `{RT : Runtime}.

Lemma storage_generateAssignments_accepted entropy adminId s :
  accepted adminId s ->
  storage_generateAssignments entropy adminId s
  = match generateAssignments entropy adminId (db s) with
    | (Normal seedRecord, d') => (Returned seedRecord, mkStore d' (proofs s))
    | (Throw e, d') => (Failed (Js e), mkStore d' (proofs s))
    end.
Proof.
  intros (Ha & Ht & Hn & Hu). unfold storage_generateAssignments.
  rewrite (decide_False (P := referred (map Assignment.id _) _)) by done.
  rewrite (decide_False (P := referred (map Team.id _) _)) by done.
  rewrite (decide_True (P := int4 _)) by done.
  by rewrite (decide_True (P := adminId ∈ _)) by done.
Qed.

Lemma refused_iff entropy adminId s :
  refused (storage_generateAssignments entropy adminId s).1 = false
  <-> accepted adminId s.
Proof.
  split.
  - unfold storage_generateAssignments, accepted, participants.
    repeat case_decide; done.
  - intros H. rewrite storage_generateAssignments_accepted by done.
    by destruct (generateAssignments _ _ _) as [[?|?] ?].
Qed.

(** A call that did not end on an error of the database ran as
    [generateAssignments] runs. *)
Lemma storage_generateAssignments_ran entropy adminId s :
  refused (storage_generateAssignments entropy adminId s).1 = false ->
  db (storage_generateAssignments entropy adminId s).2
  = (generateAssignments entropy adminId (db s)).2
  /\ proofs (storage_generateAssignments entropy adminId s).2 = proofs s
  /\ forall r, (storage_generateAssignments entropy adminId s).1 = Returned r
               <-> (generateAssignments entropy adminId (db s)).1 = Normal r.
Proof.
  intros H%refused_iff. rewrite storage_generateAssignments_accepted by done.
  destruct (generateAssignments _ _ _) as [[?|?] ?]; simpl; split_and!; try done;
    intros r; split; by intros [=]; subst.
Qed.

Lemma storage_generateAssignments_returned entropy adminId s r :
  (storage_generateAssignments entropy adminId s).1 = Returned r ->
  accepted adminId s
  /\ (generateAssignments entropy adminId (db s)).1 = Normal r
  /\ db (storage_generateAssignments entropy adminId s).2
     = (generateAssignments entropy adminId (db s)).2.
Proof.
  intros E.
  assert (H : refused (storage_generateAssignments entropy adminId s).1 = false)
    by (by rewrite E).
  destruct (storage_generateAssignments_ran _ _ _ H) as (Hd & _ & Hr).
  split; [by apply (refused_iff entropy)|]. split; [by apply Hr|done].
Qed.

End Refusals.

(** ** A call with an empty team pool *)

Section NoTeamChallenge.
Context `{RT : Runtime}.

Lemma never_returns_bind_l {S A B} (m : M S A) (f : A -> M S B) :
  never_returns m -> never_returns (bind m f).
Proof.
  intros Hm s b s' E. apply bind_returns in E as (a & s1 & Em & _).
  by destruct (Hm s a s1).
Qed.

Lemma length_elem_set {A} (a : list (option A)) i v :
  length a <= length (elem_set a i v).
Proof.
  unfold elem_set. case_decide.
  - by rewrite length_insert.
  - rewrite length_app. lia.
Qed.

Lemma shuffle_from_length seed i a :
  spec (fun _ : Frame => True) (shuffle_from seed i a)
       (fun a' => length a <= length a').
Proof.
  revert a; induction i as [|i IH]; intros a; simpl.
  - by apply spec_ret.
  - eapply spec_bind with (Q := fun _ => True).
    { intros fr _. split; [done|]. done. }
    intros r _. eapply spec_weaken; [apply IH|].
    intros a' Ha'. simpl in Ha'. etrans; [|exact Ha'].
    unfold swap. etrans; [|apply length_elem_set]. apply length_elem_set.
Qed.

Lemma formTeams_not_empty {S} (a : list (option User.t)) :
  a ≠ [] ->
  spec (fun _ : S => True) (formTeams a) (fun teamAssignments => teamAssignments ≠ []).
Proof.
  intros Ha. unfold formTeams. destruct a as [|x a]; [done|].
  cbn [length formTeams_from]. rewrite decide_True by (simpl; lia).
  eapply spec_bind with (Q := fun _ => True).
  { intros s _. by split. }
  intros ids _. eapply spec_bind with (Q := fun _ => True).
  { intros s _. by split. }
  intros rest _. by apply spec_ret.
Qed.

Lemma createTeams_no_team_challenge seed i members rest :
  never_returns (createTeams seed [] i (members :: rest)).
Proof.
  intros fr a fr' E. cbn [createTeams] in E.
  apply bind_returns in E as (r & fr1 & _ & E).
  apply bind_returns in E as (r' & fr2 & _ & E).
  apply bind_returns in E as (title & fr3 & _ & E).
  apply bind_returns in E as (description & fr4 & _ & E).
  apply bind_returns in E as (teamChallengeId & fr5 & E & _).
  unfold array_get in E. by rewrite lookup_nil in E.
Qed.

Lemma assignFromSeed_no_team_challenge seed allUsers easyChallenges
    mediumChallenges hardChallenges :
  allUsers ≠ [] ->
  never_returns (assignFromSeed seed allUsers easyChallenges mediumChallenges
                   hardChallenges []).
Proof.
  intros Hne. unfold assignFromSeed.
  eapply never_returns_bind with (Q := fun a => a ≠ []).
  { unfold shuffle. eapply spec_weaken; [apply shuffle_from_length|].
    intros a Ha ->. rewrite length_map in Ha. destruct allUsers; [done|].
    simpl in Ha. lia. }
  intros a Ha. eapply never_returns_bind; [by apply formTeams_not_empty|].
  intros teamAssignments Hteams. apply never_returns_bind_l.
  destruct teamAssignments as [|members rest]; [done|].
  apply createTeams_no_team_challenge.
Qed.

(** With a participant and no team challenge the call throws. *)
Lemma generateAssignments_no_team_challenge entropy adminId d :
  pool team d = [] -> participants d ≠ [] ->
  (generateAssignments entropy adminId d).1 = Throw TypeError.
Proof.
  intros Hteam Hne. rewrite generateAssignments_unfold, Hteam.
  unfold withSeedIndex.
  destruct (assignFromSeed _ _ _ _ _ _ _) as [[[]|[]] fr'] eqn:E; [|done].
  by destruct (assignFromSeed_no_team_challenge _ _ _ _ _ Hne _ _ _ E).
Qed.

End NoTeamChallenge.

(** ** What [generateAssignments] stores *)

Section Stored.
Context `{RT : Runtime}.

(** Every assignment in the table after a call was created by one of the
    three blocks of the loop, for the participants and pools of the call. *)
Lemma generateAssignments_generated entropy adminId d :
  Forall (generated (participants d) (pool easy d) (pool medium d) (pool hard d))
         (map values (assignments (generateAssignments entropy adminId d).2)).
Proof.
  apply (generateAssignments_inv
    (fun d' => Forall (generated (participants d) (pool easy d) (pool medium d)
                         (pool hard d)) (map values (assignments d')))).
  - intros x d' Hd'. by split.
  - intros t u d' Hd'. by split.
  - intros x Hx d' Hd'. split; [|done].
    rewrite values_createAssignment. apply Forall_app. split; [done|].
    by constructor.
  - intros x d' Hd'. by split.
  - by constructor.
Qed.

Lemma generated_status allUsers e m h x :
  generated allUsers e m h x -> InsertAssignment.status x = not_started.
Proof.
  intros [(u & c & _ & _ & ->)|[(u & c & t & _ & _ & _ & ->)|(u & c & t & _ & _ & _ & ->)]];
    done.
Qed.

Lemma from_targeted_target allUsers p x t :
  from_targeted allUsers p x ->
  InsertAssignment.targetUserId x = Some t -> t ≠ InsertAssignment.userId x.
Proof.
  intros (u & c & t' & _ & _ & Ht & ->); simpl. intros ->.
  unfold target_for in Ht. destruct (Challenge.needsTarget c); [|done].
  destruct Ht as (u' & _ & Hne & [= ->]). done.
Qed.

Lemma generated_target allUsers e m h x t :
  generated allUsers e m h x ->
  InsertAssignment.targetUserId x = Some t -> t ≠ InsertAssignment.userId x.
Proof.
  intros [(u & c & _ & _ & ->)|[H|H]]; [done| |]; by eapply from_targeted_target.
Qed.

(** The seed table after a call, whether it returned or threw: the records
    stored before, deactivated, then the new record. *)
Lemma generateAssignments_seeds entropy adminId d :
  assignmentSeeds (generateAssignments entropy adminId d).2
  = map deactivate (assignmentSeeds d) ++ [new_seed_record entropy adminId d].
Proof.
  apply (generateAssignments_inv
    (fun d' => assignmentSeeds d'
               = map deactivate (assignmentSeeds d) ++ [new_seed_record entropy adminId d]));
    try (intros; intros d' Hd'; by split); done.
Qed.

(** When no window of the seed reads [ffffffff], the team pool is not empty
    and every participant has another participant to be given as target,
    the call returns the new seed record and the table of assignments is
    made of one block per participant, in the order of the participants. *)
Lemma generateAssignments_returns entropy adminId d :
  stream_below_one (seed_of entropy) ->
  pool team d ≠ [] ->
  (forall user, user ∈ participants d ->
     exists u, u ∈ participants d /\ User.id u ≠ User.id user) ->
  (generateAssignments entropy adminId d).1
    = Normal (new_seed_record entropy adminId d)
  /\ exists blocks,
      map values (assignments (generateAssignments entropy adminId d).2)
        = concat blocks
      /\ Forall2 (user_block (participants d) (pool easy d) (pool medium d)
                    (pool hard d)) (participants d) blocks.
Proof.
  intros Hseed Hteam Hothers. rewrite generateAssignments_unfold.
  destruct (creates_assignFromSeed (seed_of entropy) Hseed (participants d)
              Hothers (pool easy d) (pool medium d) (pool hard d) (pool team d)
              Hteam (mkFrame (prepared entropy adminId d) 0))
    as ([] & fr' & rows & Erun & Erows & blocks & -> & Hblocks).
  unfold withSeedIndex. rewrite Erun. simpl in *.
  split; [done|]. by exists blocks.
Qed.

Lemma pool_challenge c difficulty d :
  c ∈ pool difficulty d -> c ∈ challenges d /\ Challenge.difficulty c = difficulty.
Proof. intros [[? _] ?]%list_elem_of_filter. done. Qed.

(** No assignment of a challenge of the easy pool has a target, whether
    the challenge needs one or not. *)
Lemma easy_assignment_has_no_target entropy adminId d a :
  NoDup (map Challenge.id (challenges d)) ->
  a ∈ assignments (generateAssignments entropy adminId d).2 ->
  Assignment.challengeId a ∈ map Challenge.id (pool easy d) ->
  Assignment.targetUserId a = None.
Proof.
  intros Hnd Ha Hc.
  pose proof (generateAssignments_generated entropy adminId d) as Hall.
  rewrite Forall_forall in Hall.
  specialize (Hall (values a) (list_elem_of_fmap_2 _ _ _ Ha)).
  apply list_elem_of_fmap in Hc as (ce & Ece & Hce).
  assert (forall difficulty c t user,
    difficulty ≠ easy -> c ∈ pool difficulty d ->
    values a = InsertAssignment.mk (User.id user) (Challenge.id c) t not_started ->
    False) as Hother.
  { intros difficulty c t user Hdiff Hcin E.
    apply (pools_disjoint d easy difficulty Hnd ltac:(done) ce c Hce Hcin).
    rewrite <- Ece. by injection E. }
  destruct Hall as [(u & c & _ & _ & E)|[(u & c & t & _ & Hcin & _ & E)
                                         |(u & c & t & _ & Hcin & _ & E)]].
  - by injection E.
  - by destruct (Hother medium c t u).
  - by destruct (Hother hard c t u).
Qed.

(** An assignment of a challenge of the medium or hard pool that needs a
    target has one: another participant. *)
Lemma targeted_assignment_has_target entropy adminId d a c :
  NoDup (map Challenge.id (challenges d)) ->
  a ∈ assignments (generateAssignments entropy adminId d).2 ->
  c ∈ pool medium d \/ c ∈ pool hard d ->
  Assignment.challengeId a = Challenge.id c ->
  Challenge.needsTarget c = true ->
  exists u, u ∈ participants d /\ User.id u ≠ Assignment.userId a
            /\ Assignment.targetUserId a = Some (User.id u).
Proof.
  intros Hnd Ha Hc Eid Hneeds.
  pose proof (generateAssignments_generated entropy adminId d) as Hall.
  rewrite Forall_forall in Hall.
  specialize (Hall (values a) (list_elem_of_fmap_2 _ _ _ Ha)).
  assert (exists difficulty, difficulty ≠ easy /\ c ∈ pool difficulty d)
    as (dc & Hdc & Hcin)
    by (destruct Hc; [by exists medium | by exists hard]).
  assert (forall p c' t user,
    c' ∈ pool p d -> target_for (participants d) user c' t ->
    values a = InsertAssignment.mk (User.id user) (Challenge.id c') t not_started ->
    exists u, u ∈ participants d /\ User.id u ≠ Assignment.userId a
              /\ Assignment.targetUserId a = Some (User.id u)) as Hsame.
  { intros p c' t user Hc' Ht E. injection E as Eu Ec Et _.
    assert (c' = c) as ->.
    { apply (NoDup_fmap_eq Challenge.id (challenges d)); [done| | |congruence];
        by eapply pool_challenge. }
    unfold target_for in Ht. rewrite Hneeds in Ht.
    destruct Ht as (u & Hu & Hne & ->). exists u. by rewrite Eu, Et. }
  destruct Hall as [(u & ce & _ & Hce & E)|[(u & c' & t & _ & Hc' & Ht & E)
                                          |(u & c' & t & _ & Hc' & Ht & E)]].
  - exfalso. apply (pools_disjoint d easy dc Hnd ltac:(done) ce c Hce Hcin).
    rewrite <- Eid. by injection E.
  - exact (Hsame medium c' t u Hc' Ht E).
  - exact (Hsame hard c' t u Hc' Ht E).
Qed.

(** A seed that starts with [ffffffff] makes every call with at least two
    participants throw, once the seed record is stored and the tables are
    emptied: no team and no assignment is created. *)
Lemma first_window_ffffffff_throws entropy adminId d :
  parseInt16 (substring 0 8 (seed_of entropy)) = 4294967295%Z ->
  2 <= length (participants d) ->
  generateAssignments entropy adminId d
  = (Throw TypeError, prepared entropy adminId d).
Proof.
  intros Hw Hlen. rewrite generateAssignments_unfold. unfold withSeedIndex.
  destruct (assignFromSeed_first_value_one (seed_of entropy) (participants d)
              (pool easy d) (pool medium d) (pool hard d) (pool team d)
              (prepared entropy adminId d) Hw Hlen) as (fr' & -> & ->).
  done.
Qed.

(** The teams a returning call leaves: the consecutive groups of three of
    a rearrangement of the participants, each with a challenge of the team
    pool. *)
Lemma generateAssignments_teams entropy adminId d :
  stream_below_one (seed_of entropy) ->
  pool team d ≠ [] ->
  (forall user, user ∈ participants d ->
     exists u, u ∈ participants d /\ User.id u ≠ User.id user) ->
  exists us,
    us ≡ₚ participants d
    /\ map snd (team_compositions (generateAssignments entropy adminId d).2)
       = chunks3 (map User.id us)
    /\ Forall (fun n => exists c, c ∈ pool team d
                  /\ InsertTeam.teamChallengeId n.1 = Some (Challenge.id c))
              (team_compositions (generateAssignments entropy adminId d).2).
Proof.
  intros Hseed Hteam Hothers. rewrite generateAssignments_unfold.
  destruct (assignFromSeed_teams (seed_of entropy) Hseed (participants d)
              (pool easy d) (pool medium d) (pool hard d) (pool team d)
              (mkFrame (prepared entropy adminId d) 0) Hteam Hothers)
    as (us & fr' & news & E & Hus & C & Hsnd & Htc).
  { unfold well_keyed; simpl. split_and!; constructor. }
  unfold withSeedIndex. rewrite E. cbn [fst snd].
  exists us. split; [done|].
  change (team_compositions (createAuditLogEntry _ (store fr')).2)
    with (team_compositions (store fr')).
  rewrite C. by split.
Qed.

(** Hence as many teams as the number of participants over 3, rounded up,
    of one to three members each, which together are the participants. *)
Lemma generateAssignments_team_sizes entropy adminId d :
  stream_below_one (seed_of entropy) ->
  pool team d ≠ [] ->
  (forall user, user ∈ participants d ->
     exists u, u ∈ participants d /\ User.id u ≠ User.id user) ->
  let compositions :=
    team_compositions (generateAssignments entropy adminId d).2 in
  length compositions = (length (participants d) + 2) / 3
  /\ Forall (fun n => 1 <= length n.2 <= 3) compositions
  /\ concat (map snd compositions) ≡ₚ map User.id (participants d).
Proof.
  intros Hseed Hteam Hothers compositions.
  destruct (generateAssignments_teams entropy adminId d Hseed Hteam Hothers)
    as (us & Hus & Hsnd & _).
  change (map snd compositions = chunks3 (map User.id us)) in Hsnd.
  clearbody compositions. split_and!.
  - apply (f_equal length) in Hsnd.
    rewrite length_map, chunks3_length, length_map, Hus in Hsnd. exact Hsnd.
  - pose proof (chunks3_sizes (map User.id us)) as Hsizes.
    rewrite <- Hsnd in Hsizes. apply Forall_forall. intros n Hn.
    apply (proj1 (Forall_forall _ _) Hsizes (snd n)).
    by apply (list_elem_of_fmap_2 snd).
  - rewrite Hsnd, chunks3_concat. by rewrite Hus.
Qed.

(** With a number of participants that is 1 more than a multiple of 3 and
    an array without holes, the last of the teams formed has one member. *)
Lemma formTeams_last_team_of_one {S} (us : list User.t) (s : S) :
  length us mod 3 = 1 ->
  exists teams x, formTeams (map Some us) s = (Normal (teams ++ [[x]]), s).
Proof.
  intros Hlen. rewrite formTeams_chunks.
  destruct (chunks3_last_of_one (map User.id us)) as (teams & x & E);
    [by rewrite length_map|].
  exists teams, x. by rewrite E.
Qed.

End Stored.

(** ** The claims *)

(** C10. Every assignment [generateAssignments] leaves in the table, for
    every runtime, entropy, admin and database, and whether the call
    returned or threw, has the status [not_started]. *)
Theorem assignments_start_not_started `{RT : Runtime} entropy adminId d a :
  a ∈ assignments (generateAssignments entropy adminId d).2 ->
  Assignment.status a = not_started.
Proof.
  intros Ha.
  pose proof (generateAssignments_generated entropy adminId d) as Hall.
  rewrite Forall_forall in Hall.
  eapply (generated_status _ _ _ _ (values a)), Hall, list_elem_of_fmap.
  by exists a.
Qed.

Lemma assignments_start_not_started_witness :
  sample_assignment ∈ assignments sample_run.2
  /\ Assignment.status sample_assignment = not_started.
Proof.
  assert (H : sample_assignment ∈ assignments sample_run.2) by elem_of_concrete.
  split; [exact H|].
  exact (@assignments_start_not_started reference_runtime zeros "admin"
           (sample_db 2) sample_assignment H).
Defined.

(** C9. An assignment [generateAssignments] leaves in the table never has
    its own participant as target: if [targetUserId] is present, it differs
    from [userId]. *)
Theorem target_is_not_assignee `{RT : Runtime} entropy adminId d a target :
  a ∈ assignments (generateAssignments entropy adminId d).2 ->
  Assignment.targetUserId a = Some target ->
  target ≠ Assignment.userId a.
Proof.
  intros Ha Ht.
  pose proof (generateAssignments_generated entropy adminId d) as Hall.
  rewrite Forall_forall in Hall.
  eapply (generated_target _ _ _ _ (values a)); [|done].
  apply Hall, list_elem_of_fmap. by exists a.
Qed.

Lemma target_is_not_assignee_witness :
  sample_assignment ∈ assignments sample_run.2
  /\ Assignment.targetUserId sample_assignment = Some "u1"
  /\ "u1" ≠ Assignment.userId sample_assignment.
Proof.
  assert (H : sample_assignment ∈ assignments sample_run.2) by elem_of_concrete.
  split; [exact H|]. split; [reflexivity|].
  exact (@target_is_not_assignee reference_runtime zeros "admin"
           (sample_db 2) sample_assignment "u1" H eq_refl).
Defined.

(** C8. [verifySeed] returns normally on every candidate and every
    database, leaves the database as it is, and returns [true] exactly when
    some stored seed record, active or not, has the candidate as its
    [seedHash]; the comparison is equality of strings. *)
Theorem verifySeed_true_iff_stored seedHash d :
  exists b, verifySeed seedHash d = (Normal b, d)
    /\ (b = true <->
        exists r, r ∈ assignmentSeeds d /\ AssignmentSeed.seedHash r = seedHash).
Proof.
  unfold verifySeed, bind, get.
  destruct (filter _ (assignmentSeeds d)) as [|r rows] eqn:Hrows; simpl.
  - exists false. split; [done|]. split; [done|]. intros (r & Hin & Hr).
    assert (r ∈ filter (fun r => AssignmentSeed.seedHash r = seedHash)
                       (assignmentSeeds d)) as Hf
      by (by apply list_elem_of_filter).
    rewrite Hrows in Hf. by apply not_elem_of_nil in Hf.
  - exists true. split; [done|]. split; [|done]. intros _. exists r.
    assert (r ∈ filter (fun r => AssignmentSeed.seedHash r = seedHash)
                       (assignmentSeeds d)) as Hf
      by (rewrite Hrows; left).
    apply list_elem_of_filter in Hf as [? ?]. done.
Qed.

(** The comparison distinguishes upper and lower case. *)
Example verifySeed_case_sensitive :
  let d := mkDb [] [] [] [] [] [AssignmentSeed.mk "0" "00" "ab12" 0 "admin" false] [] 1 in
  (verifySeed "ab12" d).1 = Normal true /\ (verifySeed "AB12" d).1 = Normal false.
Proof. split; reflexivity. Qed.

Lemma storage_generate_all_snoc `{RT : Runtime} calls call s :
  storage_generate_all (calls ++ [call]) s
  = ((storage_generate_all calls s).1
       ++ [(storage_generateAssignments call.1 call.2
              (storage_generate_all calls s).2).1],
     (storage_generateAssignments call.1 call.2
        (storage_generate_all calls s).2).2).
Proof. unfold storage_generate_all. by rewrite fold_left_app. Qed.

(** The seed table after a call that did not end on an error of the
    database: the records stored before, deactivated, then the new
    record. *)
Lemma storage_generateAssignments_seeds `{RT : Runtime} entropy adminId s :
  refused (storage_generateAssignments entropy adminId s).1 = false ->
  assignmentSeeds (db (storage_generateAssignments entropy adminId s).2)
  = map deactivate (assignmentSeeds (db s))
    ++ [new_seed_record entropy adminId (db s)].
Proof.
  intros H. destruct (storage_generateAssignments_ran _ _ _ H) as (-> & _).
  apply generateAssignments_seeds.
Qed.

Lemma storage_generate_all_deactivated `{RT : Runtime} calls s :
  assignmentSeeds (db s) = [] ->
  Forall (fun o => refused o = false) (storage_generate_all calls s).1 ->
  map seed_summary
      (map deactivate (assignmentSeeds (db (storage_generate_all calls s).2)))
  = map (fun c => (seed_of c.1, c.2, false)) calls.
Proof.
  intros Hs. induction calls as [|call calls IH] using rev_ind.
  - intros _. simpl. by rewrite Hs.
  - rewrite storage_generate_all_snoc. cbn [fst snd].
    intros [Hcalls Hcall]%Forall_app. rewrite Forall_singleton in Hcall.
    rewrite storage_generateAssignments_seeds, !map_app by done.
    f_equal. rewrite <- IH, <- !list_fmap_compose by done.
    apply list_fmap_ext. by intros ? [].
Qed.

(** C7, amended. After calls made one after the other on a store with no
    seed record, none of which ended on an error of the database, the seed
    table holds one record per call, in the order of the calls: those of
    the earlier calls with [isActive = false], and last the record of the
    most recent call, the only one with [isActive = true]. *)
Theorem single_active_seed `{RT : Runtime} earlier call s :
  assignmentSeeds (db s) = [] ->
  let runs := storage_generate_all (earlier ++ [call]) s in
  Forall (fun o => refused o = false) runs.1 ->
  map seed_summary (assignmentSeeds (db runs.2))
  = map (fun c => (seed_of c.1, c.2, false)) earlier
    ++ [(seed_of call.1, call.2, true)].
Proof.
  intros Hs runs. subst runs. rewrite storage_generate_all_snoc. cbn [fst snd].
  intros [Hcalls Hcall]%Forall_app. rewrite Forall_singleton in Hcall.
  rewrite storage_generateAssignments_seeds, map_app by done.
  by rewrite storage_generate_all_deactivated.
Qed.

Lemma single_active_seed_witness :
  let runs :=
    @storage_generate_all reference_runtime
      ([(zeros, "root"); (ones, "root")] ++ [(zeros, "root")]) (admin_store 2) in
  map refused runs.1 = [false; false; false]
  /\ map seed_summary (assignmentSeeds (db runs.2))
     = [(seed_of zeros, "root", false); (seed_of ones, "root", false);
        (seed_of zeros, "root", true)].
Proof.
  split; [vm_compute; reflexivity|].
  apply (@single_active_seed reference_runtime
           [(zeros, "root"); (ones, "root")] (zeros, "root") (admin_store 2)).
  - reflexivity.
  - vm_compute. repeat constructor.
Defined.

(** C7 as stated fails: a call whose [adminId] is the key of no user (the
    admin page sends [admin-1]) is refused at the insert of its seed record,
    after the records stored have been deactivated.  After a returning call
    and such a call the table holds one record, and no record is active. *)
Lemma refused_call_leaves_no_active_seed :
  let runs :=
    @storage_generate_all reference_runtime
      [(zeros, "root"); (ones, "admin-1")] (admin_store 2) in
  assignmentSeeds (db (admin_store 2)) = []
  /\ runs.1 = [ Returned (@new_seed_record reference_runtime zeros "root"
                            (db (admin_store 2)));
                Failed (Database foreign_key_violation) ]
  /\ map seed_summary (assignmentSeeds (db runs.2))
     = [(seed_of zeros, "root", false)]
  /\ filter (fun r => AssignmentSeed.isActive r = true)
            (assignmentSeeds (db runs.2)) = [].
Proof. vm_compute. split_and!; reflexivity. Qed.

Lemma assigned_values d user p :
  map values (assigned d user p)
  = filter (fun x => InsertAssignment.challengeId x ∈ map Challenge.id p)
      (filter (fun x => InsertAssignment.userId x = User.id user)
         (map values (assignments d))).
Proof.
  unfold assigned. rewrite list_filter_filter, <- fmap_filter_comm. f_equal.
  apply list_filter_iff. intros a. simpl. tauto.
Qed.

Lemma another_participant (allUsers : list User.t) user :
  NoDup (map User.id allUsers) -> 2 <= length allUsers ->
  exists u, u ∈ allUsers /\ User.id u ≠ User.id user.
Proof.
  destruct allUsers as [|a [|b rest]]; simpl; [lia..|]. intros Hnd _.
  apply NoDup_cons in Hnd as [Hab _].
  destruct (decide (User.id a = User.id user)) as [E|Hne].
  - exists b. split; [by right; left|]. intros E'. apply Hab.
    rewrite E, <- E'. left.
  - exists a. split; [left|done].
Qed.

(** C5, amended. When the call returns, with keys that identify the
    participants and the challenges, every participant has, for each of
    the easy, medium and hard pools, two assignments whose challenge is in
    the pool, or as many as the pool holds if it holds fewer: exactly two
    when the pool holds at least two challenges.  The challenges of these
    assignments are different. *)
Theorem quota_two_per_category `{RT : Runtime} entropy adminId s r user difficulty :
  let run := storage_generateAssignments entropy adminId s in
  run.1 = Returned r ->
  NoDup (map User.id (participants (db s))) ->
  NoDup (map Challenge.id (challenges (db s))) ->
  user ∈ participants (db s) ->
  difficulty ≠ team ->
  length (assigned (db run.2) user (pool difficulty (db s)))
  = Nat.min 2 (length (pool difficulty (db s)))
  /\ NoDup (map Assignment.challengeId
              (assigned (db run.2) user (pool difficulty (db s)))).
Proof.
  intros run Hret Nu Nc Huser Hdiff. subst run.
  apply storage_generateAssignments_returned in Hret as (_ & Hret & ->).
  destruct (generateAssignments_blocks _ _ _ _ Hret)
    as (_ & blocks & Evals & Hblocks).
  set (d := db s) in *.
  destruct (blocks_of_user _ _ _ user
              (user_block_userId _ _ _ _) Nu Hblocks Huser)
    as (u & rows & Eu & Hrows & Hfilter).
  assert (Hq : pool difficulty d ∈ [pool easy d; pool medium d; pool hard d]).
  { destruct difficulty; [| | |done];
      repeat first [apply list_elem_of_here | apply list_elem_of_further]. }
  pose proof (user_block_quota _ _ _ _ _ _ _ Hrows
    (pools_disjoint d easy medium Nc ltac:(done))
    (pools_disjoint d easy hard Nc ltac:(done))
    (pools_disjoint d medium hard Nc ltac:(done))
    (pool_NoDup easy d Nc) (pool_NoDup medium d Nc) (pool_NoDup hard d Nc)
    Hq) as [Hlen Hnd].
  replace (map Assignment.challengeId (assigned _ user (pool difficulty d)))
    with (map InsertAssignment.challengeId
            (map values (assigned (generateAssignments entropy adminId d).2
                           user (pool difficulty d))))
    by (by rewrite <- list_fmap_compose).
  rewrite <- (length_map values), assigned_values, Evals, Hfilter. done.
Qed.

Lemma stream_below_one_zeros : stream_below_one (seed_of zeros).
Proof. apply windows_below_one_sound. vm_compute. reflexivity. Qed.

Lemma quota_two_per_category_witness :
  let s := admin_store 2 in
  let run := @storage_generateAssignments reference_runtime zeros "root" s in
  run.1 = Returned (@new_seed_record reference_runtime zeros "root" (db s))
  /\ length (assigned (db run.2) (sample_user "u0") (pool medium (db s))) = 2
  /\ NoDup (map Assignment.challengeId
              (assigned (db run.2) (sample_user "u0") (pool medium (db s)))).
Proof.
  split; [vm_compute; reflexivity|].
  apply (@quota_two_per_category reference_runtime zeros "root" (admin_store 2)
           (@new_seed_record reference_runtime zeros "root" (db (admin_store 2)))
           (sample_user "u0") medium).
  - vm_compute. reflexivity.
  - by_evaluation.
  - by_evaluation.
  - elem_of_concrete.
  - discriminate.
Defined.

(** C5 as stated fails: with one challenge in the easy pool (and the other
    pools not empty either) a call of the admin returns and a participant
    has a single easy assignment. *)
Lemma quota_fails_on_single_challenge_pool :
  let s := single_easy_store in
  let d := db s in
  let run := @storage_generateAssignments reference_runtime zeros "root" s in
  pool easy d ≠ [] /\ pool medium d ≠ [] /\ pool hard d ≠ [] /\ pool team d ≠ []
  /\ run.1 = Returned (@new_seed_record reference_runtime zeros "root" d)
  /\ sample_user "u0" ∈ participants d
  /\ length (assigned (db run.2) (sample_user "u0") (pool easy d)) = 1.
Proof.
  vm_compute. split_and!; try (discriminate || reflexivity). elem_of_concrete.
Qed.

(** C6 as stated fails: with no easy challenge in the bank a call of the
    admin does not fail; it returns the new seed record, the assignment
    stored before is gone, and the seed stored before has been deactivated
    and followed by a new active one. *)
Lemma missing_category_still_mutates :
  let s := no_easy_store in
  let d := db s in
  let run := @storage_generateAssignments reference_runtime zeros "root" s in
  pool easy d = []
  /\ run.1 = Returned (@new_seed_record reference_runtime zeros "root" d)
  /\ map Assignment.id (assignments d) = ["4"]
  /\ map Assignment.id (assignments (db run.2))
     = ["9"; "10"; "11"; "12"; "13"; "14"; "15"; "16"]
  /\ map AssignmentSeed.isActive (assignmentSeeds d) = [true]
  /\ map AssignmentSeed.isActive (assignmentSeeds (db run.2)) = [false; true].
Proof. vm_compute. split_and!; reflexivity. Qed.

(** A call the database refuses is no call without mutation either: with
    a stored proof of a team, the call is refused at the [DELETE] of the
    teams, after the assignments and the team memberships have been
    deleted. *)
Example stored_proof_blocks_the_generation :
  let s := played_store in
  let run := @storage_generateAssignments reference_runtime zeros "root" s in
  omap Proof.teamId (proofs s) = ["1"]
  /\ map Team.id (teams (db s)) = ["1"; "5"]
  /\ run.1 = Failed (Database foreign_key_violation)
  /\ length (assignments (db s)) = 24
  /\ assignments (db run.2) = []
  /\ teamMembers (db run.2) = []
  /\ teams (db run.2) = teams (db s)
  /\ assignmentSeeds (db run.2) = assignmentSeeds (db s).
Proof. vm_compute. split_and!; reflexivity. Qed.

Lemma accepted_cleared adminId s :
  accepted adminId s -> accepted adminId (mkStore (cleared (db s)) (proofs s)).
Proof.
  intros (_ & _ & Hn & Hu). unfold accepted, referred. simpl.
  split_and!; [| |done..]; intros [k [_ Hk]]%Exists_exists;
    by apply not_elem_of_nil in Hk.
Qed.

(** C6, amended. [generateAssignments] makes no check of the categories.
    A call the database accepts (no proof refers to an assignment or to a
    team, the number of participants is an [integer] and [adminId] is the
    key of a user) has, whatever the categories hold and whether it then
    returns or throws, dropped the teams, team memberships and assignments
    stored before (it runs as on the store without them) and turned the
    seed table into the records stored before, deactivated, followed by
    the new active record.  It returns the new seed record or throws a
    [TypeError]; with no active team challenge and a participant it throws
    the [TypeError], the changes above being made. *)
Theorem generation_runs_whatever_the_categories `{RT : Runtime} entropy adminId s :
  accepted adminId s ->
  let run := storage_generateAssignments entropy adminId s in
  run = storage_generateAssignments entropy adminId
          (mkStore (cleared (db s)) (proofs s))
  /\ assignmentSeeds (db run.2)
     = map deactivate (assignmentSeeds (db s))
       ++ [new_seed_record entropy adminId (db s)]
  /\ (run.1 = Returned (new_seed_record entropy adminId (db s))
      \/ run.1 = Failed (Js TypeError))
  /\ (pool team (db s) = [] -> participants (db s) ≠ [] ->
      run.1 = Failed (Js TypeError)).
Proof.
  intros Hacc run. subst run.
  assert (Href : refused (storage_generateAssignments entropy adminId s).1 = false)
    by (by apply refused_iff).
  split_and!.
  - rewrite !storage_generateAssignments_accepted by (by try apply accepted_cleared).
    by rewrite !generateAssignments_unfold.
  - by apply storage_generateAssignments_seeds.
  - rewrite storage_generateAssignments_accepted, generateAssignments_unfold by done.
    destruct (withSeedIndex _ _) as [[[]|[]] d']; simpl; auto.
  - intros Hteam Hne.
    pose proof (generateAssignments_no_team_challenge entropy adminId (db s)
                  Hteam Hne) as Hthrow.
    rewrite storage_generateAssignments_accepted by done.
    destruct (generateAssignments _ _ _) as [[?|[]] d']; simpl in *; done.
Qed.

Lemma generation_runs_whatever_the_categories_witness :
  let run := @storage_generateAssignments reference_runtime zeros "root"
               no_easy_store in
  pool easy (db no_easy_store) = []
  /\ accepted "root" no_easy_store
  /\ map AssignmentSeed.isActive (assignmentSeeds (db run.2)) = [false; true].
Proof.
  assert (Hacc : accepted "root" no_easy_store).
  { unfold accepted, referred. simpl. split_and!.
    - by intros ?%Exists_nil.
    - by intros ?%Exists_nil.
    - unfold int4. lia.
    - elem_of_concrete. }
  split; [reflexivity|]. split; [exact Hacc|].
  destruct (@generation_runs_whatever_the_categories reference_runtime zeros
              "root" no_easy_store Hacc) as (_ & -> & _).
  reflexivity.
Defined.

(** C3, on the seed whose bytes are all [ff]: the first window reads
    [ffffffff] and the value drawn is 1, not below 1. *)
Theorem stream_reaches_one :
  substring 0 8 (seed_of ones) = "ffffffff"
  /\ (draw (seed_of ones) 0 == 1)%Q
  /\ ~ (draw (seed_of ones) 0 < 1)%Q.
Proof.
  split; [reflexivity|]. split; [reflexivity|].
  intros H. vm_compute in H. discriminate.
Qed.

(** On that seed the first index of the shuffle is past the end of the
    array: the array gets a hole, forming the teams throws, and the call
    ends with the new seed record stored but no team and no assignment. *)
Example value_one_breaks_the_shuffle :
  let run := @generateAssignments reference_runtime ones "admin" (sample_db 4) in
  run.1 = Throw TypeError
  /\ teams run.2 = [] /\ assignments run.2 = []
  /\ map AssignmentSeed.isActive (assignmentSeeds run.2) = [true].
Proof. vm_compute. split_and!; reflexivity. Qed.

(** C1, on four participants: the call returns and has formed a team of
    three and a team of one. *)
Theorem four_participants_leave_a_team_of_one :
  let run := @generateAssignments reference_runtime zeros "admin" (sample_db 4) in
  length (participants (sample_db 4)) = 4
  /\ run.1 = Normal (@new_seed_record reference_runtime zeros "admin" (sample_db 4))
  /\ team_sizes run.2 = [3; 1].
Proof. vm_compute. split_and!; reflexivity. Qed.

(** C2, on an easy challenge that needs a target: the assignment created
    for it has none. *)
Theorem easy_challenge_is_given_no_target :
  sample_challenge "e1" easy true ∈ pool easy (sample_db 2)
  /\ sample_easy_assignment ∈ assignments sample_run.2
  /\ Assignment.challengeId sample_easy_assignment = "e1"
  /\ Assignment.targetUserId sample_easy_assignment = None.
Proof. split_and!; [elem_of_concrete..|reflexivity|reflexivity]. Qed.

(** C4. Two calls with the same seed, on databases that give the same
    participants and the same four pools (whatever else they hold, and
    whoever the admins are), end the same way and leave the same teams with
    the same participants, missions and team challenges, and the same
    assignments: same participants, challenges, targets and statuses, in the
    same order.  Only the keys of the rows may differ. *)
Theorem generation_is_determined_by_the_seed `{RT : Runtime}
    entropy adminId1 adminId2 d1 d2 :
  participants d1 = participants d2 ->
  (forall difficulty, pool difficulty d1 = pool difficulty d2) ->
  let run1 := generateAssignments entropy adminId1 d1 in
  let run2 := generateAssignments entropy adminId2 d2 in
  same_completion run1.1 run2.1
  /\ team_compositions run1.2 = team_compositions run2.2
  /\ map values (assignments run1.2) = map values (assignments run2.2).
Proof.
  intros Hu Hp. cbv zeta. rewrite !generateAssignments_unfold.
  unfold new_seed_record. rewrite <- Hu, <- !Hp.
  pose proof (in_step_assignFromSeed (seed_of entropy) (participants d1)
                (pool easy d1) (pool medium d1) (pool hard d1) (pool team d1)
                (mkFrame (prepared entropy adminId1 d1) 0)
                (mkFrame (prepared entropy adminId2 d2) 0)
                (conj eq_refl (same_generation_prepared _ _ _ _ _))) as H.
  unfold withSeedIndex.
  destruct (assignFromSeed _ _ _ _ _ _ (mkFrame (prepared entropy adminId1 d1) 0))
    as [[[]|e1] f1'],
    (assignFromSeed _ _ _ _ _ _ (mkFrame (prepared entropy adminId2 d2) 0))
    as [[[]|e2] f2']; try done.
  - destruct H as (_ & _ & _ & Hc & Ha). by split_and!.
  - destruct H as (-> & _ & _ & _ & Hc & Ha). by split_and!.
Qed.

Lemma generation_is_determined_by_the_seed_witness :
  let run1 := @generateAssignments reference_runtime zeros "admin" (sample_db 2) in
  let run2 := @generateAssignments reference_runtime zeros "root" sample_db_later in
  same_completion run1.1 run2.1
  /\ team_compositions run1.2 = team_compositions run2.2
  /\ map values (assignments run1.2) = map values (assignments run2.2).
Proof.
  apply (@generation_is_determined_by_the_seed reference_runtime zeros
           "admin" "root" (sample_db 2) sample_db_later).
  - reflexivity.
  - intros []; reflexivity.
Defined.

(** The keys do differ in that example. *)
Example keys_differ_between_runs :
  map Team.id (teams (@generateAssignments reference_runtime zeros "admin"
                        (sample_db 2)).2) = ["1"]
  /\ map Team.id (teams (@generateAssignments reference_runtime zeros "root"
                           sample_db_later).2) = ["41"].
Proof. split; vm_compute; reflexivity. Qed.

(** ** The queries and updates of [DatabaseStorage] *)

Section FirstRow.
Context {A : Type} (P : A -> Prop) `{!forall x, Decision (P x)}.

Lemma head_filter_Some l x : head (filter P l) = Some x -> x ∈ l /\ P x.
Proof.
  intros E. apply head_Some_elem_of, list_elem_of_filter in E. tauto.
Qed.

Lemma head_filter_None l : head (filter P l) = None <-> Forall (fun x => ~ P x) l.
Proof.
  rewrite head_None. split.
  - intros E. apply Forall_forall. intros x Hx HP.
    assert (x ∈ filter P l) as Hf by (by apply list_elem_of_filter).
    rewrite E in Hf. by apply not_elem_of_nil in Hf.
  - intros Hall. by apply filter_none.
Qed.


End FirstRow.

(** X1. [getUser] returns normally and leaves the database as it is.  It
    returns [undefined] exactly when no user of the table has the key, and
    otherwise a user of the table that has the key. *)
Theorem getUser_found_iff id d :
  exists r, getUser id d = (Normal r, d)
    /\ (r = None <-> id ∉ map User.id (users d))
    /\ (forall u, r = Some u -> u ∈ users d /\ User.id u = id).
Proof.
  exists (head (filter (fun u => User.id u = id) (users d))).
  split; [done|]. split.
  - rewrite head_filter_None, Forall_forall. split.
    + intros Hnone (u & E & Hu)%list_elem_of_fmap. by apply (Hnone u).
    + intros Hnot u Hu E. apply Hnot, list_elem_of_fmap. by exists u.
  - intros u E. by apply head_filter_Some in E.
Qed.

Section Users.
Context `{RT : Runtime}.

Lemma createUser_unfold insertUser d :
  createUser insertUser d
  = let user :=
      User.mk (gen_random_uuid (uuids d)) (InsertUser.username insertUser)
        (InsertUser.password insertUser) (InsertUser.displayName insertUser)
        (default false (InsertUser.isAdmin insertUser)) in
    (Normal user,
     mkDb (users d ++ [user]) (challenges d) (teams d) (teamMembers d)
       (assignments d) (assignmentSeeds d) (auditLog d) (N.succ (uuids d))).
Proof. reflexivity. Qed.

End Users.



(** X3. A user created without [isAdmin], or with [isAdmin] false, is one
    more participant of the next generation, and a user created as admin
    is not: when the database accepts the insert of the user and then does
    not refuse the call of [generateAssignments], the seed record the call
    stores, which is the record it returns if it returns, counts the
    participants there were, plus the new user unless it is an admin. *)
Theorem created_user_takes_part `{RT : Runtime} insertUser entropy adminId s :
  gen_random_uuid (uuids (db s)) ∉ map User.id (users (db s)) ->
  InsertUser.username insertUser ∉ map User.username (users (db s)) ->
  let run :=
    storage_generateAssignments entropy adminId
      (onDb (createUser insertUser) s).2 in
  refused run.1 = false ->
  exists r,
    last (assignmentSeeds (db run.2)) = Some r
    /\ AssignmentSeed.participantCount r
       = length (participants (db s))
         + (if default false (InsertUser.isAdmin insertUser) then 0 else 1)
    /\ (forall r', run.1 = Returned r' -> r' = r).
Proof.
  intros _ _ run Href. subst run.
  destruct (storage_generateAssignments_ran _ _ _ Href) as (Ed & _ & Hr).
  rewrite Ed, generateAssignments_seeds, last_snoc.
  eexists. split; [reflexivity|]. split.
  - unfold onDb. rewrite createUser_unfold. simpl.
    unfold participants at 1; simpl. rewrite filter_app, length_app.
    f_equal. unfold filter at 1; simpl.
    by destruct (default false (InsertUser.isAdmin insertUser)).
  - intros r' Hr'%Hr. by apply generateAssignments_blocks in Hr' as [-> _].
Qed.

Lemma created_user_takes_part_witness :
  let run :=
    @storage_generateAssignments reference_runtime zeros "root"
      (onDb (@createUser reference_runtime
               (InsertUser.mk "alice" "secret" "Alice" None))
            (admin_store 2)).2 in
  exists r,
    last (assignmentSeeds (db run.2)) = Some r
    /\ AssignmentSeed.participantCount r = 2 + 1
    /\ (forall r', run.1 = Returned r' -> r' = r).
Proof.
  apply (@created_user_takes_part reference_runtime
           (InsertUser.mk "alice" "secret" "Alice" None) zeros "root"
           (admin_store 2)).
  - by_evaluation.
  - by_evaluation.
  - vm_compute. reflexivity.
Defined.

(** ** The bank of challenges *)

Lemma active_by_difficulty (l : list Challenge.t) :
  filter (fun c => Challenge.isActive c = true) l
  ≡ₚ filter (fun c => Challenge.difficulty c = easy
                      /\ Challenge.isActive c = true) l
     ++ filter (fun c => Challenge.difficulty c = medium
                         /\ Challenge.isActive c = true) l
     ++ filter (fun c => Challenge.difficulty c = hard
                         /\ Challenge.isActive c = true) l
     ++ filter (fun c => Challenge.difficulty c = team
                         /\ Challenge.isActive c = true) l.
Proof.
  induction l as [|c l IH]; [done|].
  rewrite !filter_cons.
  destruct (Challenge.isActive c) eqn:Ea, (Challenge.difficulty c) eqn:Ek;
    repeat case_decide; try (exfalso; intuition congruence);
    rewrite ?IH, <- ?app_comm_cons, <- ?Permutation_middle; done.
Qed.

(** X4. Every active challenge is in the answer of one category:
    what [getAllChallenges] returns is, up to the order, what
    [getChallengesByDifficulty] returns for [easy], [medium], [hard] and
    [team], put together. *)
Theorem getAllChallenges_by_difficulty d :
  exists all e m h t,
    getAllChallenges d = (Normal all, d)
    /\ getChallengesByDifficulty easy d = (Normal e, d)
    /\ getChallengesByDifficulty medium d = (Normal m, d)
    /\ getChallengesByDifficulty hard d = (Normal h, d)
    /\ getChallengesByDifficulty team d = (Normal t, d)
    /\ all ≡ₚ e ++ m ++ h ++ t.
Proof.
  eexists _, _, _, _, _. split_and!; [reflexivity..|].
  apply active_by_difficulty.
Qed.

Lemma createChallenge_unfold `{RT : Runtime} challenge d :
  createChallenge challenge d
  = let newChallenge :=
      Challenge.mk (gen_random_uuid (uuids d)) (InsertChallenge.title challenge)
        (InsertChallenge.description challenge)
        (InsertChallenge.difficulty challenge)
        (InsertChallenge.points challenge)
        (default false (InsertChallenge.needsTarget challenge))
        (default true (InsertChallenge.isActive challenge)) in
    (Normal newChallenge,
     mkDb (users d) (challenges d ++ [newChallenge]) (teams d) (teamMembers d)
       (assignments d) (assignmentSeeds d) (auditLog d) (N.succ (uuids d))).
Proof. reflexivity. Qed.

(** X5. [createChallenge] with [points] that are an [integer] of the
    database returns the new row, and the row joins the answer of
    [getChallengesByDifficulty] for its own difficulty, at the end, unless
    it was created with [isActive] false; the answers for the other
    difficulties do not change. *)
Theorem createChallenge_then_by_difficulty `{RT : Runtime} challenge d difficulty :
  int4 (InsertChallenge.points challenge) ->
  exists newChallenge d',
    createChallenge challenge d = (Normal newChallenge, d')
    /\ getChallengesByDifficulty difficulty d'
       = (Normal
            (pool difficulty d
             ++ if decide (InsertChallenge.difficulty challenge = difficulty
                           /\ InsertChallenge.isActive challenge ≠ Some false)
                then [newChallenge] else []), d')
    /\ getChallengesByDifficulty difficulty d = (Normal (pool difficulty d), d).
Proof.
  intros _. rewrite createChallenge_unfold. cbv zeta.
  eexists _, _. split; [reflexivity|]. split; [|done].
  unfold getChallengesByDifficulty, bind, get, ret. cbn [challenges].
  rewrite filter_app. unfold pool. do 3 f_equal.
  rewrite filter_cons, filter_nil. cbn [Challenge.difficulty Challenge.isActive].
  destruct (InsertChallenge.isActive challenge) as [[]|]; simpl;
    repeat case_decide; try done; exfalso; intuition congruence.
Qed.

Lemma createChallenge_then_by_difficulty_witness :
  exists newChallenge d',
    @createChallenge reference_runtime
      (InsertChallenge.mk "Selfie" "Au phare" easy 10 None None) (sample_db 2)
    = (Normal newChallenge, d')
    /\ getChallengesByDifficulty easy d'
       = (Normal (pool easy (sample_db 2) ++ [newChallenge]), d')
    /\ getChallengesByDifficulty easy (sample_db 2)
       = (Normal (pool easy (sample_db 2)), sample_db 2).
Proof.
  apply (@createChallenge_then_by_difficulty reference_runtime
           (InsertChallenge.mk "Selfie" "Au phare" easy 10 None None)
           (sample_db 2) easy).
  unfold int4. simpl. lia.
Defined.

(** Where an assignment of the table comes from: a participant and a
    challenge of the easy, medium or hard pool. *)
Lemma generated_assignment_origin `{RT : Runtime} entropy adminId d a :
  a ∈ assignments (generateAssignments entropy adminId d).2 ->
  exists u c difficulty,
    u ∈ participants d /\ c ∈ pool difficulty d /\ difficulty ≠ team
    /\ Assignment.userId a = User.id u
    /\ Assignment.challengeId a = Challenge.id c.
Proof.
  intros Ha.
  pose proof (generateAssignments_generated entropy adminId d) as Hall.
  rewrite Forall_forall in Hall.
  specialize (Hall (values a) (list_elem_of_fmap_2 _ _ _ Ha)).
  destruct Hall as [(u & c & Hu & Hc & E)|[(u & c & t & Hu & Hc & _ & E)
                                          |(u & c & t & Hu & Hc & _ & E)]];
    injection E as Eu Ec _ _.
  - by exists u, c, easy.
  - by exists u, c, medium.
  - by exists u, c, hard.
Qed.

(** The target an assignment of the table names is a participant. *)
Lemma generated_assignment_target `{RT : Runtime} entropy adminId d a t :
  a ∈ assignments (generateAssignments entropy adminId d).2 ->
  Assignment.targetUserId a = Some t ->
  exists u, u ∈ participants d /\ t = User.id u.
Proof.
  intros Ha Et.
  pose proof (generateAssignments_generated entropy adminId d) as Hall.
  rewrite Forall_forall in Hall.
  specialize (Hall (values a) (list_elem_of_fmap_2 _ _ _ Ha)).
  assert (forall p x, from_targeted (participants d) p x ->
            InsertAssignment.targetUserId x = Some t ->
            exists u, u ∈ participants d /\ t = User.id u) as Htargeted.
  { intros p x (u & c & t' & _ & _ & Ht & ->); simpl. intros ->.
    unfold target_for in Ht. destruct (Challenge.needsTarget c); [|done].
    destruct Ht as (u' & Hu' & _ & [= ->]). by exists u'. }
  destruct Hall as [(u & c & _ & _ & E)|[H|H]].
  - apply (f_equal InsertAssignment.targetUserId) in E. simpl in E. congruence.
  - by apply (Htargeted _ _ H).
  - by apply (Htargeted _ _ H).
Qed.



(** ** Joins *)

Section Joins.
Context {A B : Type}.

Lemma innerJoin_cons (a : A) l (r : list B) on :
  innerJoin (a :: l) r on
  = ((fun b => (a, b)) <$> filter (fun b => on a b) r) ++ innerJoin l r on.
Proof. reflexivity. Qed.

Lemma elem_of_innerJoin (l : list A) (r : list B) on a b :
  (a, b) ∈ innerJoin l r on <-> a ∈ l /\ b ∈ r /\ on a b = true.
Proof.
  unfold innerJoin. rewrite list_elem_of_bind. split.
  - intros (a' & Hin & Ha').
    apply list_elem_of_fmap in Hin as (b' & [= -> ->] & Hb').
    apply list_elem_of_filter in Hb' as [Hon Hb'].
    by apply Is_true_true in Hon.
  - intros (Ha & Hb & Hon). exists a. split; [|done].
    apply list_elem_of_fmap. exists b. split; [done|].
    apply list_elem_of_filter. split; [by apply Is_true_true|done].
Qed.

Lemma leftJoin_cons (a : A) l (r : list B) on :
  leftJoin (a :: l) r on
  = match filter (fun b => on a b) r with
    | [] => [(a, None)]
    | bs => (fun b => (a, Some b)) <$> bs
    end ++ leftJoin l r on.
Proof. reflexivity. Qed.

Lemma elem_of_leftJoin (l : list A) (r : list B) on a b :
  (a, b) ∈ leftJoin l r on
  <-> a ∈ l /\ match b with
               | Some b => b ∈ r /\ on a b = true
               | None => Forall (fun b => on a b = false) r
               end.
Proof.
  unfold leftJoin. rewrite list_elem_of_bind. split.
  - intros (a' & Hin & Ha').
    destruct (filter (fun b => on a' b) r) as [|b0 bs] eqn:E.
    + apply list_elem_of_singleton in Hin as [= <- ->]. split; [done|].
      apply Forall_forall. intros b Hb.
      destruct (on a b) eqn:Hon; [|done].
      assert (b ∈ filter (fun b => on a b) r) as Hf
        by (apply list_elem_of_filter; split; [by apply Is_true_true|done]).
      rewrite E in Hf. by apply not_elem_of_nil in Hf.
    + apply list_elem_of_fmap in Hin as (b' & [= <- ->] & Hb').
      rewrite <- E in Hb'. apply list_elem_of_filter in Hb' as [Hon Hb'].
      split; [done|]. split; [done|]. by apply Is_true_true in Hon.
  - intros (Ha & Hb). exists a. split; [|done]. destruct b as [b|].
    + destruct Hb as [Hb Hon].
      assert (b ∈ filter (fun b => on a b) r) as Hf
        by (apply list_elem_of_filter; split; [by apply Is_true_true|done]).
      destruct (filter (fun b => on a b) r) as [|b0 bs] eqn:E;
        [by apply not_elem_of_nil in Hf|].
      apply list_elem_of_fmap. by exists b.
    + rewrite filter_none; [apply list_elem_of_singleton; reflexivity|].
      eapply Forall_impl; [exact Hb|]. simpl. intros b ->. exact id.
Qed.

(** The one row of a table with a given key. *)
Lemma filter_key {K} `{EqDecision K} (f : B -> K) (r : list B) k x :
  NoDup (map f r) -> x ∈ r -> f x = k ->
  filter (fun y => bool_decide (k = f y)) r = [x].
Proof.
  intros Hnd Hx <-. induction r as [|y r IH]; [by apply not_elem_of_nil in Hx|].
  simpl in Hnd. apply NoDup_cons in Hnd as [Hy Hnd].
  destruct (decide (f x = f y)) as [E|Hne].
  - assert (x = y) as <-.
    { apply elem_of_cons in Hx as [->|Hx]; [done|]. exfalso. apply Hy.
      rewrite <- E. apply list_elem_of_fmap. by exists x. }
    rewrite filter_cons_True by (by apply bool_decide_pack). f_equal.
    apply filter_none, Forall_forall. intros z Hz Ez.
    apply bool_decide_unpack in Ez. apply Hy. rewrite Ez.
    apply list_elem_of_fmap. by exists z.
  - rewrite filter_cons_False by (intros Ez; by apply bool_decide_unpack in Ez).
    apply IH; [done|]. apply elem_of_cons in Hx as [->|Hx]; done.
Qed.

End Joins.

(** ** Teams *)

Lemma getTeamByUserId_unfold userId d :
  getTeamByUserId userId d
  = (Normal match memberships userId d with
            | [] => None
            | r :: _ =>
                Some (TeamWithMembers.mk r.1.2
                        (members_with_users (Team.id r.1.2) d))
            end, d).
Proof.
  unfold getTeamByUserId, memberships, members_with_users, bind, get; simpl.
  by destruct (filter _ _).
Qed.

Lemma elem_of_memberships userId d m t u :
  (m, t, u) ∈ memberships userId d
  <-> m ∈ teamMembers d /\ t ∈ teams d /\ u ∈ users d
      /\ TeamMember.userId m = userId
      /\ TeamMember.teamId m = Team.id t /\ User.id u = userId.
Proof.
  unfold memberships.
  rewrite list_elem_of_filter, !elem_of_innerJoin, !bool_decide_eq_true.
  simpl. split.
  - intros (E & (Hm & Ht & Et) & Hu & Eu). split_and!; congruence || done.
  - intros (Hm & Ht & Hu & E & Et & Eu). split_and!; congruence || done.
Qed.

Lemma elem_of_members_with_users teamId d m u :
  (m, u) ∈ members_with_users teamId d
  <-> m ∈ teamMembers d /\ u ∈ users d
      /\ TeamMember.teamId m = teamId /\ TeamMember.userId m = User.id u.
Proof.
  unfold members_with_users.
  rewrite list_elem_of_filter, elem_of_innerJoin, bool_decide_eq_true.
  simpl. tauto.
Qed.

(** X7. [getTeamByUserId] returns normally and leaves the database as it
    is.  It returns [undefined] exactly when no membership of the user
    refers to a team and to a user of the tables.  A team it returns is a
    row of the table of teams, the user is among the members returned,
    and every member returned is a membership of that team with the user
    it names. *)
Theorem getTeamByUserId_found_iff userId d :
  exists r, getTeamByUserId userId d = (Normal r, d)
    /\ (r = None <->
        ~ exists m t u, m ∈ teamMembers d /\ t ∈ teams d /\ u ∈ users d
            /\ TeamMember.userId m = userId
            /\ TeamMember.teamId m = Team.id t /\ User.id u = userId)
    /\ (forall x, r = Some x ->
          TeamWithMembers.team x ∈ teams d
          /\ userId ∈ map (fun mu => User.id mu.2) (TeamWithMembers.members x)
          /\ Forall (fun mu =>
                       mu.1 ∈ teamMembers d /\ mu.2 ∈ users d
                       /\ TeamMember.teamId mu.1 = Team.id (TeamWithMembers.team x)
                       /\ TeamMember.userId mu.1 = User.id mu.2)
                    (TeamWithMembers.members x)).
Proof.
  rewrite getTeamByUserId_unfold. eexists. split; [reflexivity|].
  destruct (memberships userId d) as [|[[m t] u] rows] eqn:E.
  - split; [|done]. split; [|done]. intros _ (m & t & u & H).
    apply elem_of_memberships in H. rewrite E in H.
    by apply not_elem_of_nil in H.
  - assert (Hrow : (m, t, u) ∈ memberships userId d) by (rewrite E; left).
    apply elem_of_memberships in Hrow as (Hm & Ht & Hu & Em & Et & Eu).
    split.
    { split; [done|]. intros H. exfalso. apply H. by exists m, t, u. }
    intros x [= <-]. simpl. split_and!.
    + done.
    + apply list_elem_of_fmap. exists (m, u). split; [done|].
      apply elem_of_members_with_users. split_and!; congruence || done.
    + apply Forall_forall. intros [m' u'] H'.
      by apply elem_of_members_with_users in H'.
Qed.

Lemma elem_of_concat {A} (x : A) (ls : list (list A)) :
  x ∈ concat ls <-> exists l, l ∈ ls /\ x ∈ l.
Proof.
  rewrite list_elem_of_In, in_concat. split; intros (l & H1 & H2); exists l;
    by rewrite ?list_elem_of_In in *.
Qed.

Lemma filter_pairs_left {A B} (P : A -> Prop) `{!forall a, Decision (P a)}
    (a : A) (l : list B) :
  filter (fun r : A * B => P r.1) ((fun b => (a, b)) <$> l)
  = if decide (P a) then (fun b => (a, b)) <$> l else [].
Proof.
  destruct (decide (P a)).
  - apply filter_all, Forall_fmap, Forall_true. done.
  - apply filter_none, Forall_fmap, Forall_true. done.
Qed.

(** With keys that identify the users, the second query of
    [getTeamByUserId] returns each membership of the team once. *)
Lemma members_with_users_of_team d teamId :
  NoDup (map User.id (users d)) ->
  (forall m, m ∈ teamMembers d -> TeamMember.teamId m = teamId ->
     TeamMember.userId m ∈ map User.id (users d)) ->
  map (fun mu => TeamMember.userId mu.1) (members_with_users teamId d)
  = members_of d teamId.
Proof.
  intros Hnd. unfold members_with_users, members_of.
  induction (teamMembers d) as [|m ms IH]; intros Hms; [done|].
  rewrite innerJoin_cons, filter_app, map_app, filter_cons.
  pose proof (filter_pairs_left (fun m' => TeamMember.teamId m' = teamId) m
    (filter (fun u => bool_decide (TeamMember.userId m = User.id u)) (users d)))
    as Hf.
  cbv beta in Hf. rewrite Hf. clear Hf.
  rewrite IH by (intros m' Hm'; apply Hms; by right).
  destruct (decide (TeamMember.teamId m = teamId)) as [E|Hne]; [|done].
  destruct (proj1 (list_elem_of_fmap _ _ _) (Hms m ltac:(left) E))
    as (u & Eu & Hu).
  by rewrite (filter_key User.id (users d) (TeamMember.userId m) u).
Qed.

Section AfterGeneration.
Context `{RT : Runtime}.

Lemma participants_NoDup d :
  NoDup (map User.id (users d)) -> NoDup (map User.id (participants d)).
Proof.
  intros Hnd. eapply sublist_NoDup; [exact Hnd|].
  apply fmap_sublist, sublist_filter.
Qed.

(** A call, returning or throwing, leaves the users and the bank as they
    are. *)
Lemma generateAssignments_keeps_bank entropy adminId d :
  users (generateAssignments entropy adminId d).2 = users d
  /\ challenges (generateAssignments entropy adminId d).2 = challenges d.
Proof.
  apply (generateAssignments_inv
    (fun d' => users d' = users d /\ challenges d' = challenges d));
    try (intros; intros d' Hd'; by split); done.
Qed.

(** The teams a call leaves have their mission still to be validated. *)
Lemma generateAssignments_missions_pending entropy adminId d :
  Forall (fun t => Team.identificationMissionValidated t = false)
         (teams (generateAssignments entropy adminId d).2).
Proof.
  apply (generateAssignments_inv
    (fun d' => Forall (fun t => Team.identificationMissionValidated t = false)
                      (teams d')));
    try (intros; intros d' Hd'; by split).
  - intros x d' Hd'. split; [|done]. simpl. apply Forall_app. split; [done|].
    by constructor.
  - by constructor.
Qed.

End AfterGeneration.

(** X8. After a returning generation every participant finds a team.
    With keys that identify the users, at least two participants, a team
    pool that is not empty and a seed none of whose windows reads
    [ffffffff], [getTeamByUserId] on the database the call leaves returns,
    for each participant, a team whose mission is not validated yet, whose
    challenge is one of the team pool, and whose members are one to three
    participants, the participant among them. *)
Theorem every_participant_finds_a_team `{RT : Runtime} entropy adminId d user :
  stream_below_one (seed_of entropy) ->
  NoDup (map User.id (users d)) ->
  2 <= length (participants d) ->
  pool team d ≠ [] ->
  user ∈ participants d ->
  let d' := (generateAssignments entropy adminId d).2 in
  exists r,
    getTeamByUserId (User.id user) d' = (Normal (Some r), d')
    /\ Team.identificationMissionValidated (TeamWithMembers.team r) = false
    /\ (exists c, c ∈ pool team d
          /\ Team.teamChallengeId (TeamWithMembers.team r) = Some (Challenge.id c))
    /\ 1 <= length (TeamWithMembers.members r) <= 3
    /\ user ∈ map snd (TeamWithMembers.members r)
    /\ Forall (fun mu => mu.2 ∈ participants d) (TeamWithMembers.members r).
Proof.
  intros Hseed Nu Lu Hteam Huser d'.
  pose proof (participants_NoDup d Nu) as Np.
  assert (Hothers : forall user, user ∈ participants d ->
            exists u, u ∈ participants d /\ User.id u ≠ User.id user)
    by (intros u _; by apply another_participant).
  destruct (generateAssignments_teams entropy adminId d Hseed Hteam Hothers)
    as (us & Hus & Hsnd & Htc).
  destruct (generateAssignments_keeps_bank entropy adminId d) as [Eu _].
  pose proof (generateAssignments_missions_pending entropy adminId d) as Hval.
  fold d' in Hsnd, Htc, Eu, Hval.
  assert (Hin_users : forall u, u ∈ participants d -> u ∈ users d)
    by (intros u [_ Hu]%list_elem_of_filter; done).
  assert (Hchunks : map (fun t => members_of d' (Team.id t)) (teams d')
                    = chunks3 (map User.id us)).
  { rewrite <- Hsnd. unfold team_compositions. by rewrite map_map. }
  assert (Hteams : forall t, t ∈ teams d' ->
            1 <= length (members_of d' (Team.id t)) <= 3
            /\ forall i, i ∈ members_of d' (Team.id t) ->
                 i ∈ map User.id (participants d)).
  { intros t Ht.
    assert (members_of d' (Team.id t) ∈ chunks3 (map User.id us)) as Hc
      by (rewrite <- Hchunks; by apply (list_elem_of_fmap_2
            (fun t => members_of d' (Team.id t)))).
    split.
    - by apply (proj1 (Forall_forall _ _) (chunks3_sizes (map User.id us))).
    - intros i Hi. rewrite <- Hus, <- (chunks3_concat (map User.id us)).
      apply elem_of_concat. by exists (members_of d' (Team.id t)). }
  assert (Hjoin : forall t, t ∈ teams d' ->
            map (fun mu => TeamMember.userId mu.1)
                (members_with_users (Team.id t) d')
            = members_of d' (Team.id t)).
  { intros t Ht. apply members_with_users_of_team; [by rewrite Eu|].
    intros m Hm Em. rewrite Eu.
    destruct (Hteams t Ht) as [_ Hids].
    destruct (proj1 (list_elem_of_fmap _ _ _)
                (Hids (TeamMember.userId m) ltac:(
                   apply list_elem_of_fmap; exists m; split; [done|];
                   by apply list_elem_of_filter)))
      as (p & Ep & Hp).
    apply list_elem_of_fmap. exists p. split; [done|by apply Hin_users]. }
  assert (exists m t, m ∈ teamMembers d' /\ t ∈ teams d'
            /\ TeamMember.teamId m = Team.id t
            /\ TeamMember.userId m = User.id user)
    as (m & t & Hm & Ht & Emt & Emu).
  { assert (User.id user ∈ concat (chunks3 (map User.id us))) as Hc.
    { rewrite chunks3_concat, Hus. by apply (list_elem_of_fmap_2 User.id). }
    rewrite <- Hchunks in Hc.
    apply elem_of_concat in Hc as (l & Hl & Hc).
    apply list_elem_of_fmap in Hl as (t & -> & Ht).
    apply list_elem_of_fmap in Hc as (m & Emu & Hm).
    apply list_elem_of_filter in Hm as [Emt Hm]. by exists m, t. }
  rewrite getTeamByUserId_unfold.
  destruct (memberships (User.id user) d') as [|[[m0 t0] u0] rows] eqn:E.
  { exfalso.
    assert ((m, t, user) ∈ memberships (User.id user) d') as Hrow.
    { apply elem_of_memberships. split_and!; [done..| |done|done|done].
      rewrite Eu. by apply Hin_users. }
    rewrite E in Hrow. by apply not_elem_of_nil in Hrow. }
  assert (Hrow : (m0, t0, u0) ∈ memberships (User.id user) d')
    by (rewrite E; left).
  apply elem_of_memberships in Hrow as (Hm0 & Ht0 & Hu0 & Em0 & Et0 & Eu0).
  destruct (Hteams t0 Ht0) as [Hsize Hids].
  eexists. split; [reflexivity|].
  cbn [TeamWithMembers.team TeamWithMembers.members fst snd]. split_and!.
  - by apply (proj1 (Forall_forall _ _) Hval).
  - rewrite Forall_forall in Htc.
    destruct (Htc (team_values t0, members_of d' (Team.id t0)))
      as (c & Hc & Ec); [|by exists c].
    by apply (list_elem_of_fmap_2
                (fun t => (team_values t, members_of d' (Team.id t)))).
  - rewrite <- (length_map (fun mu => TeamMember.userId mu.1)), Hjoin by done.
    lia.
  - rewrite <- (length_map (fun mu => TeamMember.userId mu.1)), Hjoin by done.
    lia.
  - apply list_elem_of_fmap. exists (m0, u0). split.
    + simpl. rewrite Eu in Hu0.
      apply (NoDup_fmap_eq User.id (users d)); [done| |done|done].
      by apply Hin_users.
    + apply elem_of_members_with_users. split_and!; congruence || done.
  - apply Forall_forall. intros [m' u'] Hmu. simpl.
    apply elem_of_members_with_users in Hmu as (Hm' & Hu' & Et' & Eu').
    destruct (proj1 (list_elem_of_fmap _ _ _)
                (Hids (TeamMember.userId m') ltac:(
                   apply list_elem_of_fmap; exists m'; split; [done|];
                   by apply list_elem_of_filter)))
      as (p & Ep & Hp).
    rewrite Eu in Hu'.
    assert (p = u') as <-; [|done].
    apply (NoDup_fmap_eq User.id (users d)); [done| |done|congruence].
    by apply Hin_users.
Qed.

Lemma every_participant_finds_a_team_witness :
  exists r,
    getTeamByUserId (User.id (sample_user "u3")) sample_generated
    = (Normal (Some r), sample_generated)
    /\ Team.identificationMissionValidated (TeamWithMembers.team r) = false
    /\ (exists c, c ∈ pool team (sample_db 4)
          /\ Team.teamChallengeId (TeamWithMembers.team r) = Some (Challenge.id c))
    /\ 1 <= length (TeamWithMembers.members r) <= 3
    /\ sample_user "u3" ∈ map snd (TeamWithMembers.members r)
    /\ Forall (fun mu => mu.2 ∈ participants (sample_db 4))
              (TeamWithMembers.members r).
Proof.
  apply (@every_participant_finds_a_team reference_runtime zeros "admin"
           (sample_db 4) (sample_user "u3")).
  - exact stream_below_one_zeros.
  - by_evaluation.
  - vm_compute. lia.
  - vm_compute. discriminate.
  - elem_of_concrete.
Defined.

Section JoinsOfUpdates.
Context {A B : Type}.

Lemma filter_fmap (f : A -> A) (P : A -> Prop) `{!forall x, Decision (P x)}
    (l : list A) :
  (forall x, P (f x) <-> P x) -> filter P (f <$> l) = f <$> filter P l.
Proof.
  intros Hf. induction l as [|x l IH]; [done|].
  rewrite fmap_cons, !filter_cons, IH.
  destruct (decide (P (f x))) as [H1|H1], (decide (P x)) as [H2|H2];
    try done; exfalso; first [by apply H2, Hf | by apply H1, Hf].
Qed.

(** An update of the right table that leaves the columns of the
    condition as they are, and one of the left table. *)
Lemma innerJoin_fmap_r (g : B -> B) (l : list A) (r : list B) on :
  (forall a b, on a (g b) = on a b) ->
  innerJoin l (g <$> r) on = (fun p => (p.1, g p.2)) <$> innerJoin l r on.
Proof.
  intros Hg. induction l as [|a l IH]; [done|].
  rewrite !innerJoin_cons, fmap_app, IH. f_equal. clear IH.
  induction r as [|b r IHr]; [done|].
  rewrite fmap_cons, !filter_cons, Hg.
  destruct (decide (on a b)); [|done]. by rewrite !fmap_cons, IHr.
Qed.

Lemma innerJoin_fmap_l (h : A -> A) (l : list A) (r : list B) on :
  (forall a b, on (h a) b = on a b) ->
  innerJoin (h <$> l) r on = (fun p => (h p.1, p.2)) <$> innerJoin l r on.
Proof.
  intros Hh. induction l as [|a l IH]; [done|].
  rewrite fmap_cons, !innerJoin_cons, fmap_app, IH. f_equal.
  rewrite <- list_fmap_compose.
  rewrite (list_filter_iff (fun b => on (h a) b) (fun b => on a b))
    by (intros b; by rewrite Hh).
  done.
Qed.

End JoinsOfUpdates.

Lemma memberships_validateTeamMission teamId userId d :
  memberships userId (validateTeamMission teamId d).2
  = (fun r => (r.1.1,
               if decide (Team.id r.1.2 = teamId)
               then validated_mission r.1.2 else r.1.2, r.2))
    <$> memberships userId d.
Proof.
  unfold memberships, validateTeamMission, modify. cbn [snd teams teamMembers users set_teams].
  set (upd := fun t => if decide (Team.id t = teamId)
                       then validated_mission t else t).
  change (map upd (teams d)) with (upd <$> teams d).
  rewrite (innerJoin_fmap_r upd).
  2: { intros m t. unfold upd. by destruct (decide _). }
  rewrite (innerJoin_fmap_l (fun p => (p.1, upd p.2))) by done.
  rewrite (filter_fmap (fun p => (p.1.1, upd p.1.2, p.2))
             (fun r => TeamMember.userId r.1.1 = userId)) by done.
  done.
Qed.

(** X9. [validateTeamMission] returns, and from then on [getTeamByUserId]
    answers every user as before, with the same members, except that a
    team with the given key is returned with its identification mission
    validated.  A second call changes nothing more, and the key of no
    team changes nothing at all. *)
Theorem validateTeamMission_then_getTeamByUserId teamId d :
  exists d',
    validateTeamMission teamId d = (Normal tt, d')
    /\ (forall userId, exists r,
          getTeamByUserId userId d = (Normal r, d)
          /\ getTeamByUserId userId d'
             = (Normal
                  ((fun x =>
                      TeamWithMembers.mk
                        (if decide (Team.id (TeamWithMembers.team x) = teamId)
                         then validated_mission (TeamWithMembers.team x)
                         else TeamWithMembers.team x)
                        (TeamWithMembers.members x)) <$> r), d'))
    /\ validateTeamMission teamId d' = (Normal tt, d')
    /\ (teamId ∉ map Team.id (teams d) -> d' = d).
Proof.
  exists (validateTeamMission teamId d).2. split; [reflexivity|]. split_and!.
  - intros userId. eexists. split; [apply getTeamByUserId_unfold|].
    rewrite getTeamByUserId_unfold, memberships_validateTeamMission.
    destruct (memberships userId d) as [|[[m t] u] rows]; [done|].
    cbn [fmap list_fmap option_fmap option_map fst snd
         TeamWithMembers.team TeamWithMembers.members].
    do 3 f_equal. by destruct (decide (Team.id t = teamId)).
  - unfold validateTeamMission, modify, set_teams; simpl. do 2 f_equal.
    rewrite map_map. apply map_ext. intros t.
    destruct (decide (Team.id t = teamId)) as [E|Hne]; simpl.
    + by rewrite decide_True.
    + by rewrite decide_False.
  - intros Hnot. unfold validateTeamMission, modify, set_teams; simpl.
    replace (map _ (teams d)) with (teams d); [by destruct d|].
    rewrite <- (map_id (teams d)) at 1. apply map_ext_in. intros t Ht.
    rewrite decide_False; [done|]. intros E. apply Hnot. rewrite <- E.
    apply list_elem_of_fmap. exists t. split; [done|].
    by apply list_elem_of_In.
Qed.

(** ** Assignments *)

Lemma getAssignmentsByUserId_unfold userId d :
  getAssignmentsByUserId userId d
  = (Normal (map (fun r => AssignmentView.mk r.1.1 r.1.2 r.2)
               (assignment_rows userId d)), d).
Proof. reflexivity. Qed.

Lemma elem_of_assignment_rows userId d a c u :
  (a, c, u) ∈ assignment_rows userId d
  <-> a ∈ assignments d /\ c ∈ challenges d
      /\ Assignment.challengeId a = Challenge.id c
      /\ Assignment.userId a = userId
      /\ match u with
         | Some u => u ∈ users d /\ Assignment.targetUserId a = Some (User.id u)
         | None => Forall (fun u => Assignment.targetUserId a ≠ Some (User.id u))
                          (users d)
         end.
Proof.
  unfold assignment_rows.
  rewrite list_elem_of_filter, elem_of_leftJoin, elem_of_innerJoin,
    bool_decide_eq_true.
  simpl. destruct u as [u|].
  - rewrite bool_decide_eq_true. tauto.
  - assert (Forall (fun u => bool_decide
                      (Assignment.targetUserId a = Some (User.id u)) = false)
                   (users d)
            <-> Forall (fun u => Assignment.targetUserId a ≠ Some (User.id u))
                       (users d)) as ->; [|tauto].
    apply Forall_iff. intros u. apply bool_decide_eq_false.
Qed.

(** With keys that identify the challenges and the users, and assignments
    that refer to a challenge and, if to a target, to a user of the
    tables, the query returns each assignment of the user once. *)
Lemma assignment_rows_assignments userId d :
  NoDup (map Challenge.id (challenges d)) ->
  NoDup (map User.id (users d)) ->
  Forall (fun a => Assignment.challengeId a ∈ map Challenge.id (challenges d))
         (assignments d) ->
  Forall (fun a => forall t, Assignment.targetUserId a = Some t ->
                     t ∈ map User.id (users d))
         (assignments d) ->
  map (fun r => r.1.1) (assignment_rows userId d)
  = filter (fun a => Assignment.userId a = userId) (assignments d).
Proof.
  intros Nc Nu. unfold assignment_rows.
  induction (assignments d) as [|a l IH]; intros Hc Ht; [done|].
  apply Forall_cons in Hc as [Hca Hc]. apply Forall_cons in Ht as [Hta Ht].
  apply list_elem_of_fmap in Hca as (c & Ec & Hcin).
  rewrite innerJoin_cons,
    (filter_key Challenge.id (challenges d) (Assignment.challengeId a) c)
    by done.
  cbn [fmap list_fmap app]. rewrite leftJoin_cons. cbn [fst].
  assert (exists u,
    match filter (fun u => bool_decide
                    (Assignment.targetUserId a = Some (User.id u))) (users d) with
    | [] => [(a, c, None)]
    | bs => (fun u => (a, c, Some u)) <$> bs
    end = [(a, c, u)]) as (u & ->).
  { destruct (Assignment.targetUserId a) as [t|] eqn:Et.
    - destruct (proj1 (list_elem_of_fmap _ _ _) (Hta t eq_refl)) as (u & Eu & Hu).
      exists (Some u).
      rewrite (filter_key (fun u => Some (User.id u)) (users d) (Some t) u);
        [done| |done|by rewrite Eu].
      rewrite (list_fmap_compose User.id Some). by apply (NoDup_fmap_2 Some).
    - exists None. rewrite filter_none; [done|].
      apply Forall_forall. intros u _ H. by apply bool_decide_unpack in H. }
  cbn [app]. rewrite !filter_cons. cbn [fst].
  destruct (decide (Assignment.userId a = userId)); cbn [map];
    by rewrite IH.
Qed.

(** X10. With keys that identify the challenges and the users, and
    assignments that refer to a challenge and, if to a target, to a user
    of the tables (the keys and references the schema declares),
    [getAssignmentsByUserId] returns the assignments of the user, each
    once and in the order of the table, each with the challenge it refers
    to, and with the user it names as target, or with none if it names
    none. *)
Theorem getAssignmentsByUserId_rows userId d :
  NoDup (map Challenge.id (challenges d)) ->
  NoDup (map User.id (users d)) ->
  Forall (fun a => Assignment.challengeId a ∈ map Challenge.id (challenges d))
         (assignments d) ->
  Forall (fun t => t ∈ map User.id (users d))
         (omap Assignment.targetUserId (assignments d)) ->
  exists rows,
    getAssignmentsByUserId userId d = (Normal rows, d)
    /\ map AssignmentView.assignment rows
       = filter (fun a => Assignment.userId a = userId) (assignments d)
    /\ Forall (fun v =>
                 AssignmentView.challenge v ∈ challenges d
                 /\ Challenge.id (AssignmentView.challenge v)
                    = Assignment.challengeId (AssignmentView.assignment v)
                 /\ User.id <$> AssignmentView.targetUser v
                    = Assignment.targetUserId (AssignmentView.assignment v)
                 /\ forall u, AssignmentView.targetUser v = Some u -> u ∈ users d)
              rows.
Proof.
  intros Nc Nu Hc Ht'. rewrite getAssignmentsByUserId_unfold.
  assert (Forall (fun a => forall t, Assignment.targetUserId a = Some t ->
                             t ∈ map User.id (users d)) (assignments d)) as Ht.
  { rewrite Forall_forall in Ht'. apply Forall_forall. intros a Ha t Et.
    apply Ht', list_elem_of_omap. by exists a. }
  eexists. split; [reflexivity|]. split.
  - rewrite map_map. cbn [AssignmentView.assignment].
    by apply assignment_rows_assignments.
  - apply Forall_fmap, Forall_forall. intros [[a c] u] Hrow. simpl.
    apply elem_of_assignment_rows in Hrow as (Ha & Hcin & Ec & _ & Hu).
    split_and!; [done..| |].
    + destruct u as [u|]; [by destruct Hu as [_ ->]|].
      destruct (Assignment.targetUserId a) as [t|] eqn:Et; [|done].
      rewrite Forall_forall in Ht. simpl in Hu. rewrite Forall_forall in Hu.
      destruct (proj1 (list_elem_of_fmap _ _ _) (Ht a Ha t Et)) as (u & -> & Hin).
      by destruct (Hu u Hin).
    + intros u' ->. by destruct Hu.
Qed.

Lemma getAssignmentsByUserId_rows_witness :
  exists rows,
    getAssignmentsByUserId "u3" sample_generated = (Normal rows, sample_generated)
    /\ map AssignmentView.assignment rows
       = filter (fun a => Assignment.userId a = "u3") (assignments sample_generated)
    /\ Forall (fun v =>
                 AssignmentView.challenge v ∈ challenges sample_generated
                 /\ Challenge.id (AssignmentView.challenge v)
                    = Assignment.challengeId (AssignmentView.assignment v)
                 /\ User.id <$> AssignmentView.targetUser v
                    = Assignment.targetUserId (AssignmentView.assignment v)
                 /\ forall u, AssignmentView.targetUser v = Some u ->
                      u ∈ users sample_generated)
              rows.
Proof.
  apply (getAssignmentsByUserId_rows "u3" sample_generated).
  - by_evaluation.
  - by_evaluation.
  - by_evaluation.
  - by_evaluation.
Defined.

Section Dashboard.
Context `{RT : Runtime}.

(** What the query of [getAssignmentsByUserId] returns after a call. *)
Lemma assignment_rows_after_generation entropy adminId d userId a c u :
  NoDup (map Challenge.id (challenges d)) ->
  (a, c, u) ∈ assignment_rows userId (generateAssignments entropy adminId d).2 ->
  Assignment.status a = not_started
  /\ Challenge.isActive c = true
  /\ Challenge.difficulty c ≠ team
  /\ User.id <$> u ≠ Some userId.
Proof.
  intros Nc Hrow.
  apply elem_of_assignment_rows in Hrow as (Ha & Hc & Ec & Eu & Hu).
  rewrite (proj2 (generateAssignments_keeps_bank entropy adminId d)) in Hc.
  pose proof (generateAssignments_generated entropy adminId d) as Hall.
  rewrite Forall_forall in Hall.
  specialize (Hall (values a) (list_elem_of_fmap_2 _ _ _ Ha)).
  destruct (generated_assignment_origin entropy adminId d a Ha)
    as (p & c' & difficulty & _ & Hc' & Hk & _ & Ec').
  apply list_elem_of_filter in Hc' as [[Hd Hactive] Hc'].
  assert (c' = c) as ->
    by (apply (NoDup_fmap_eq Challenge.id (challenges d)); congruence || done).
  split_and!.
  - by apply (generated_status _ _ _ _ _ Hall).
  - done.
  - by rewrite Hd.
  - destruct u as [u|]; [|done]. destruct Hu as [_ Et]. simpl.
    intros [= E]. apply (generated_target _ _ _ _ _ _ Hall Et).
    simpl. by rewrite E, Eu.
Qed.

End Dashboard.

(** X11. What a player's dashboard shows after a generation.  With keys
    that identify the challenges, on the database left by a call of
    [generateAssignments] that did not end on an error of the database
    (it returned, or threw a [TypeError]), every assignment
    [getAssignmentsByUserId] returns is not started, comes with an active
    challenge that is not a team challenge, and has a target other than
    the player, if any; so the dashboard keeps every one of them as an
    individual assignment and shows 0 completed and 0 points. *)
Theorem dashboard_after_generation `{RT : Runtime} entropy adminId s userId :
  NoDup (map Challenge.id (challenges (db s))) ->
  let run := storage_generateAssignments entropy adminId s in
  refused run.1 = false ->
  let d' := db run.2 in
  exists rows,
    getAssignmentsByUserId userId d' = (Normal rows, d')
    /\ Forall (fun v =>
                 Assignment.status (AssignmentView.assignment v) = not_started
                 /\ Challenge.isActive (AssignmentView.challenge v) = true
                 /\ Challenge.difficulty (AssignmentView.challenge v) ≠ team
                 /\ User.id <$> AssignmentView.targetUser v ≠ Some userId)
              rows
    /\ individualAssignments rows = rows
    /\ Stats.completed (stats rows) = 0
    /\ Stats.total (stats rows) = length rows
    /\ Stats.points (stats rows) = 0%Z.
Proof.
  intros Nc run Href d'. subst d' run.
  destruct (storage_generateAssignments_ran _ _ _ Href) as (-> & _).
  set (d := db s) in *. set (d' := (generateAssignments entropy adminId d).2).
  rewrite getAssignmentsByUserId_unfold.
  eexists. split; [reflexivity|].
  set (rows := map _ (assignment_rows userId d')).
  assert (Hrows : Forall (fun v =>
            Assignment.status (AssignmentView.assignment v) = not_started
            /\ Challenge.isActive (AssignmentView.challenge v) = true
            /\ Challenge.difficulty (AssignmentView.challenge v) ≠ team
            /\ User.id <$> AssignmentView.targetUser v ≠ Some userId) rows).
  { apply Forall_fmap, Forall_forall. intros [[a c] u] Hrow.
    by apply (assignment_rows_after_generation entropy adminId d userId). }
  assert (Hind : individualAssignments rows = rows).
  { apply filter_all. eapply Forall_impl; [exact Hrows|].
    simpl. by intros v (_ & _ & Hk & _). }
  assert (Hval : filter (fun a => Assignment.status (AssignmentView.assignment a)
                                  = validated) rows = []).
  { apply filter_none. eapply Forall_impl; [exact Hrows|].
    simpl. intros v (-> & _). done. }
  split_and!; [done|done|..]; unfold stats; cbn [Stats.completed Stats.total
    Stats.points]; by rewrite Hind, ?Hval.
Qed.

Lemma dashboard_after_generation_witness :
  let d' :=
    db (@storage_generateAssignments reference_runtime zeros "root"
          (admin_store 4)).2 in
  exists rows,
    getAssignmentsByUserId "u3" d' = (Normal rows, d')
    /\ Forall (fun v =>
                 Assignment.status (AssignmentView.assignment v) = not_started
                 /\ Challenge.isActive (AssignmentView.challenge v) = true
                 /\ Challenge.difficulty (AssignmentView.challenge v) ≠ team
                 /\ User.id <$> AssignmentView.targetUser v ≠ Some "u3")
              rows
    /\ individualAssignments rows = rows
    /\ Stats.completed (stats rows) = 0
    /\ Stats.total (stats rows) = length rows
    /\ Stats.points (stats rows) = 0%Z.
Proof.
  apply (@dashboard_after_generation reference_runtime zeros "root"
           (admin_store 4) "u3").
  - by_evaluation.
  - vm_compute. reflexivity.
Defined.

Lemma user_block_length allUsers e m h user rows :
  user_block allUsers e m h user rows ->
  length rows
  = Nat.min 2 (length e) + Nat.min 2 (length m) + Nat.min 2 (length h).
Proof.
  intros (ce & cm & ch & rm & rh & Hce & Hcm & Hch & Hrm & Hrh & ->).
  rewrite !length_app, length_map.
  rewrite <- (Forall2_length _ _ _ Hrm), <- (Forall2_length _ _ _ Hrh).
  rewrite (drawn_from_length_min _ _ Hce), (drawn_from_length_min _ _ Hcm),
    (drawn_from_length_min _ _ Hch).
  lia.
Qed.

(** X12. How many challenges a player's dashboard lists after a returning
    generation.  With keys that identify the users and the challenges, at
    least two participants, a team pool that is not empty and a seed none
    of whose windows reads [ffffffff], the dashboard of each participant
    counts as [total] two challenges of each of the easy, medium and hard
    pools, or the whole pool where it holds fewer than two. *)
Theorem dashboard_total_after_generation `{RT : Runtime} entropy adminId d user :
  stream_below_one (seed_of entropy) ->
  NoDup (map User.id (users d)) ->
  NoDup (map Challenge.id (challenges d)) ->
  2 <= length (participants d) ->
  pool team d ≠ [] ->
  user ∈ participants d ->
  let d' := (generateAssignments entropy adminId d).2 in
  exists rows,
    getAssignmentsByUserId (User.id user) d' = (Normal rows, d')
    /\ Stats.total (stats rows)
       = Nat.min 2 (length (pool easy d)) + Nat.min 2 (length (pool medium d))
         + Nat.min 2 (length (pool hard d)).
Proof.
  intros Hseed Nu Nc Lu Hteam Huser d'.
  pose proof (participants_NoDup d Nu) as Np.
  assert (Hin_users : forall u, u ∈ participants d -> u ∈ users d)
    by (intros u [_ Hu]%list_elem_of_filter; done).
  destruct (generateAssignments_returns entropy adminId d Hseed Hteam)
    as (_ & blocks & Evals & Hblocks).
  { intros u _. by apply another_participant. }
  destruct (blocks_of_user _ _ _ user (user_block_userId _ _ _ _) Np Hblocks
              Huser) as (u & rows & _ & Hrows & Hfilter).
  destruct (generateAssignments_keeps_bank entropy adminId d) as [Eus Ecs].
  fold d' in Evals, Eus, Ecs.
  rewrite getAssignmentsByUserId_unfold. eexists. split; [reflexivity|].
  unfold stats, individualAssignments. cbn [Stats.total].
  rewrite (filter_all (fun a => Challenge.difficulty (AssignmentView.challenge a)
                                ≠ team)).
  2: { apply Forall_fmap, Forall_forall. intros [[a c] t] Hrow. simpl.
       by destruct (assignment_rows_after_generation entropy adminId d _ a c t
                      Nc Hrow) as (_ & _ & Hk & _). }
  rewrite length_map, <- (length_map (fun r => r.1.1)),
    assignment_rows_assignments.
  - transitivity (length (filter
      (fun x => InsertAssignment.userId x = User.id user)
      (map values (assignments d')))).
    { by rewrite <- fmap_filter_comm, length_map. }
    rewrite Evals, Hfilter. by eapply user_block_length.
  - by rewrite Ecs.
  - by rewrite Eus.
  - apply Forall_forall. intros a Ha.
    destruct (generated_assignment_origin entropy adminId d a Ha)
      as (_ & c & k & _ & Hc & _ & _ & ->).
    rewrite Ecs. apply (list_elem_of_fmap_2 Challenge.id).
    by apply list_elem_of_filter in Hc as [_ Hc].
  - apply Forall_forall. intros a Ha t Et.
    destruct (generated_assignment_target entropy adminId d a t Ha Et)
      as (p & Hp & ->).
    rewrite Eus. by apply (list_elem_of_fmap_2 User.id), Hin_users.
Qed.

Lemma dashboard_total_after_generation_witness :
  exists rows,
    getAssignmentsByUserId (User.id (sample_user "u3")) sample_generated
    = (Normal rows, sample_generated)
    /\ Stats.total (stats rows)
       = Nat.min 2 (length (pool easy (sample_db 4)))
         + Nat.min 2 (length (pool medium (sample_db 4)))
         + Nat.min 2 (length (pool hard (sample_db 4))).
Proof.
  apply (@dashboard_total_after_generation reference_runtime zeros "admin"
           (sample_db 4) (sample_user "u3")).
  - exact stream_below_one_zeros.
  - by_evaluation.
  - by_evaluation.
  - vm_compute. lia.
  - vm_compute. discriminate.
  - elem_of_concrete.
Defined.

Lemma leftJoin_fmap_l {A B} (h : A -> A) (l : list A) (r : list B) on :
  (forall a b, on (h a) b = on a b) ->
  leftJoin (h <$> l) r on = (fun p => (h p.1, p.2)) <$> leftJoin l r on.
Proof.
  intros Hh. induction l as [|a l IH]; [done|].
  rewrite fmap_cons, !leftJoin_cons, fmap_app, IH. f_equal.
  rewrite (list_filter_iff (fun b => on (h a) b) (fun b => on a b))
    by (intros b; by rewrite Hh).
  destruct (filter _ r); [done|]. by rewrite <- !list_fmap_compose.
Qed.

Lemma assignment_rows_with_status assignmentId status userId d :
  assignment_rows userId
    (set_assignments
       (map (fun a => if decide (Assignment.id a = assignmentId)
                      then with_status status a else a)) d)
  = (fun r => (if decide (Assignment.id r.1.1 = assignmentId)
               then with_status status r.1.1 else r.1.1, r.1.2, r.2))
    <$> assignment_rows userId d.
Proof.
  unfold assignment_rows.
  cbn [assignments challenges users set_assignments].
  set (upd := fun a => if decide (Assignment.id a = assignmentId)
                       then with_status status a else a).
  change (map upd (assignments d)) with (upd <$> assignments d).
  assert (Hupd : forall a, Assignment.userId (upd a) = Assignment.userId a
            /\ Assignment.challengeId (upd a) = Assignment.challengeId a
            /\ Assignment.targetUserId (upd a) = Assignment.targetUserId a)
    by (intros a; unfold upd; by destruct (decide _)).
  rewrite (innerJoin_fmap_l upd).
  2: { intros a c. by rewrite (proj1 (proj2 (Hupd a))). }
  rewrite (leftJoin_fmap_l (fun p => (upd p.1, p.2))).
  2: { intros [a c] u. simpl. by rewrite (proj2 (proj2 (Hupd a))). }
  rewrite (filter_fmap (fun p => (upd p.1.1, p.1.2, p.2))
             (fun r => Assignment.userId r.1.1 = userId)).
  2: { intros [[a c] u]. simpl. by rewrite (proj1 (Hupd a)). }
  done.
Qed.

(** The rows of the query are those of the assignments, wherever the
    assignments are in their table. *)
Lemma assignment_rows_perm userId d d' :
  assignments d' ≡ₚ assignments d ->
  challenges d' = challenges d -> users d' = users d ->
  assignment_rows userId d' ≡ₚ assignment_rows userId d.
Proof.
  intros Ha Ec Eu. unfold assignment_rows, leftJoin, innerJoin.
  by rewrite Ec, Eu, Ha.
Qed.

Lemma with_status_no_row assignmentId status (rows : list Assignment.t) :
  assignmentId ∉ map Assignment.id rows ->
  map (fun a => if decide (Assignment.id a = assignmentId)
                then with_status status a else a) rows = rows.
Proof.
  intros Hnot. rewrite <- (map_id rows) at 2. apply map_ext_in. intros a Ha.
  rewrite decide_False; [done|]. intros E. apply Hnot. rewrite <- E.
  apply list_elem_of_fmap. exists a. split; [done|].
  by apply list_elem_of_In.
Qed.

(** X13. [updateAssignmentStatus] returns, and from then on
    [getAssignmentsByUserId] answers every user with the rows it answered
    before (in an order that is the database's), with the same challenges
    and targets, except that an assignment with the given key has the new
    status, whatever its status was.  The key of no assignment changes
    nothing. *)
Theorem updateAssignmentStatus_then_getAssignmentsByUserId
    `{PL : Placement} assignmentId status d :
  exists d',
    updateAssignmentStatus assignmentId status d = (Normal tt, d')
    /\ (forall userId, exists rows rows',
          getAssignmentsByUserId userId d = (Normal rows, d)
          /\ getAssignmentsByUserId userId d' = (Normal rows', d')
          /\ rows'
             ≡ₚ (fun v =>
                   AssignmentView.mk
                     (if decide (Assignment.id (AssignmentView.assignment v)
                                 = assignmentId)
                      then with_status status (AssignmentView.assignment v)
                      else AssignmentView.assignment v)
                     (AssignmentView.challenge v)
                     (AssignmentView.targetUser v)) <$> rows)
    /\ (assignmentId ∉ map Assignment.id (assignments d) -> d' = d).
Proof.
  exists (updateAssignmentStatus assignmentId status d).2.
  split; [reflexivity|]. split.
  - intros userId. eexists _, _.
    split; [apply getAssignmentsByUserId_unfold|].
    split; [apply getAssignmentsByUserId_unfold|].
    change (map ?f ?l) with (f <$> l).
    rewrite (assignment_rows_perm userId
               (set_assignments
                  (map (fun a => if decide (Assignment.id a = assignmentId)
                                 then with_status status a else a)) d)).
    + rewrite assignment_rows_with_status.
      by rewrite <- !list_fmap_compose.
    + unfold updateAssignmentStatus, modify. cbn [snd assignments set_assignments].
      case_decide as Hin; [apply placed_perm|].
      by rewrite with_status_no_row.
    + done.
    + done.
  - intros Hnot. unfold updateAssignmentStatus, modify, set_assignments; simpl.
    rewrite decide_False by done. by destruct d.
Qed.

(** ** The figures of the dashboard *)

Section Sums.
Context {A : Type} (f : A -> Z).

Lemma fold_left_sum_acc l acc :
  fold_left (fun sum a => (sum + f a)%Z) l acc
  = (acc + fold_left (fun sum a => (sum + f a)%Z) l 0)%Z.
Proof.
  revert acc. induction l as [|x l IH]; intros acc; simpl; [lia|].
  rewrite (IH (acc + f x)%Z), (IH (0 + f x)%Z). lia.
Qed.

Lemma fold_left_sum_cons x l :
  fold_left (fun sum a => (sum + f a)%Z) (x :: l) 0%Z
  = (f x + fold_left (fun sum a => (sum + f a)%Z) l 0)%Z.
Proof. cbn [fold_left]. rewrite fold_left_sum_acc. lia. Qed.

Lemma sum_filter_le (P : A -> Prop) `{!forall x, Decision (P x)} l :
  Forall (fun x => (0 <= f x)%Z) l ->
  (0 <= fold_left (fun sum a => (sum + f a)%Z) (filter P l) 0%Z
     <= fold_left (fun sum a => (sum + f a)%Z) l 0%Z)%Z.
Proof.
  induction 1 as [|x l Hx _ IH]; [simpl; lia|].
  rewrite filter_cons, fold_left_sum_cons.
  destruct (decide (P x)); [|lia]. rewrite fold_left_sum_cons. lia.
Qed.

Lemma filter_length_eq (P : A -> Prop) `{!forall x, Decision (P x)} l :
  length (filter P l) = length l -> filter P l = l.
Proof.
  induction l as [|x l IH]; [done|]. rewrite filter_cons.
  pose proof (length_filter P l) as Hle.
  destruct (decide (P x)); simpl; intros E; [|lia].
  f_equal. apply IH. lia.
Qed.

End Sums.

(** X14. The figures of the dashboard, for challenges with points that are
    not negative: the completed challenges are at most the total, which is
    at most the number of assignments; the points gained are between 0
    and the potential score, and they are the potential score once every
    challenge counted is completed. *)
Theorem stats_bounds assignments :
  Forall (fun v => (0 <= Challenge.points (AssignmentView.challenge v))%Z)
         assignments ->
  let s := stats assignments in
  Stats.completed s <= Stats.total s <= length assignments
  /\ (0 <= Stats.points s <= Stats.potentialPoints s)%Z
  /\ (Stats.completed s = Stats.total s ->
      Stats.points s = Stats.potentialPoints s).
Proof.
  intros Hpoints s. subst s. unfold stats.
  cbn [Stats.completed Stats.total Stats.points Stats.potentialPoints].
  set (individual := individualAssignments assignments).
  assert (Hind : Forall (fun v => (0 <= Challenge.points
                                          (AssignmentView.challenge v))%Z)
                        individual).
  { apply Forall_forall. intros v Hv. rewrite Forall_forall in Hpoints.
    apply Hpoints. by apply list_elem_of_filter in Hv as [_ Hv]. }
  split_and!.
  - apply length_filter.
  - apply length_filter.
  - by apply (sum_filter_le (fun v => Challenge.points (AssignmentView.challenge v))).
  - by apply (sum_filter_le (fun v => Challenge.points (AssignmentView.challenge v))).
  - intros E. by rewrite (filter_length_eq _ _ E).
Qed.

Lemma stats_bounds_witness :
  let s := stats
    [ AssignmentView.mk (Assignment.mk "7" "u0" "e1" None validated)
        (sample_challenge "e1" easy true) None;
      AssignmentView.mk (Assignment.mk "9" "u0" "m1" (Some "u1") in_progress)
        (sample_challenge "m1" medium true) (Some (sample_user "u1")) ] in
  Stats.completed s <= Stats.total s <= 2
  /\ (0 <= Stats.points s <= Stats.potentialPoints s)%Z
  /\ (Stats.completed s = Stats.total s ->
      Stats.points s = Stats.potentialPoints s).
Proof.
  apply (stats_bounds
    [ AssignmentView.mk (Assignment.mk "7" "u0" "e1" None validated)
        (sample_challenge "e1" easy true) None;
      AssignmentView.mk (Assignment.mk "9" "u0" "m1" (Some "u1") in_progress)
        (sample_challenge "m1" medium true) (Some (sample_user "u1")) ]).
  by_evaluation.
Defined.

(** ** The current seed *)

Section CurrentSeed.
Context `{RT : Runtime} `{OB : Ordering}.

Lemma getCurrentSeed_unfold d :
  getCurrentSeed d
  = (Normal (head (by_generatedAt_desc
                     (filter (fun r => AssignmentSeed.isActive r = true)
                             (assignmentSeeds d)))), d).
Proof.
  unfold getCurrentSeed, bind, get, ret. do 2 f_equal. by destruct (by_generatedAt_desc _).
Qed.

(** The active rows of the seed table after a call: the new record. *)
Lemma generateAssignments_active entropy adminId d :
  filter (fun r => AssignmentSeed.isActive r = true)
         (assignmentSeeds (generateAssignments entropy adminId d).2)
  = [new_seed_record entropy adminId d].
Proof.
  rewrite generateAssignments_seeds, filter_app.
  rewrite filter_none by (by apply Forall_fmap, Forall_true).
  done.
Qed.

Lemma generateAssignments_returned entropy adminId d r :
  (generateAssignments entropy adminId d).1 = Normal r ->
  r = new_seed_record entropy adminId d.
Proof.
  rewrite generateAssignments_unfold.
  destruct (withSeedIndex _ _) as [[[]|e] d']; simpl; congruence.
Qed.

Lemma verifySeed_stored seedHash d :
  (exists r, r ∈ assignmentSeeds d /\ AssignmentSeed.seedHash r = seedHash) ->
  verifySeed seedHash d = (Normal true, d).
Proof.
  intros (r & Hr & E). unfold verifySeed, bind, get.
  destruct (filter _ (assignmentSeeds d)) as [|r' rows] eqn:Hrows; [|done].
  assert (r ∈ filter (fun r => AssignmentSeed.seedHash r = seedHash)
                     (assignmentSeeds d)) as Hf
    by (by apply list_elem_of_filter).
  rewrite Hrows in Hf. by apply not_elem_of_nil in Hf.
Qed.

(** The hash of a call is accepted on the database the call leaves. *)
Lemma verifySeed_accepts_new_hash entropy adminId d :
  verifySeed (sha256_hex (seed_of entropy)) (generateAssignments entropy adminId d).2
  = (Normal true, (generateAssignments entropy adminId d).2).
Proof.
  apply verifySeed_stored. exists (new_seed_record entropy adminId d).
  split; [|done]. rewrite generateAssignments_seeds. apply elem_of_app.
  right. left.
Qed.

End CurrentSeed.

(** X15. [getCurrentSeed] returns normally and leaves the database as it
    is, however the database orders rows of the same instant.  It returns
    [undefined] exactly when no seed record is active, and otherwise an
    active record of the table. *)
Theorem getCurrentSeed_active `{OB : Ordering} d :
  exists r, getCurrentSeed d = (Normal r, d)
    /\ (r = None <->
        Forall (fun s => AssignmentSeed.isActive s ≠ true) (assignmentSeeds d))
    /\ (forall s, r = Some s ->
          s ∈ assignmentSeeds d /\ AssignmentSeed.isActive s = true).
Proof.
  rewrite getCurrentSeed_unfold. eexists. split; [reflexivity|].
  set (active := filter _ (assignmentSeeds d)).
  pose proof (by_generatedAt_desc_perm active) as Hperm. split.
  - rewrite head_None, <- Permutation_nil_r, Hperm, Permutation_nil_r.
    unfold active. rewrite <- head_None. apply head_filter_None.
  - intros s Hs. apply head_Some_elem_of in Hs. rewrite Hperm in Hs.
    apply list_elem_of_filter in Hs. tauto.
Qed.

(** X16. After a call of [generateAssignments] that did not end on an
    error of the database (it returned, or threw a [TypeError]),
    [getCurrentSeed] returns the record of that call: its seed is the
    hexadecimal text of the 128 bytes drawn, its hash the digest of that
    text, its count the number of users who are not admins, its author the
    admin of the call.  It is the record the call returned, if it
    returned. *)
Theorem getCurrentSeed_after_generateAssignments
    `{RT : Runtime} `{OB : Ordering} entropy adminId s :
  let run := storage_generateAssignments entropy adminId s in
  refused run.1 = false ->
  exists r,
    getCurrentSeed (db run.2) = (Normal (Some r), db run.2)
    /\ AssignmentSeed.seed r = toString_hex (randomBytes entropy 128)
    /\ AssignmentSeed.seedHash r = sha256_hex (AssignmentSeed.seed r)
    /\ AssignmentSeed.participantCount r
       = length (filter (fun u => User.isAdmin u = false) (users (db s)))
    /\ AssignmentSeed.generatedBy r = adminId
    /\ AssignmentSeed.isActive r = true
    /\ (forall r', run.1 = Returned r' -> r' = r).
Proof.
  intros run Href. subst run.
  destruct (storage_generateAssignments_ran _ _ _ Href) as (Ed & _ & Hr).
  exists (new_seed_record entropy adminId (db s)).
  split_and!; try done.
  - rewrite getCurrentSeed_unfold, Ed, generateAssignments_active.
    by rewrite (proj1 (Permutation_singleton_r _ _)
                  (by_generatedAt_desc_perm
                     [new_seed_record entropy adminId (db s)])).
  - intros r' Hr'%Hr. by apply generateAssignments_returned.
Qed.

Lemma getCurrentSeed_after_generateAssignments_witness :
  let run := @storage_generateAssignments reference_runtime zeros "root"
               (admin_store 2) in
  exists r,
    getCurrentSeed (db run.2) = (Normal (Some r), db run.2)
    /\ AssignmentSeed.seed r = toString_hex (randomBytes zeros 128)
    /\ AssignmentSeed.seedHash r = sha256_hex (AssignmentSeed.seed r)
    /\ AssignmentSeed.participantCount r = 2
    /\ AssignmentSeed.generatedBy r = "root"
    /\ AssignmentSeed.isActive r = true
    /\ (forall r', run.1 = Returned r' -> r' = r).
Proof.
  apply (@getCurrentSeed_after_generateAssignments reference_runtime
           reference_ordering zeros "root" (admin_store 2)).
  vm_compute. reflexivity.
Defined.

(** A stored hash stays stored across a call, however the call ends. *)
Lemma storage_generateAssignments_keeps_hashes `{RT : Runtime}
    entropy adminId s seedHash :
  (exists r, r ∈ assignmentSeeds (db s) /\ AssignmentSeed.seedHash r = seedHash) ->
  exists r, r ∈ assignmentSeeds (db (storage_generateAssignments entropy adminId s).2)
            /\ AssignmentSeed.seedHash r = seedHash.
Proof.
  intros (r & Hr & E).
  destruct (refused (storage_generateAssignments entropy adminId s).1) eqn:Href.
  - unfold storage_generateAssignments in *.
    repeat case_decide; simpl in *;
      try (by exists r);
      try (exists (deactivate r); split; [|done];
           by apply (list_elem_of_fmap_2 deactivate)).
    by destruct (generateAssignments _ _ _) as [[?|?] ?].
  - rewrite storage_generateAssignments_seeds by done.
    exists (deactivate r). split; [|done].
    apply elem_of_app. left. by apply (list_elem_of_fmap_2 deactivate).
Qed.

Lemma storage_generate_all_keeps_hashes `{RT : Runtime} calls s seedHash :
  (exists r, r ∈ assignmentSeeds (db s) /\ AssignmentSeed.seedHash r = seedHash) ->
  exists r, r ∈ assignmentSeeds (db (storage_generate_all calls s).2)
            /\ AssignmentSeed.seedHash r = seedHash.
Proof.
  intros Hs. induction calls as [|call calls IH] using rev_ind; [done|].
  rewrite storage_generate_all_snoc. cbn [snd].
  by apply storage_generateAssignments_keeps_hashes.
Qed.

(** X17. A hash that [generateAssignments] has stored is accepted by
    [verifySeed] from then on: after the call that stored it (a call that
    did not end on an error of the database), and after any calls that
    follow, however they end, which deactivate its record but do not
    remove it. *)
Theorem verifySeed_after_generateAssignments `{RT : Runtime}
    entropy adminId calls s :
  let run := storage_generateAssignments entropy adminId s in
  refused run.1 = false ->
  let d' := db (storage_generate_all calls run.2).2 in
  verifySeed (sha256_hex (seed_of entropy)) d' = (Normal true, d').
Proof.
  intros run Href d'. apply verifySeed_stored, storage_generate_all_keeps_hashes.
  exists (new_seed_record entropy adminId (db s)). split; [|done].
  subst run. rewrite storage_generateAssignments_seeds by done.
  apply elem_of_app. right. left.
Qed.

Lemma verifySeed_after_generateAssignments_witness :
  let run := @storage_generateAssignments reference_runtime zeros "root"
               (admin_store 2) in
  let d' :=
    db (@storage_generate_all reference_runtime
          [(ones, "root"); (ones, "admin-1")] run.2).2 in
  verifySeed (@sha256_hex reference_runtime (seed_of zeros)) d' = (Normal true, d').
Proof.
  apply (@verifySeed_after_generateAssignments reference_runtime zeros "root"
           [(ones, "root"); (ones, "admin-1")] (admin_store 2)).
  vm_compute. reflexivity.
Defined.

(** ** The routes of the generation and of the seed *)

Section RoutesFacts.
Context `{RT : Runtime}.


(** With an [adminId] the handler calls [generateAssignments]: the store
    is the one that call leaves, and the answer is its record or the
    error 500. *)
Lemma post_assignments_generate_runs entropy adminId s :
  adminId ≠ "" ->
  post_assignments_generate entropy (Some adminId) s
  = (match (storage_generateAssignments entropy adminId s).1 with
     | Returned seedRecord =>
         Json (GenerateAnswer.mk "Assignations générées avec succès"
                 (AssignmentSeed.seedHash seedRecord)
                 (AssignmentSeed.participantCount seedRecord))
     | Failed _ => Status 500 "Erreur lors de la génération des assignations"
     end, (storage_generateAssignments entropy adminId s).2).
Proof.
  intros Hne. unfold post_assignments_generate, falsy.
  rewrite bool_decide_eq_false_2 by done. cbn [default from_option id].
  by destruct (storage_generateAssignments entropy adminId s) as [[r|e] s'].
Qed.

End RoutesFacts.



(** X19. After an answer 200 of [POST /api/assignments/generate], the
    answer carries the hash of the seed of that request and the number of
    users who are not admins, [GET /api/seed/current] answers that hash
    and that number, and [POST /api/seed/verify] accepts that hash. *)
Theorem generated_seed_is_current_and_verifies
    `{RT : Runtime} `{OB : Ordering} entropy adminId s body :
  let answer := post_assignments_generate entropy adminId s in
  answer.1 = Json body ->
  body = GenerateAnswer.mk "Assignations générées avec succès"
           (sha256_hex (toString_hex (randomBytes entropy 128)))
           (length (filter (fun u => User.isAdmin u = false) (users (db s))))
  /\ (get_seed_current (db answer.2)).1
     = Json (CurrentSeedAnswer.mk (GenerateAnswer.seedHash body)
               (GenerateAnswer.participantCount body))
  /\ (post_seed_verify (GenerateAnswer.seedHash body) (db answer.2)).1
     = Json true.
Proof.
  intros answer Hbody. subst answer.
  destruct (falsy adminId) eqn:Hf.
  { unfold post_assignments_generate in Hbody. by rewrite Hf in Hbody. }
  destruct adminId as [id|]; [|done]. simpl in Hf.
  apply bool_decide_eq_false in Hf.
  rewrite post_assignments_generate_runs in Hbody |- * by done.
  cbn [fst snd] in *.
  destruct (storage_generateAssignments entropy id s).1 as [r|e] eqn:E; [|done].
  injection Hbody as <-.
  apply storage_generateAssignments_returned in E as (_ & Hr & Ed).
  apply generateAssignments_returned in Hr as ->. rewrite Ed.
  cbn [GenerateAnswer.seedHash GenerateAnswer.participantCount].
  split_and!.
  - done.
  - unfold get_seed_current, handle, bind.
    rewrite getCurrentSeed_unfold, generateAssignments_active.
    by rewrite (proj1 (Permutation_singleton_r _ _)
                  (by_generatedAt_desc_perm [new_seed_record entropy id (db s)])).
  - unfold post_seed_verify, handle, bind.
    change (AssignmentSeed.seedHash (new_seed_record entropy id (db s)))
      with (sha256_hex (seed_of entropy)).
    by rewrite (verifySeed_accepts_new_hash entropy id (db s)).
Qed.

Lemma generated_seed_is_current_and_verifies_witness :
  let answer :=
    @post_assignments_generate reference_runtime zeros (Some "root")
      (admin_store 4) in
  let body :=
    GenerateAnswer.mk "Assignations générées avec succès"
      (@sha256_hex reference_runtime (toString_hex (randomBytes zeros 128))) 4 in
  answer.1 = Json body
  /\ (get_seed_current (db answer.2)).1
     = Json (CurrentSeedAnswer.mk (GenerateAnswer.seedHash body) 4)
  /\ (post_seed_verify (GenerateAnswer.seedHash body) (db answer.2)).1
     = Json true.
Proof.
  split; [vm_compute; reflexivity|].
  apply (@generated_seed_is_current_and_verifies reference_runtime
           reference_ordering zeros (Some "root") (admin_store 4)
           (GenerateAnswer.mk "Assignations générées avec succès"
              (@sha256_hex reference_runtime (toString_hex (randomBytes zeros 128)))
              4)).
  vm_compute. reflexivity.
Defined.

(** ** The audit log *)

Section Audit.
Context `{RT : Runtime}.

(** The statements between the seed record and the audit entry leave the
    audit log as it is. *)
Lemma auditLog_after_call entropy adminId d :
  auditLog (generateAssignments entropy adminId d).2
  = match (generateAssignments entropy adminId d).1 with
    | Normal _ =>
        auditLog d
        ++ [AuditLogEntry.mk
              (gen_random_uuid
                 (uuids (withSeedIndex
                           (assignFromSeed (seed_of entropy) (participants d)
                              (pool easy d) (pool medium d) (pool hard d)
                              (pool team d))
                           (prepared entropy adminId d)).2))
              generate_assignments adminId
              ("Assignations générées pour " +:+ pretty (length (participants d))
                 +:+ " participants")
              (Some (sha256_hex (seed_of entropy)))]
    | Throw _ => auditLog d
    end.
Proof.
  rewrite generateAssignments_unfold.
  pose proof (stable_withSeedIndex (fun d' => auditLog d' = auditLog d) _
    (stable_assignFromSeed (fun d' => auditLog d' = auditLog d)
       ltac:(by intros x d' Hd') ltac:(by intros t u d' Hd')
       (participants d) (pool easy d) (pool medium d) (pool hard d)
       ltac:(by intros x _ d' Hd') (seed_of entropy) (pool team d))
    (prepared entropy adminId d) eq_refl) as [Hbody _].
  destruct (withSeedIndex _ _) as [[[]|e] d']; simpl in *; [|done].
  by rewrite Hbody.
Qed.

End Audit.

(** X20. A returning call of [generateAssignments] adds one entry to the
    audit log, and a throwing call adds none, though it has emptied the
    tables and stored its seed: [getAuditLog] then returns the entries
    there were and, for a returning call, one more, of the action
    [generate_assignments], with the admin of the call, the number of
    participants in its details and the hash of the record returned. *)
Theorem generateAssignments_audit `{RT : Runtime} `{OB : Ordering}
    entropy adminId d :
  let run := generateAssignments entropy adminId d in
  exists log,
    getAuditLog run.2 = (Normal log, run.2)
    /\ match run.1 with
       | Normal seedRecord =>
           exists entry,
             log ≡ₚ auditLog d ++ [entry]
             /\ AuditLogEntry.action entry = generate_assignments
             /\ AuditLogEntry.adminId entry = adminId
             /\ AuditLogEntry.details entry
                = "Assignations générées pour "
                  +:+ pretty (length (filter (fun u => User.isAdmin u = false)
                                             (users d)))
                  +:+ " participants"
             /\ AuditLogEntry.seedHash entry
                = Some (AssignmentSeed.seedHash seedRecord)
       | Throw _ => log ≡ₚ auditLog d
       end.
Proof.
  intros run. subst run.
  exists (by_timestamp_desc (auditLog (generateAssignments entropy adminId d).2)).
  split; [reflexivity|].
  pose proof (auditLog_after_call entropy adminId d) as Hlog.
  destruct (generateAssignments entropy adminId d).1 as [r|e] eqn:E.
  - eexists. split; [by rewrite by_timestamp_desc_perm, Hlog|].
    by rewrite (generateAssignments_returned _ _ _ _ E).
  - by rewrite by_timestamp_desc_perm, Hlog.
Qed.

(** ** The stream and the bytes of the seed *)

Lemma substring_toString_hex i n buf :
  substring (2 * i) (2 * n) (toString_hex buf) = toString_hex (take n (drop i buf)).
Proof.
  revert buf. induction i as [|i IH]; intros buf.
  - rewrite drop_0. revert buf. induction n as [|n IHn]; intros buf.
    + by destruct buf.
    + destruct buf as [|b buf]; [done|].
      replace (2 * S n) with (S (S (2 * n))) by lia.
      cbn [toString_hex take substring]. by rewrite <- IHn.
  - destruct buf as [|b buf].
    + rewrite drop_nil, take_nil. simpl. by destruct (i + S (i + 0)), (2 * n).
    + replace (2 * S i) with (S (S (2 * i))) by lia.
      cbn [toString_hex drop substring]. apply IH.
Qed.

Lemma digit_value_of_byte (b : byte) :
  digit_value (hex_digit (Byte.to_N b / 16)) = Some (Z.of_N (Byte.to_N b / 16))
  /\ digit_value (hex_digit (Byte.to_N b mod 16))
     = Some (Z.of_N (Byte.to_N b mod 16)).
Proof. destruct b; vm_compute; done. Qed.

Lemma parse_digits_byte acc b buf :
  parse_digits acc (toString_hex (b :: buf))
  = parse_digits (256 * acc + Z.of_N (Byte.to_N b)) (toString_hex buf).
Proof.
  destruct (digit_value_of_byte b) as [Hhi Hlo].
  cbn [toString_hex parse_digits]. rewrite Hhi, Hlo. f_equal.
  pose proof (N.div_mod (Byte.to_N b) 16 ltac:(done)). lia.
Qed.

(** X21. The stream of [seededRandom] repeats after 32 values: on the seed
    of a call, 256 hexadecimal digits read 8 at a time, the value of rank
    [k + 32] is the value of rank [k]. *)
Theorem stream_has_period_32 entropy k :
  draw (seed_of entropy) (k + 32) = draw (seed_of entropy) k.
Proof.
  rewrite !draw_eq, (seededRandom_value_mod _ (8 * (k + 32))),
    (seededRandom_value_mod _ (8 * k)), length_seed_of.
  f_equal. replace (8 * (k + 32)) with (8 * k + 1 * 256) by lia.
  apply Nat.Div0.mod_add.
Qed.

(** X22. The values of the stream are the bytes drawn for the seed, four
    at a time: writing the bytes in hexadecimal and reading a window of 8
    digits back gives the number the four bytes make, most significant
    first, and the value of rank [k] is that number, for the bytes from
    [4 * (k mod 32)] on, over [0xffffffff]. *)
Theorem draw_reads_four_bytes entropy k :
  let byte_at i := Z.of_N (Byte.to_N (entropy (4 * (k mod 32) + i))) in
  draw (seed_of entropy) k
  = ((16777216 * byte_at 0%nat + 65536 * byte_at 1%nat
        + 256 * byte_at 2%nat + byte_at 3%nat)%Z
       # 4294967295)%Q.
Proof.
  intros byte_at. rewrite draw_eq.
  unfold seededRandom_value, seededRandom. cbn [fst].
  rewrite length_seed_of.
  assert (Hj : k mod 32 < 32) by (apply Nat.mod_upper_bound; lia).
  assert (E : substring ((8 * k) mod 256) 8 (seed_of entropy)
              = toString_hex (map entropy (seq (4 * (k mod 32)) 4))).
  { replace ((8 * k) mod 256) with (2 * (4 * (k mod 32))).
    2: { change 256 with (8 * 32). rewrite Nat.Div0.mul_mod_distr_l. lia. }
    etrans;
      [exact (substring_toString_hex (4 * (k mod 32)) 4 (randomBytes entropy 128))|].
    unfold randomBytes.
    change (map entropy (seq 0 128)) with (entropy <$> seq 0 128).
    rewrite <- fmap_drop, <- fmap_take, drop_seq, take_seq.
    by replace (Nat.min 4 (128 - 4 * (k mod 32))) with 4 by lia. }
  rewrite E. cbn [seq map]. unfold parseInt16. rewrite !parse_digits_byte.
  cbn [toString_hex parse_digits]. subst byte_at. cbv beta.
  rewrite Nat.add_0_r.
  replace (4 * (k mod 32) + 1) with (S (4 * (k mod 32))) by lia.
  replace (4 * (k mod 32) + 2) with (S (S (4 * (k mod 32)))) by lia.
  replace (4 * (k mod 32) + 3) with (S (S (S (4 * (k mod 32))))) by lia.
  f_equal. lia.
Qed.

(** ** One team per participant *)

Lemma members_by_team (ts : list Team.t) (ms : list TeamMember.t) :
  NoDup (map Team.id ts) ->
  Forall (fun m => TeamMember.teamId m ∈ map Team.id ts) ms ->
  ms ≡ₚ concat (map (fun t => filter (fun m => TeamMember.teamId m = Team.id t) ms)
                    ts).
Proof.
  revert ms. induction ts as [|t ts IH]; intros ms Hnd Hms.
  - destruct ms as [|m ms]; [done|].
    apply Forall_cons in Hms as [Hm _]. by apply not_elem_of_nil in Hm.
  - simpl in Hnd. apply NoDup_cons in Hnd as [Ht Hnd]. cbn [map concat].
    rewrite <- (filter_app_complement
                  (fun m => TeamMember.teamId m = Team.id t) ms) at 1.
    apply Permutation_app_head.
    rewrite (IH (filter (fun m => ~ TeamMember.teamId m = Team.id t) ms) Hnd).
    + match goal with |- ?a ≡ₚ ?b => assert (a = b) as ->; [|done] end.
      f_equal. apply map_ext_in. intros t' Ht'.
      rewrite list_filter_filter. apply list_filter_iff. intros m.
      split; [tauto|]. intros E. split; [done|]. intros E'. apply Ht.
      rewrite <- E', E. apply (list_elem_of_fmap_2 Team.id).
      by apply list_elem_of_In.
    + apply Forall_forall. intros m [Hne Hm]%list_elem_of_filter.
      rewrite Forall_forall in Hms. specialize (Hms m Hm). simpl in Hms.
      by apply elem_of_cons in Hms as [E|Hin].
Qed.

Section Keyed.
Context `{RT : Runtime}.
Variable seed : string.
Hypothesis seed_below_one : stream_below_one seed.

(** A returning run leaves teams with distinct keys and memberships that
    refer to them. *)
Lemma assignFromSeed_well_keyed allUsers easyChallenges mediumChallenges
    hardChallenges teamChallenges fr :
  teamChallenges ≠ [] ->
  (forall user, user ∈ allUsers ->
     exists u, u ∈ allUsers /\ User.id u ≠ User.id user) ->
  well_keyed (store fr) ->
  exists fr',
    assignFromSeed seed allUsers easyChallenges mediumChallenges hardChallenges
      teamChallenges fr = (Normal tt, fr')
    /\ well_keyed (store fr').
Proof.
  intros Hteam Hothers W. unfold assignFromSeed.
  destruct (shuffle_permutes seed seed_below_one allUsers fr)
    as (us & fr1 & E1 & Hus & Hst1).
  unfold bind at 1. rewrite E1.
  unfold bind at 1. rewrite formTeams_chunks.
  destruct (createTeams_builds seed seed_below_one teamChallenges 0
              (chunks3 (map User.id us)) fr1 Hteam ltac:(by rewrite Hst1))
    as (fr2 & news & E2 & W2 & _).
  unfold bind at 1. rewrite E2.
  destruct (creates_assignChallenges seed seed_below_one allUsers Hothers
              easyChallenges mediumChallenges hardChallenges fr2)
    as ([] & fr3 & rows & E3 & _).
  pose proof (stable_assignChallenges well_keyed
                allUsers easyChallenges mediumChallenges hardChallenges
                ltac:(intros x _ d Hd; split;
                        [by apply createAssignment_well_keyed|done])
                seed fr2 W2) as [W3 _].
  rewrite E3 in W3 |- *. by exists fr3.
Qed.

End Keyed.

Lemma generateAssignments_well_keyed `{RT : Runtime} entropy adminId d :
  stream_below_one (seed_of entropy) ->
  pool team d ≠ [] ->
  (forall user, user ∈ participants d ->
     exists u, u ∈ participants d /\ User.id u ≠ User.id user) ->
  well_keyed (generateAssignments entropy adminId d).2.
Proof.
  intros Hseed Hteam Hothers. rewrite generateAssignments_unfold.
  destruct (assignFromSeed_well_keyed (seed_of entropy) Hseed (participants d)
              (pool easy d) (pool medium d) (pool hard d) (pool team d)
              (mkFrame (prepared entropy adminId d) 0) Hteam Hothers)
    as (fr' & E & W).
  { unfold well_keyed; simpl. split_and!; constructor. }
  unfold withSeedIndex. rewrite E. cbn [fst snd].
  eapply well_keyed_later; [exact W|done..|simpl; lia].
Qed.

(** X23. After a returning generation the memberships name each
    participant once, and nobody else.  With keys that identify the users,
    at least two participants, a team pool that is not empty and a seed
    none of whose windows reads [ffffffff], the users of the memberships
    are the participants, up to the order, and no user has two
    memberships. *)
Theorem one_membership_per_participant `{RT : Runtime} entropy adminId d :
  stream_below_one (seed_of entropy) ->
  NoDup (map User.id (users d)) ->
  2 <= length (participants d) ->
  pool team d ≠ [] ->
  let d' := (generateAssignments entropy adminId d).2 in
  map TeamMember.userId (teamMembers d') ≡ₚ map User.id (participants d)
  /\ NoDup (map TeamMember.userId (teamMembers d')).
Proof.
  intros Hseed Nu Lu Hteam d'.
  pose proof (participants_NoDup d Nu) as Np.
  assert (Hothers : forall user, user ∈ participants d ->
            exists u, u ∈ participants d /\ User.id u ≠ User.id user)
    by (intros u _; by apply another_participant).
  destruct (generateAssignments_teams entropy adminId d Hseed Hteam Hothers)
    as (us & Hus & Hsnd & _).
  destruct (generateAssignments_well_keyed entropy adminId d Hseed Hteam Hothers)
    as (Nt & _ & Hms).
  fold d' in Hsnd, Nt, Hms.
  assert (Hperm : map TeamMember.userId (teamMembers d')
                  ≡ₚ map User.id (participants d)).
  { rewrite (members_by_team (teams d') (teamMembers d') Nt Hms) at 1.
    rewrite concat_map, map_map.
    change (map (fun t => map TeamMember.userId
                            (filter (fun m => TeamMember.teamId m = Team.id t)
                                    (teamMembers d'))) (teams d'))
      with (map (fun t => members_of d' (Team.id t)) (teams d')).
    replace (map (fun t => members_of d' (Team.id t)) (teams d'))
      with (chunks3 (map User.id us))
      by (rewrite <- Hsnd; unfold team_compositions; by rewrite map_map).
    by rewrite chunks3_concat, Hus. }
  split; [done|]. by rewrite Hperm.
Qed.

Lemma one_membership_per_participant_witness :
  map TeamMember.userId (teamMembers sample_generated)
    ≡ₚ map User.id (participants (sample_db 4))
  /\ NoDup (map TeamMember.userId (teamMembers sample_generated)).
Proof.
  apply (@one_membership_per_participant reference_runtime zeros "admin"
           (sample_db 4)).
  - exact stream_below_one_zeros.
  - by_evaluation.
  - vm_compute. lia.
  - vm_compute. discriminate.
Defined.

(** ** Proofs *)

Section ProofsFacts.
Context `{RT : Runtime}.

Lemma createProof_unfold proof s :
  createProof proof s
  = let newProof :=
      Proof.mk (gen_random_uuid (uuids (db s))) (InsertProof.userId proof)
        (InsertProof.assignmentId proof) (InsertProof.teamId proof)
        (InsertProof.type proof) (InsertProof.fileName proof)
        (InsertProof.filePath proof) (InsertProof.description proof)
        (InsertProof.metadata proof)
        (default false (InsertProof.isValidated proof))
        (InsertProof.validatedBy proof) in
    (Normal newProof, mkStore (set_uuids N.succ (db s)) (proofs s ++ [newProof])).
Proof. reflexivity. Qed.

End ProofsFacts.

(** X24. An insert of a proof the database accepts (the user, and the
    assignment, the team and the validator if given, are rows of their
    tables) returns the new row, validated only if the values given say
    so; from then on [getProofsByTeamId] returns it, last, for the team it
    names, and [getProofsByAssignmentId] for the assignment it names; the
    answers for the other teams and assignments are as before, and no
    other table has changed. *)
Theorem createProof_then_get `{RT : Runtime} proof s :
  InsertProof.userId proof ∈ map User.id (users (db s)) ->
  (forall a, InsertProof.assignmentId proof = Some a ->
     a ∈ map Assignment.id (assignments (db s))) ->
  (forall t, InsertProof.teamId proof = Some t ->
     t ∈ map Team.id (teams (db s))) ->
  (forall v, InsertProof.validatedBy proof = Some v ->
     v ∈ map User.id (users (db s))) ->
  exists newProof s',
    createProof proof s = (Normal newProof, s')
    /\ Proof.isValidated newProof = default false (InsertProof.isValidated proof)
    /\ (forall teamId before,
          getProofsByTeamId teamId s = (Normal before, s) ->
          getProofsByTeamId teamId s'
          = (Normal (before ++ if decide (InsertProof.teamId proof = Some teamId)
                               then [newProof] else []), s'))
    /\ (forall assignmentId before,
          getProofsByAssignmentId assignmentId s = (Normal before, s) ->
          getProofsByAssignmentId assignmentId s'
          = (Normal (before
                     ++ if decide (InsertProof.assignmentId proof = Some assignmentId)
                        then [newProof] else []), s'))
    /\ db s' = set_uuids N.succ (db s).
Proof.
  intros _ _ _ _. rewrite createProof_unfold. cbv zeta.
  eexists _, _. split; [reflexivity|]. split; [done|]. split_and!; [| |done].
  - intros teamId before [= <-].
    unfold getProofsByTeamId, bind, get, ret. cbn [proofs].
    rewrite filter_app, filter_cons, filter_nil. cbn [Proof.teamId].
    by destruct (decide (InsertProof.teamId proof = Some teamId)).
  - intros assignmentId before [= <-].
    unfold getProofsByAssignmentId, bind, get, ret. cbn [proofs].
    rewrite filter_app, filter_cons, filter_nil. cbn [Proof.assignmentId].
    by destruct (decide (InsertProof.assignmentId proof = Some assignmentId)).
Qed.

Lemma createProof_then_get_witness :
  exists newProof s',
    @createProof reference_runtime sample_proof sample_store = (Normal newProof, s')
    /\ Proof.isValidated newProof = false
    /\ (forall teamId before,
          getProofsByTeamId teamId sample_store = (Normal before, sample_store) ->
          getProofsByTeamId teamId s'
          = (Normal (before ++ if decide (Some "1" = Some teamId)
                               then [newProof] else []), s'))
    /\ (forall assignmentId before,
          getProofsByAssignmentId assignmentId sample_store
          = (Normal before, sample_store) ->
          getProofsByAssignmentId assignmentId s'
          = (Normal (before ++ if decide (None = Some assignmentId)
                               then [newProof] else []), s'))
    /\ db s' = set_uuids N.succ (db sample_store).
Proof.
  apply (@createProof_then_get reference_runtime sample_proof sample_store).
  - elem_of_concrete.
  - intros a. discriminate.
  - intros t [= <-]. elem_of_concrete.
  - intros v. discriminate.
Defined.

Section Validated.
Context (validatorId : string).

Lemma validated_count (l : list Proof.t) p :
  NoDup (map Proof.id l) -> p ∈ l -> Proof.isValidated p = false ->
  teamProofCount l
  = S (teamProofCount
         (map (fun q => if decide (Proof.id q = Proof.id p)
                        then validated_by validatorId q else q) l)).
Proof.
  unfold teamProofCount. intros Hnd Hp Hval.
  induction l as [|x l IH]; [by apply not_elem_of_nil in Hp|].
  simpl in Hnd. apply NoDup_cons in Hnd as [Hx Hnd].
  cbn [map]. rewrite !filter_cons.
  destruct (decide (Proof.id x = Proof.id p)) as [E|Hne].
  - assert (x = p) as ->.
    { apply elem_of_cons in Hp as [->|Hp]; [done|]. exfalso. apply Hx.
      rewrite E. by apply (list_elem_of_fmap_2 Proof.id). }
    cbn [validated_by Proof.isValidated]. rewrite Hval.
    rewrite decide_True, decide_False by done. cbn [length]. do 3 f_equal.
    rewrite <- (map_id l) at 1. apply map_ext_in. intros q Hq.
    rewrite decide_False; [done|]. intros Eq. apply Hx. rewrite <- Eq.
    apply (list_elem_of_fmap_2 Proof.id). by apply list_elem_of_In.
  - apply elem_of_cons in Hp as [->|Hp]; [done|].
    destruct (decide (Proof.isValidated x = false)); cbn [length];
      by rewrite (IH Hnd Hp).
Qed.

End Validated.

(** X25. Validating a proof lowers the count of the team page.  With keys
    that identify the proofs, for a proof of a team that is not validated
    yet and a validator of the table of users, [validateProof] returns;
    [getProofsByTeamId] then returns as many proofs for the team as
    before, the proof among them validated by the validator, and the
    number the team page shows, that of the proofs not validated, is one
    less. *)
Theorem validateProof_lowers_the_count proofId validatorId teamId s p :
  NoDup (map Proof.id (proofs s)) ->
  validatorId ∈ map User.id (users (db s)) ->
  p ∈ proofs s ->
  Proof.id p = proofId ->
  Proof.teamId p = Some teamId ->
  Proof.isValidated p = false ->
  exists s' before after,
    validateProof proofId validatorId s = (Normal tt, s')
    /\ getProofsByTeamId teamId s = (Normal before, s)
    /\ getProofsByTeamId teamId s' = (Normal after, s')
    /\ length after = length before
    /\ validated_by validatorId p ∈ after
    /\ teamProofCount before = S (teamProofCount after).
Proof.
  intros Hnd _ Hp <- Ht Hval.
  eexists _, _, _. split; [reflexivity|]. split; [reflexivity|].
  unfold getProofsByTeamId, validateProof, modify, bind, get, ret.
  cbn [fst snd proofs set_proofs].
  set (upd := fun q => if decide (Proof.id q = Proof.id p)
                       then validated_by validatorId q else q).
  change (map upd (proofs s)) with (upd <$> proofs s).
  rewrite (filter_fmap upd (fun q => Proof.teamId q = Some teamId)).
  2: { intros q. unfold upd. by destruct (decide _). }
  split; [reflexivity|].
  assert (Hin : p ∈ filter (fun q => Proof.teamId q = Some teamId) (proofs s))
    by (by apply list_elem_of_filter).
  split_and!.
  - by rewrite length_fmap.
  - replace (validated_by validatorId p) with (upd p)
      by (unfold upd; by rewrite decide_True).
    by apply list_elem_of_fmap_2.
  - apply validated_count; [|done..].
    eapply sublist_NoDup; [exact Hnd|]. apply fmap_sublist, sublist_filter.
Qed.

Lemma validateProof_lowers_the_count_witness :
  exists s' before after,
    validateProof "40" "u0" sample_store = (Normal tt, s')
    /\ getProofsByTeamId "1" sample_store = (Normal before, sample_store)
    /\ getProofsByTeamId "1" s' = (Normal after, s')
    /\ length after = length before
    /\ validated_by "u0"
         (Proof.mk "40" "u3" None (Some "1") photo (Some "a.jpg")
            (Some "uploads/a") None None false None) ∈ after
    /\ teamProofCount before = S (teamProofCount after).
Proof.
  apply (validateProof_lowers_the_count "40" "u0" "1" sample_store
           (Proof.mk "40" "u3" None (Some "1") photo (Some "a.jpg")
              (Some "uploads/a") None None false None)).
  - by_evaluation.
  - elem_of_concrete.
  - elem_of_concrete.
  - reflexivity.
  - reflexivity.
  - reflexivity.
Defined.

(** ** A participant alone *)

Section Throws.
Context {S : Type}.

Lemma throws_bind {A B} (m : M S A) (f : A -> M S B) :
  throws m -> throws (bind m f).
Proof. intros Hm s. destruct (Hm s) as (s' & E). exists s'. unfold bind. by rewrite E. Qed.

Lemma bind_throws {A B} (m : M S A) (f : A -> M S B) :
  (forall a, throws (f a)) -> throws (bind m f).
Proof.
  intros Hf s. unfold bind. destruct (m s) as [[a|[]] s']; [apply Hf|by exists s'].
Qed.

End Throws.

Section Lone.
Context `{RT : Runtime}.

(** With no other participant, a block whose pool holds only challenges
    that need a target throws at its first challenge: there is no
    possible target to read the key of. *)
Lemma assignTargeted_lone seed user pool :
  pool ≠ [] ->
  Forall (fun c => Challenge.needsTarget c = true) pool ->
  throws (assignTargeted seed [user] pool user).
Proof.
  intros Hne Hall fr. unfold assignTargeted.
  destruct (creates_sortSeeded seed pool fr)
    as (sorted & fr1 & rows & E & _ & _ & Hperm).
  unfold bind at 1. rewrite E.
  destruct sorted as [|c rest].
  { apply Permutation_nil_l in Hperm. by destruct pool. }
  assert (Hc : Challenge.needsTarget c = true).
  { rewrite Forall_forall in Hall. apply Hall. rewrite <- Hperm. left. }
  unfold slice. rewrite drop_0. cbn [take forOf].
  apply throws_bind, throws_bind. clear fr1 E. intros fr1.
  unfold resolveTarget. rewrite Hc.
  rewrite filter_cons_False, filter_nil by (intros H; by apply H).
  unfold bind at 1, seededRandomM. cbn [seededRandom]. unfold array_get.
  rewrite lookup_nil. eexists. reflexivity.
Qed.

Lemma assignFromSeed_lone seed user easyChallenges mediumChallenges
    hardChallenges teamChallenges difficulty :
  (difficulty = medium /\ mediumChallenges ≠ []
   /\ Forall (fun c => Challenge.needsTarget c = true) mediumChallenges)
  \/ (difficulty = hard /\ hardChallenges ≠ []
      /\ Forall (fun c => Challenge.needsTarget c = true) hardChallenges) ->
  throws (assignFromSeed seed [user] easyChallenges mediumChallenges
            hardChallenges teamChallenges).
Proof.
  intros H. unfold assignFromSeed.
  apply bind_throws. intros shuffledUsers.
  apply bind_throws. intros teamAssignments.
  apply bind_throws. intros _.
  unfold assignChallenges. cbn [forOf].
  apply throws_bind, bind_throws. intros _.
  destruct H as [(_ & Hne & Hall)|(_ & Hne & Hall)].
  - by apply throws_bind, assignTargeted_lone.
  - by apply bind_throws; intros _; apply assignTargeted_lone.
Qed.

End Lone.

(** X26. A participant alone cannot be given a challenge that needs a
    target.  When a single user is not an admin and the medium pool, or
    the hard pool, is not empty and holds only challenges that need a
    target, no call of [generateAssignments] returns, whatever the seed.
    A call the database accepts throws a [TypeError], and the seed record
    of the call is stored all the same, the last of the table. *)
Theorem lone_participant_throws `{RT : Runtime} entropy adminId s user difficulty :
  participants (db s) = [user] ->
  difficulty = medium \/ difficulty = hard ->
  pool difficulty (db s) ≠ [] ->
  Forall (fun c => Challenge.needsTarget c = true) (pool difficulty (db s)) ->
  let run := storage_generateAssignments entropy adminId s in
  (forall r, run.1 ≠ Returned r)
  /\ (accepted adminId s ->
      run.1 = Failed (Js TypeError)
      /\ last (assignmentSeeds (db run.2))
         = Some (new_seed_record entropy adminId (db s))).
Proof.
  intros Hu Hk Hne Hall run. subst run.
  assert (Hthrow : (generateAssignments entropy adminId (db s)).1 = Throw TypeError).
  { rewrite generateAssignments_unfold, Hu.
    destruct (assignFromSeed_lone (seed_of entropy) user (pool easy (db s))
                (pool medium (db s)) (pool hard (db s)) (pool team (db s))
                difficulty
                ltac:(destruct Hk as [->| ->]; [by left|by right])
                (mkFrame (prepared entropy adminId (db s)) 0)) as (fr' & E).
    unfold withSeedIndex. by rewrite E. }
  split.
  - intros r (_ & Hr & _)%storage_generateAssignments_returned. congruence.
  - intros Hacc. split.
    + rewrite storage_generateAssignments_accepted by done.
      destruct (generateAssignments _ _ _) as [[?|[]] d']; simpl in *; done.
    + rewrite storage_generateAssignments_seeds by (by apply refused_iff).
      by rewrite last_snoc.
Qed.

Lemma lone_participant_throws_witness :
  let run := @storage_generateAssignments reference_runtime zeros "root"
               lone_store in
  (forall r, run.1 ≠ Returned r)
  /\ (accepted "root" lone_store ->
      run.1 = Failed (Js TypeError)
      /\ last (assignmentSeeds (db run.2))
         = Some (@new_seed_record reference_runtime zeros "root" (db lone_store))).
Proof.
  apply (@lone_participant_throws reference_runtime zeros "root" lone_store
           (sample_user "u0") medium).
  - reflexivity.
  - by left.
  - vm_compute. discriminate.
  - by_evaluation.
Defined.

(** ** The sizes of the teams *)

Lemma chunks3_lengths {A} (l : list A) :
  map length (chunks3 l)
  = replicate (length l / 3) 3
    ++ if decide (length l mod 3 = 0) then [] else [length l mod 3].
Proof.
  induction l as [|a|a b|a b c l IH] using chunks3_ind; [done..|].
  cbn [chunks3 map length]. rewrite IH.
  replace (S (S (S (length l)))) with (length l + 1 * 3) by lia.
  rewrite Nat.div_add, Nat.Div0.mod_add by lia.
  replace (length l / 3 + 1) with (S (length l / 3)) by lia. done.
Qed.

(** X27. The sizes of the teams a returning generation forms.  With keys
    that identify the users, at least two participants, a team pool that
    is not empty and a seed none of whose windows reads [ffffffff], the
    teams of the table have, in their order, three members each, except
    that a last team has the one or two participants left when their
    number is not a multiple of 3. *)
Theorem team_sizes_after_generation `{RT : Runtime} entropy adminId d :
  stream_below_one (seed_of entropy) ->
  NoDup (map User.id (users d)) ->
  2 <= length (participants d) ->
  pool team d ≠ [] ->
  let n := length (participants d) in
  team_sizes (generateAssignments entropy adminId d).2
  = replicate (n / 3) 3 ++ if decide (n mod 3 = 0) then [] else [n mod 3].
Proof.
  intros Hseed Nu Lu Hteam n.
  pose proof (participants_NoDup d Nu) as Np.
  destruct (generateAssignments_teams entropy adminId d Hseed Hteam)
    as (us & Hus & Hsnd & _).
  { intros u _. by apply another_participant. }
  assert (E : team_sizes (generateAssignments entropy adminId d).2
              = map length (chunks3 (map User.id us))).
  { rewrite <- Hsnd. unfold team_sizes, team_compositions.
    by rewrite !map_map. }
  apply Permutation_length in Hus.
  by rewrite E, chunks3_lengths, length_map, Hus.
Qed.

Lemma team_sizes_after_generation_witness :
  team_sizes sample_generated
  = replicate (length (participants (sample_db 4)) / 3) 3
    ++ if decide (length (participants (sample_db 4)) mod 3 = 0) then []
       else [length (participants (sample_db 4)) mod 3].
Proof.
  apply (@team_sizes_after_generation reference_runtime zeros "admin"
           (sample_db 4)).
  - exact stream_below_one_zeros.
  - by_evaluation.
  - vm_compute. lia.
  - vm_compute. discriminate.
Defined.

(** X28. [generateAssignments] never touches the users, the bank of
    challenges and the proofs: after a call, however it ended, these
    tables are as they were. *)
Theorem generation_keeps_users_and_bank `{RT : Runtime} entropy adminId s :
  let s' := (storage_generateAssignments entropy adminId s).2 in
  users (db s') = users (db s)
  /\ challenges (db s') = challenges (db s)
  /\ proofs s' = proofs s.
Proof.
  intros s'. subst s'.
  destruct (refused (storage_generateAssignments entropy adminId s).1) eqn:Href.
  - unfold storage_generateAssignments in *.
    repeat case_decide; simpl in *; try done.
    by destruct (generateAssignments _ _ _) as [[?|?] ?].
  - destruct (storage_generateAssignments_ran _ _ _ Href) as (-> & -> & _).
    destruct (generateAssignments_keeps_bank entropy adminId (db s)) as [Eu Ec].
    done.
Qed.
